(** * A shallow embedding of the feed reader's update engine

    The development follows the repository's source files:
    - [reader/parser.py]           (module [parser] below),
    - [reader/_parser/file.py]     (module [file]),
    - [reader/_utils.py]           (module [_utils]),
    - [reader/core/types.py]       (module [types]).

    Three parts of the engine are not among the source files and are
    written from the spec, each definition saying so: the helpers of
    [reader/_parser/_url_utils.py] (module [url_utils_model]), the entry
    loop of the Reconciler (module [updater_model]) and the Hook
    Dispatcher (module [hooks_model]).  Module [paths] has the path
    names in which the statements about the root directory are made.

    Part I holds the embedding, Part II the theorems.

    Conventions.  Python exceptions are values of [exn]; a computation
    that may raise returns a [result].  Python [int] is [Z], [str] is
    [string] (in [types.HighlightedString], whose slices are taken, the
    list of its characters), [None]-able values are [option]s, a [dict]
    with string keys is a [gmap string _], a [set] is a [gset].  A
    generator is modelled by what a [next()] on it does to its state, or
    by the sequence of what it yields.  What the code obtains from
    libraries outside the repository (feedparser, requests, urllib,
    calendar, pathlib, re, the file system, the builtin [int]) is a field
    of one of the interface classes [PyRuntime], [FeedparserLib],
    [HttpLib], [FileSystem], [Re]: the theorems hold for every
    implementation of them. *)

From Stdlib Require Import ZArith Lia Ascii.
From stdpp Require Import base option list strings gmap sets fin_maps.
From stdpp Require Import pretty sorting.

Set Warnings "-clear-no-such-hyp".

(* ===================================================================== *)
(** * Part I: the embedding *)
(* ===================================================================== *)

(** ** Python values, exceptions and results *)

(** The exceptions the modelled code raises or catches.  [ParseError]
    carries the url, the message and the cause ([raise ... from cause]);
    [HookError] is the one of section 7 of the spec, with its cause. *)
#[warnings="-register-all"]
Inductive exn : Type :=
| AssertionError
| AttributeError
| TypeError
| ValueError (msg : string)
| OverflowError
| OSError (msg : string)
| RuntimeError (msg : string)
| CharacterEncodingOverride
| NotModified (url : string)
| ParseError (url : string) (message : string) (cause : option exn)
| HookError (cause : exn).

Inductive result (A : Type) : Type :=
| Return (a : A)
| Raise (e : exn).
Arguments Return {A} a.
Arguments Raise {A} e.

(** Sequencing: an exception raised by the first computation propagates. *)
#[global] Instance result_bind : MBind result := λ A B k m,
  match m with
  | Return a => k a
  | Raise e => Raise e
  end.

(** [assert c]: raises [AssertionError] when [c] is falsy. *)
Definition assert_ (c : bool) : result unit :=
  if c then Return tt else Raise AssertionError.

(** A [for] loop whose body may raise: the first exception ends it. *)
Fixpoint mapM {A B} (f : A → result B) (l : list A) : result (list B) :=
  match l with
  | [] => Return []
  | a :: l' => b ← f a ; bs ← mapM f l' ; Return (b :: bs)
  end.

(** The values found in the dictionaries feedparser hands over. *)
Inductive pyval : Type :=
| PyNone
| PyBool (b : bool)
| PyInt (z : Z)
| PyStr (s : string).

(** Truthiness of a string: [''] is falsy. *)
Definition str_truthy (s : string) : bool :=
  match s with EmptyString => false | _ => true end.

(** Truthiness of an optional string ([None] and [''] are falsy). *)
Definition opt_str_truthy (o : option string) : bool :=
  match o with Some s => str_truthy s | None => false end.

(** [datetime.datetime], a naive UTC date and time, as the POSIX timestamp
    it was built from; every [datetime] is truthy.  The range of years a
    [datetime] can hold is not modelled. *)
Definition datetime : Type := Z.

(** What the Python runtime provides. *)
Class PyRuntime : Type := {
  (** [time.struct_time], as feedparser's [*_parsed] keys hold it;
      a non-empty tuple, hence truthy *)
  timetuple : Type;
  (** [calendar.timegm] *)
  timegm : timetuple → Z;
  (** the builtin [int] *)
  int_ : pyval → result Z;
}.

(** ** reader/parser.py *)

Module parser.

(** A [FeedParserDict] for a feed or an entry, with the keys the parser
    reads.  A key that may be absent is an [option]; [updated_parsed] and
    [published_parsed] may be present and hold [None]. *)
Record FeedParserDict `{runtime : PyRuntime} : Type := {
  id : option string;
  updated_parsed : option (option timetuple);
  published_parsed : option (option timetuple);
  title : option string;
  link : option string;
  author : option string;
  summary : option string;
  content : option (list (gmap string pyval));
  enclosures : option (list (gmap string pyval));
}.

Record Content : Type := {
  value : pyval;
  content_type : pyval;
  language : pyval;
}.

Record Enclosure : Type := {
  href : pyval;
  enclosure_type : pyval;
  length : pyval;
}.

Record Feed : Type := {
  feed_url : string;
  feed_updated : option datetime;
  feed_title : option string;
  feed_link : option string;
  feed_author : option string;
  feed_user_title : option string;
}.

(** [Entry], with the eleven positional fields [_make_entry] fills; as a
    Python tuple, it would hold [None] in any of them. *)
Record Entry : Type := {
  entry_id : string;
  entry_updated : option datetime;
  entry_title : option string;
  entry_link : option string;
  entry_author : option string;
  entry_published : option datetime;
  entry_summary : option string;
  entry_content : option (list Content);
  entry_enclosures : option (list Enclosure);
  entry_read : bool;
  entry_last : option bool;
}.

Section WithRuntime.
Context `{runtime : PyRuntime}.

Definition _datetime_from_timetuple (tup : option timetuple) : option datetime :=
  match tup with
  | Some t => Some (timegm t)
  | None => None
  end.

Definition _get_updated_published (thing : FeedParserDict) (is_rss : bool)
  : option datetime * option datetime :=
  let updated :=
    match updated_parsed thing with
    | Some tup => _datetime_from_timetuple tup
    | None => None
    end in
  let published :=
    match published_parsed thing with
    | Some tup => _datetime_from_timetuple tup
    | None => None
    end in
  if bool_decide (is_Some published) && negb (bool_decide (is_Some updated)) && is_rss
  then (published, None)
  else (updated, published).

(** [{k: v for k, v in data.items() if k in keys}] *)
Definition keep_keys (keys : list string) (data : gmap string pyval)
  : gmap string pyval :=
  filter (λ kv, kv.1 ∈ keys) data.

(** [Content] called with the keys of [data] as keyword arguments: [value] is required. *)
Definition Content_new (data : gmap string pyval) : result Content :=
  match data !! "value" with
  | None => Raise TypeError
  | Some v =>
      Return {| value := v;
                content_type := default PyNone (data !! "type");
                language := default PyNone (data !! "language") |}
  end.

(** [Enclosure] called with the keys of [data] as keyword arguments: [href] is required. *)
Definition Enclosure_new (data : gmap string pyval) : result Enclosure :=
  match data !! "href" with
  | None => Raise TypeError
  | Some h =>
      Return {| href := h;
                enclosure_type := default PyNone (data !! "type");
                length := default PyNone (data !! "length") |}
  end.

(** The [try: data['length'] = int(data['length'])
         except (TypeError, ValueError): del data['length']] block. *)
Definition coerce_length (data : gmap string pyval) : result (gmap string pyval) :=
  match data !! "length" with
  | None => Return data
  | Some v =>
      match int_ v with
      | Return z => Return (<["length" := PyInt z]> data)
      | Raise TypeError => Return (delete "length" data)
      | Raise (ValueError _) => Return (delete "length" data)
      | Raise e => Raise e
      end
  end.

(** The body of the loop over [entry.get('content', ())]. *)
Definition make_content (data : gmap string pyval) : result Content :=
  Content_new (keep_keys ["value"; "type"; "language"] data).

(** The body of the loop over [entry.get('enclosures', ())]. *)
Definition make_enclosure (data : gmap string pyval) : result Enclosure :=
  data' ← coerce_length (keep_keys ["href"; "type"; "length"] data) ;
  Enclosure_new data'.

(** [tuple(l) or None] *)
Definition or_None {A} (l : list A) : option (list A) :=
  match l with [] => None | _ => Some l end.

Definition _make_entry (entry : FeedParserDict) (is_rss : bool) : result Entry :=
  match id entry with
  | None => Raise AttributeError
  | Some entry_id_ =>
      _ ← assert_ (str_truthy entry_id_) ;
      let '(updated, published) := _get_updated_published entry is_rss in
      match updated with
      | None => Raise AssertionError
      | Some _ =>
          content_ ← mapM make_content (default [] (content entry)) ;
          enclosures_ ← mapM make_enclosure (default [] (enclosures entry)) ;
          Return {| entry_id := entry_id_;
                    entry_updated := updated;
                    entry_title := title entry;
                    entry_link := link entry;
                    entry_author := author entry;
                    entry_published := published;
                    entry_summary := summary entry;
                    entry_content := or_None content_;
                    entry_enclosures := or_None enclosures_;
                    entry_read := false;
                    entry_last := None |}
      end
  end.

(** The vocabulary of the statements about [_make_entry]. *)

(** A date key that is absent, or present and [None]. *)
Definition no_date (field : option (option timetuple)) : Prop :=
  field = None ∨ field = Some None.





(** The dictionary [feedparser.parse] returns. *)
Record FeedParserResult : Type := {
  status : option Z;
  bozo : bool;
  bozo_exception : option exn;
  version : option string;
  feed : FeedParserDict;
  entries : list FeedParserDict;
  etag : option string;
  modified : option string;
  headers : gmap string string;
  result_href : option string;
  newurl : option string;
}.

(** [urllib.parse.urlparse]'s result. *)
Record ParseResult : Type := {
  scheme : string;
  netloc : string;
  path : string;
  params : string;
  query : string;
  fragment : string;
}.

(** A [requests.Response]; its headers are looked up by the names the
    code uses ([requests] ignores their case). *)
Record Response : Type := {
  status_code : Z;
  response_headers : gmap string string;
  response_url : string;
  response_content : string;
}.

(** feedparser, and the snippet of its [parse] the repository keeps in
    [_feedparser_parse_data] (not among the source files). *)
Class FeedparserLib : Type := {
  (** [feedparser.parse(url, etag=, modified=, handlers=HANDLERS)] *)
  feedparser_parse : string → option string → option string → FeedParserResult;
  (** [_feedparser_parse_snippet(result, data)], as the dictionary it
      leaves in [result] *)
  _feedparser_parse_snippet : FeedParserResult → string → FeedParserResult;
  (** [feedparser.http.ACCEPT_HEADER] *)
  ACCEPT_HEADER : string;
}.

(** [urllib] and [requests]. *)
Class HttpLib : Type := {
  urlparse : string → ParseResult;
  (** [requests.get(url, headers=headers)] *)
  requests_get : string → gmap string string → result Response;
}.

(** [s.startswith(p)] *)
Definition startswith (p s : string) : bool :=
  bool_decide (String.substring 0 (String.length p) s = p).

(** The generator [(_make_entry(e, is_rss) for e in d.entries)], as the
    outcomes of the calls of [next()] on it until it is over.  An entry is
    made when it is asked for.  The exception of a [_make_entry] leaves
    the generator through that [next()] and finishes it: the elements
    after it are never made, every later [next()] is a [StopIteration]. *)
Fixpoint entries_generator (es : list FeedParserDict) (is_rss : bool)
  : list (result Entry) :=
  match es with
  | [] => []
  | e :: es' =>
      match _make_entry e is_rss with
      | Return x => Return x :: entries_generator es' is_rss
      | Raise err => [Raise err]
      end
  end.

(** [_process_feed]; the warning it logs for a character encoding
    override is not modelled. *)
Definition _process_feed (url : string) (d : FeedParserResult)
  : result (Feed * list (result Entry)) :=
  _ ← (if bozo d
       then match bozo_exception d with
            | Some CharacterEncodingOverride => Return tt
            | exception => Raise (ParseError url "" exception)
            end
       else Return tt) ;
  match version d with
  | None => Raise AttributeError
  | Some v =>
      let is_rss := startswith "rss" v in
      let '(updated, _) := _get_updated_published (feed d) is_rss in
      let feed_ := {| feed_url := url;
                      feed_updated := updated;
                      feed_title := title (feed d);
                      feed_link := link (feed d);
                      feed_author := author (feed d);
                      feed_user_title := None |} in
      Return (feed_, entries_generator (entries d) is_rss)
  end.

(** What [parse] returns: [(feed, entries, http_etag, http_last_modified)]. *)
Definition parsed : Type :=
  (Feed * list (result Entry) * option string * option string)%type.

Section WithLibraries.
Context `{feedparser : FeedparserLib} `{http : HttpLib}.

Definition parse_feedparser (url : string) (http_etag http_last_modified : option string)
  : result parsed :=
  let d := feedparser_parse url http_etag http_last_modified in
  if bool_decide (status d = Some 304%Z) then Raise (NotModified url)
  else
    let http_etag := from_option Some http_etag (etag d) in
    let http_last_modified := from_option Some http_last_modified (modified d) in
    '(feed_, entries_) ← _process_feed url d ;
    Return (feed_, entries_, http_etag, http_last_modified).

(** The empty [FeedParserDict()]. *)
Definition empty_FeedParserDict : FeedParserDict :=
  {| id := None; updated_parsed := None; published_parsed := None;
     title := None; link := None; author := None; summary := None;
     content := None; enclosures := None |}.

(** The [headers] dictionary [parse_requests] builds. *)
Definition request_headers (http_etag http_last_modified : option string)
  : gmap string string :=
  let headers0 : gmap string string :=
    {[ "Accept" := ACCEPT_HEADER; "A-IM" := "feed" ]} in
  let headers1 :=
    if opt_str_truthy http_etag
    then <["If-None-Match" := default "" http_etag]> headers0 else headers0 in
  if opt_str_truthy http_last_modified
  then <["If-Modified-Since" := default "" http_last_modified]> headers1
  else headers1.

Definition parse_requests (url : string) (http_etag http_last_modified : option string)
  : result parsed :=
  let url_split := urlparse url in
  if negb (bool_decide (scheme url_split ∈ ["http"; "https"])) then
    _ ← assert_ (negb (str_truthy (netloc url_split))) ;
    _ ← assert_ (negb (str_truthy (params url_split))) ;
    _ ← assert_ (negb (str_truthy (query url_split))) ;
    _ ← assert_ (negb (str_truthy (fragment url_split))) ;
    let url :=
      if bool_decide (scheme url_split ∈ ["file"]) then path url_split
      else scheme url_split
           +:+ (if str_truthy (scheme url_split) then ":" else "")
           +:+ path url_split in
    parse_feedparser url http_etag http_last_modified
  else
    match requests_get url (request_headers http_etag http_last_modified) with
    | Raise e => Raise (ParseError url "" (Some e))
    | Return response =>
        if bool_decide (status_code response = 304%Z) then Raise (NotModified url)
        else
          let result0 :=
            {| status := Some (status_code response);
               bozo := false;
               bozo_exception := None;
               version := None;
               feed := empty_FeedParserDict;
               entries := [];
               etag := None;
               modified := None;
               headers := response_headers response;
               result_href := Some (response_url response);
               newurl := if bool_decide (response_url response = url) then None
                         else Some (response_url response) |} in
          let result1 := _feedparser_parse_snippet result0 (response_content response) in
          let http_etag :=
            from_option Some http_etag (response_headers response !! "ETag") in
          let http_last_modified :=
            from_option Some http_last_modified
              (response_headers response !! "Last-Modified") in
          '(feed_, entries_) ← _process_feed url result1 ;
          Return (feed_, entries_, http_etag, http_last_modified)
    end.

(** [parse = parse_feedparser], replaced by [parse_requests] when the
    [requests] package can be imported. *)
Definition parse (have_requests : bool) : string → option string → option string → result parsed :=
  if have_requests then parse_requests else parse_feedparser.

End WithLibraries.

End WithRuntime.

End parser.

(** ** reader/_parser/file.py *)

(** The operating system, as [file.py] uses it. *)
Class FileSystem : Type := {
  (** what [open(path, 'rb')] yields *)
  file : Type;
  (** [open(path, 'rb')] *)
  open_rb : string → result file;
  (** [pathlib.PurePath(path).is_reserved()] *)
  is_reserved : string → bool;
}.

(** The helpers [file.py] imports from [reader/_parser/_url_utils.py] and
    [reader/_parser/__init__.py]; those files are not among the sources. *)
Class UrlUtils : Type := {
  (** [extract_path(url)]: the path a [file:] URI or a bare path names *)
  extract_path : string → result string;
  (** [resolve_root(root, path)]: [path] resolved against [root] *)
  resolve_root : string → string → result string;
  (** [wrap_exceptions(url, when)]: the exception that leaves the [with]
      block when its body raises [e] *)
  wrap_exceptions : string → string → exn → exn;
}.

(** The vocabulary of the statements about the root directory: what it
    is for a path to be below a directory.  A path name is read as it is
    written, component by component; what a symbolic link points to is
    not part of it.  (The code of the repository that works on path
    names, [_url_utils.py], is not among the sources.) *)
Module paths.

(** [s.split('/')]: the components of a path name. *)
Fixpoint split_slash (s : string) : list string :=
  match s with
  | EmptyString => [EmptyString]
  | String c s' =>
      if Ascii.eqb c "/"%char then EmptyString :: split_slash s'
      else match split_slash s' with
           | [] => [String c EmptyString]
           | w :: ws => String c w :: ws
           end
  end.

(** Where one gets by the components [parts] from the directory [here],
    which is given by the names that lead to it from the top of the file
    system, the last one first: a name leads down, [..] up (the top is
    its own parent), [.] and an empty component stay. *)
Fixpoint walk (parts : list string) (here : list string) : list string :=
  match parts with
  | [] => here
  | w :: ws =>
      if bool_decide (w = "" ∨ w = ".") then walk ws here
      else if bool_decide (w = "..") then walk ws (tail here)
      else walk ws (w :: here)
  end.

(** The place a path name stands for: the names that lead to it from the
    top of the file system. *)
Definition location (path : string) : list string :=
  rev (walk (split_slash path) []).

(** The place [path] stands for when it is taken from the directory
    [root]: an absolute path stands for itself, a relative one is walked
    from [root]. *)
Definition location_from (root path : string) : list string :=
  if parser.startswith "/" path then location path
  else rev (walk (split_slash path) (rev (location root))).

(** The place [place] is the directory [root] or lies below it. *)
Definition below (root : string) (place : list string) : Prop :=
  location root `prefix_of` place.

#[global] Instance below_dec root place : Decision (below root place).
Proof. unfold below. apply _. Defined.

End paths.

Module file.
Import paths.

Section WithSystem.
Context `{fs : FileSystem} `{utils : UrlUtils}.

(** The frozen dataclass [FileRetriever]. *)
Record FileRetriever : Type := {
  feed_root : string;
}.

Record RetrieveResult : Type := {
  resource : file;
}.

Definition _normalize_url (self : FileRetriever) (url : string) : result string :=
  path ← extract_path url ;
  if str_truthy (feed_root self) then
    path ← resolve_root (feed_root self) path ;
    if is_reserved path then Raise (ValueError "path must not be reserved")
    else Return path
  else Return path.

(** [FileRetriever(feed_root)]: the dataclass constructor followed by
    [__post_init__]. *)
Definition FileRetriever_new (feed_root_ : string) : result FileRetriever :=
  let self := {| feed_root := feed_root_ |} in
  _ ← _normalize_url self "known-good-feed-url" ;
  Return self.

Definition validate_url (self : FileRetriever) (url : string) : result unit :=
  _ ← _normalize_url self url ;
  Return tt.

(** [__call__], entered as a context manager: the paths passed to [open],
    in order, and the outcome of entering. *)
Definition __call__ (self : FileRetriever) (url : string)
  : list string * result RetrieveResult :=
  match _normalize_url self url with
  | Raise (ValueError msg) => ([], Raise (ParseError url msg None))
  | Raise e => ([], Raise e)
  | Return normalized_url =>
      ([normalized_url],
       match open_rb normalized_url with
       | Raise e => Raise (wrap_exceptions url "while reading feed" e)
       | Return f => Return {| resource := f |}
       end)
  end.

(** The vocabulary of the statements about the root. *)

(** The path escapes the root: taken from the root, it stands for a
    place that is not below the root. *)
Definition escapes_root (root path : string) : Prop :=
  ¬ below root (location_from root path).

(** What [file.py] relies on [resolve_root] for: a path it returns
    stands for a place below the root, and a path that escapes the
    root is refused by a [ValueError]. *)
Definition resolve_root_contained : Prop :=
  ∀ root path,
    match resolve_root root path with
    | Return resolved => below root (location resolved) ∧ ¬ escapes_root root path
    | Raise e => escapes_root root path → ∃ msg, e = ValueError msg
    end.

(** What the path resolves to is a reserved name of the system. *)
Definition names_reserved (root path : string) : Prop :=
  ∃ resolved, resolve_root root path = Return resolved ∧ is_reserved resolved = true.

End WithSystem.

End file.

(** *** The helpers of [_url_utils.py], from the spec *)

Module url_utils_model.
Import paths.

(** Modelled from the spec: a helper of [resolve_root] below,
    ['/'.join(parts)]. *)
Fixpoint join_slash (parts : list string) : string :=
  match parts with
  | [] => ""
  | [w] => w
  | w :: ws => w +:+ "/" +:+ join_slash ws
  end.

(** Modelled from the spec: a helper of [resolve_root] below.  It walks
    the components of a relative path, keeping the components of the
    normalised path in reverse; [None] when a [..] climbs above the
    starting directory. *)
Fixpoint normalize_parts (parts : list string) (acc : list string) : option (list string) :=
  match parts with
  | [] => Some (rev acc)
  | w :: ws =>
      if bool_decide (w = "" ∨ w = ".") then normalize_parts ws acc
      else if bool_decide (w = "..") then
        match acc with
        | [] => None
        | _ :: acc' => normalize_parts ws acc'
        end
      else normalize_parts ws (w :: acc)
  end.

(** Modelled from the spec: [extract_path] of [_url_utils.py], which is
    not among the sources.  A [file://] URI with an empty authority names
    the path after the authority; a bare path names itself. *)
Definition model_extract_path (url : string) : result string :=
  if parser.startswith "file://" url
  then Return (String.substring 7 (String.length url - 7) url)
  else Return url.

(** Modelled from the spec: [resolve_root] of [_url_utils.py], which is
    not among the sources.  "The retriever must reject paths that escape a
    configured root directory": an absolute path, and a relative path
    that climbs above the root, are [ValueError]s; any other path is
    resolved below the root. *)
Definition model_resolve_root (root path : string) : result string :=
  if parser.startswith "/" path then Raise (ValueError "path must be relative")
  else match normalize_parts (split_slash path) [] with
       | None => Raise (ValueError "path cannot be outside root")
       | Some parts => Return (join_slash (root :: parts))
       end.

(** Modelled from the spec: [wrap_exceptions], "reporting these as
    retrieval errors": a [ParseError] passes, anything else becomes the
    cause of a [ParseError]. *)
Definition model_wrap_exceptions (url when : string) (e : exn) : exn :=
  match e with
  | ParseError _ _ _ => e
  | _ => ParseError url ("error " +:+ when) (Some e)
  end.

#[local] Instance url_utils : UrlUtils :=
  {| extract_path := model_extract_path;
     resolve_root := model_resolve_root;
     wrap_exceptions := model_wrap_exceptions |}.

End url_utils_model.

(** ** reader/_utils.py *)

Module _utils.

(** *** [join_paginated_iter] *)

Section Pagination.
(** [T]: the sort keys (cursors); [U]: the items; [W]: the state of what
    [get_things] queries, which a call may change. *)
Context {T U W : Type}.

(** What a run of the generator does, in order: a call
    [get_things(size, last)] with the list it returned, or the [yield] of
    an item. *)
Inductive event : Type :=
| Fetch (size : Z) (last : option T) (things : list (U * T))
| Yield (item : U).

(** [yield from (t for t, _ in things)] *)
Definition yield_from (things : list (U * T)) : list event :=
  map (λ thing, Yield thing.1) things.

(** The [while True] loop, for at most [fuel] calls of [get_things].
    The result is the events of the run and whether the generator has
    returned ([false]: the calls allowed were used up before it did). *)
Fixpoint paginated_loop (get_things : Z → option T → W → list (U * T) * W)
    (chunk_size limit : Z) (fuel : nat) (remaining : Z) (last : option T) (w : W)
  : list event * bool :=
  if bool_decide (limit ≠ 0%Z) && bool_decide (remaining = 0%Z) then ([], true)
  else
    match fuel with
    | O => ([], false)
    | S fuel' =>
        let to_get :=
          if bool_decide (limit ≠ 0%Z) then Z.min remaining chunk_size else chunk_size in
        let remaining :=
          if bool_decide (limit ≠ 0%Z) then Z.max 0 (remaining - to_get) else remaining in
        let '(things, w) := get_things to_get last w in
        match list.last things with
        | None => ([Fetch to_get last things], true)
        | Some (_, last') =>
            let events := Fetch to_get last things :: yield_from things in
            if bool_decide (Z.of_nat (length things) < to_get)%Z then (events, true)
            else
              let '(events', returned) :=
                paginated_loop get_things chunk_size limit fuel' remaining (Some last') w in
              (events ++ events', returned)
        end
    end.

Definition join_paginated_iter (get_things : Z → option T → W → list (U * T) * W)
    (chunk_size : Z) (last : option T) (limit : Z) (w : W) (fuel : nat)
  : list event * bool :=
  if bool_decide (chunk_size = 0%Z) then
    let '(things, _) := get_things limit last w in
    (Fetch limit last things :: yield_from things, true)
  else
    paginated_loop get_things chunk_size limit fuel limit last w.

(** The items a run yields, in order. *)
Definition yielded (events : list event) : list U :=
  omap (λ e, match e with Yield item => Some item | Fetch _ _ _ => None end) events.

(** The sizes the calls of a run ask for, in order. *)
Definition requested (events : list event) : list Z :=
  omap (λ e, match e with Fetch size _ _ => Some size | Yield _ => None end) events.

(** The pagination routine in the words of its contract: call the fetch
    function with the sort key of the last item seen as the cursor, ask
    for [chunk_size] items, or for what remains of the limit when that is
    less, and stop when a call returns fewer items than asked for or the
    limit is reached.  [asked] is the number of items asked for so far. *)
Fixpoint paginate_spec (fetch_chunk : Z → option T → W → list (U * T) * W)
    (chunk_size limit : Z) (fuel : nat) (asked : Z) (cursor : option T) (w : W)
  : list event * bool :=
  match fuel with
  | O => ([], false)
  | S fuel' =>
      let size :=
        if bool_decide (limit = 0%Z) then chunk_size
        else Z.min chunk_size (limit - asked) in
      let '(chunk, w) := fetch_chunk size cursor w in
      let events := Fetch size cursor chunk :: yield_from chunk in
      let exhausted := bool_decide (Z.of_nat (length chunk) < size)%Z in
      let limit_reached := bool_decide (limit ≠ 0%Z ∧ (asked + size)%Z = limit) in
      if exhausted || limit_reached then (events, true)
      else
        let '(events', returned) :=
          paginate_spec fetch_chunk chunk_size limit fuel' (asked + size)%Z
            (snd <$> list.last chunk) w in
        (events ++ events', returned)
  end.

End Pagination.

(** *** [make_pool_map] and its [imap_unordered]

    The generator [imap_unordered] runs on the consumer's thread, the
    tasks on the executor's worker threads.  The model is a transition
    system over the generator's variables and the executor's state.  A
    future is named by its submission number.

    Of the library the model keeps this: a generator runs only between a
    [next()] of its consumer and its next [yield]; a future submitted is
    run by a worker thread and finishes at some point, on its own;
    [wait(pending, return_when=FIRST_COMPLETED)] returns once a pending
    future has finished, with a non-empty set of finished pending futures
    as [done] and the rest as [pending]; [result()] returns what the call
    [fn(arg)] returned, or raises what it raised.  [iterable] is a finite
    sequence. *)

Section make_pool_map.
Context {T U : Type}.

(** Where the generator stands. *)
Inductive location : Type :=
| Created      (** not started: no statement has run yet *)
| Outer        (** at the test of [while pending or not iterable_ended] *)
| Inner        (** at the test of [while len(pending) < workers and ...] *)
| Waiting      (** in [concurrent.futures.wait(pending, FIRST_COMPLETED)] *)
| Popping      (** at the test of [while done] *)
| Yielded      (** suspended at [yield], a result handed to the consumer *)
| Finished     (** returned *)
| Raised (e : exn).  (** left by the exception [e] of a call of [result()] *)

Record state : Type := State {
  (** what [next(iterable)] has not returned yet *)
  iterable : list T;
  iterable_ended : bool;
  pending : gset nat;
  done : gset nat;
  at_ : location;
  (** the executor: the arguments of the futures, in submission order *)
  submitted : list T;
  (** the executor: the futures whose call has finished *)
  completed : gset nat;
  (** history: the futures popped from [done], in order; the result of
      each was yielded, unless the call of [result()] raised *)
  popped : list nat;
}.

(** Who moves. *)
Inductive label : Type :=
| Next                        (** the consumer calls [next()] on the generator *)
| Run                         (** the generator runs up to its next test *)
| WaitReturns (D : gset nat)  (** [wait] returns [D] as its [done] set *)
| Pops (f : nat)              (** [done.pop()] picks [f], for [yield f.result()] *)
| Completes (f : nat).        (** a worker thread finishes the call of [f] *)

Definition initial (inputs : list T) : state :=
  {| iterable := inputs; iterable_ended := false; pending := ∅; done := ∅;
     at_ := Created; submitted := []; completed := ∅; popped := [] |}.

Definition goto (l : location) (s : state) : state :=
  {| iterable := iterable s; iterable_ended := iterable_ended s;
     pending := pending s; done := done s; at_ := l;
     submitted := submitted s; completed := completed s;
     popped := popped s |}.

(** [except StopIteration: iterable_ended = True] *)
Definition end_iterable (s : state) : state :=
  {| iterable := iterable s; iterable_ended := true;
     pending := pending s; done := done s; at_ := at_ s;
     submitted := submitted s; completed := completed s;
     popped := popped s |}.

(** [arg = next(iterable)] followed by [pending.add(executor.submit(fn, arg))] *)
Definition submit (arg : T) (rest : list T) (s : state) : state :=
  {| iterable := rest; iterable_ended := iterable_ended s;
     pending := {[ length (submitted s) ]} ∪ pending s; done := done s;
     at_ := at_ s;
     submitted := submitted s ++ [arg]; completed := completed s;
     popped := popped s |}.

(** [done, pending = wait(pending, ...)] returning [D] as [done] *)
Definition wait_returns (D : gset nat) (s : state) : state :=
  {| iterable := iterable s; iterable_ended := iterable_ended s;
     pending := pending s ∖ D; done := D; at_ := Popping;
     submitted := submitted s; completed := completed s;
     popped := popped s |}.

(** [yield done.pop().result()] with [f] the future popped: the
    generator is then at [loc], suspended at the [yield] or left by the
    exception of [result()] *)
Definition pop (f : nat) (loc : location) (s : state) : state :=
  {| iterable := iterable s; iterable_ended := iterable_ended s;
     pending := pending s; done := done s ∖ {[ f ]}; at_ := loc;
     submitted := submitted s; completed := completed s;
     popped := popped s ++ [f] |}.

Definition complete (f : nat) (s : state) : state :=
  {| iterable := iterable s; iterable_ended := iterable_ended s;
     pending := pending s; done := done s; at_ := at_ s;
     submitted := submitted s; completed := {[ f ]} ∪ completed s;
     popped := popped s |}.

(** One step of [imap_unordered] and its executor; [None] when the label
    is not enabled.  [workers] is the argument of [make_pool_map], with
    which the executor is built: [ThreadPoolExecutor(workers)], which
    wants it positive. *)
Definition imap_unordered_step (workers : Z) (fn : T → result U)
    (l : label) (s : state) : option state :=
  match l, at_ s with
  | Next, Created => Some (goto Outer s)
  | Next, Yielded => Some (goto Popping s)
  | Run, Outer =>
      if bool_decide (pending s ≠ ∅) || negb (iterable_ended s)
      then Some (goto Inner s)
      else Some (goto Finished s)
  | Run, Inner =>
      if bool_decide (Z.of_nat (size (pending s)) < workers)%Z
         && negb (iterable_ended s)
      then match iterable s with
           | [] => Some (end_iterable s)
           | arg :: rest => Some (submit arg rest s)
           end
      else if bool_decide (pending s = ∅) then Some (goto Finished s)
      else Some (goto Waiting s)
  | WaitReturns D, Waiting =>
      if bool_decide (D ≠ ∅ ∧ D ⊆ pending s ∩ completed s)
      then Some (wait_returns D s)
      else None
  | Run, Popping =>
      if bool_decide (done s = ∅) then Some (goto Outer s) else None
  | Pops f, Popping =>
      if bool_decide (f ∈ done s) then
        match fn <$> submitted s !! f with
        | Some (Return _) => Some (pop f Yielded s)
        | Some (Raise e) => Some (pop f (Raised e) s)
        | None => None
        end
      else None
  | Completes f, _ =>
      if bool_decide (f < length (submitted s) ∧ f ∉ completed s)
      then Some (complete f s)
      else None
  | _, _ => None
  end.

(** Running a sequence of labels. *)
Fixpoint exec (workers : Z) (fn : T → result U) (ls : list label) (s : state)
  : option state :=
  match ls with
  | [] => Some s
  | l :: ls' =>
      match imap_unordered_step workers fn l s with
      | Some s' => exec workers fn ls' s'
      | None => None
      end
  end.

(** The state [s] is reached from the start on [inputs]. *)
Definition reachable (workers : Z) (fn : T → result U) (inputs : list T)
    (s : state) : Prop :=
  ∃ ls, exec workers fn ls (initial inputs) = Some s.

(** The value [f.result()] returns, if it does: that of [fn] applied to
    the argument submitted. *)
Definition result_of (fn : T → result U) (s : state) (f : nat) : option U :=
  arg ← submitted s !! f ;
  match fn arg with Return u => Some u | Raise _ => None end.

(** The results yielded so far, in order. *)
Definition yielded_results (fn : T → result U) (s : state) : list U :=
  omap (result_of fn s) (popped s).

(** The futures whose call has not finished: the tasks in flight. *)
Definition in_flight (s : state) : gset nat :=
  set_seq 0 (length (submitted s)) ∖ completed s.

(** A label of the generator that submits a task in state [s]. *)
Definition submits (workers : Z) (fn : T → result U) (l : label) (s : state) : Prop :=
  ∃ s', imap_unordered_step workers fn l s = Some s'
        ∧ length (submitted s') = S (length (submitted s)).

(** The generator is not running: it is suspended until the consumer
    calls [next()], or it is over. *)
Definition suspended (s : state) : Prop :=
  at_ s = Created ∨ at_ s = Yielded ∨ at_ s = Finished ∨ ∃ e, at_ s = Raised e.

(** A run in which the consumer does not call [next()]. *)
Definition consumer_idle (ls : list label) : Prop :=
  Next ∉ ls.

(** What holds in every state reached from the start on [inputs]. *)
Record pool_inv (workers : Z) (fn : T → result U) (inputs : list T)
    (s : state) : Prop := {
  (** the source is consumed in order, each element submitted as it is taken *)
  inv_inputs : inputs = submitted s ++ iterable s;
  inv_ended : iterable_ended s = true → iterable s = [];
  (** every future is pending, done, or was popped, and only one of these *)
  inv_futures :
    pending s ∪ done s ∪ list_to_set (popped s)
    = set_seq 0 (length (submitted s));
  inv_pending_done : pending s ## done s;
  inv_yielded : NoDup (popped s);
  inv_yielded_out : ∀ f, f ∈ popped s → f ∉ pending s ∪ done s;
  (** what [wait] reported, and what was popped, has finished *)
  inv_done_completed : done s ∪ list_to_set (popped s) ⊆ completed s;
  inv_completed : completed s ⊆ set_seq 0 (length (submitted s));
  inv_bound : (Z.of_nat (size (pending s ∪ done s)) ≤ workers)%Z;
  inv_location :
    match at_ s with
    | Created => pending s = ∅ ∧ done s = ∅
    | Outer | Inner => done s = ∅
    | Waiting => done s = ∅ ∧ pending s ≠ ∅
    | Popping | Yielded => True
    | Finished => done s = ∅ ∧ pending s = ∅ ∧ iterable_ended s = true
    | Raised e => ∃ f arg, f ∈ popped s ∧ submitted s !! f = Some arg ∧ fn arg = Raise e
    end;
  (** unless the generator was left by an exception, the results of the
      futures popped were values *)
  inv_values :
    (∀ e, at_ s ≠ Raised e) →
    ∀ f, f ∈ popped s → ∃ arg u, submitted s !! f = Some arg ∧ fn arg = Return u;
}.

(** The number of steps a state has left at most: every step lowers it. *)
Definition location_rank (l : location) : nat :=
  match l with
  | Finished | Raised _ => 0
  | Waiting => 1
  | Inner => 2
  | Outer => 3
  | Popping => 4
  | Yielded => 5
  | Created => 6
  end.

Definition steps_left (s : state) : nat :=
  8 * length (iterable s)
  + (if iterable_ended s then 0 else 1)
  + 6 * size (pending s)
  + 2 * size (done s)
  + (length (submitted s) - size (completed s))
  + location_rank (at_ s).

End make_pool_map.

(** *** A [get_things] that pages through a fixed sequence *)

Section get_things_of.
Context {T U W : Type} `{EqDecision T}.

(** The things that come after the one with the sort key [last]. *)
Fixpoint things_after (last : T) (things : list (U * T)) : list (U * T) :=
  match things with
  | [] => []
  | thing :: rest =>
      if decide (thing.2 = last) then rest else things_after last rest
  end.

(** A [get_things] over a sequence of things that does not change, like
    the [count_to_ten] of the docstring: the first [size] things after
    the one with the sort key [last], all of them when [size] is 0. *)
Definition get_things_of (things : list (U * T)) (size : Z) (last : option T) (w : W)
  : list (U * T) * W :=
  let rest := from_option (λ k, things_after k things) things last in
  (if bool_decide (size = 0%Z) then rest else take (Z.to_nat size) rest, w).

End get_things_of.

(** *** [zero_or_one] and [exactly_one] *)

Section zero_or_one.
Context {T U : Type}.

(** [zero_or_one]; the iterable is the list of what it yields, [default]
    is [None] for the sentinel [MISSING].  What is returned is an element
    of the iterable ([inl]) or the default ([inr]). *)
Definition zero_or_one (it : list U) (make_exc : unit → exn) (default : option T)
  : result (U + T) :=
  match it with
  | [] =>
      match default with
      | None => Raise (make_exc ())
      | Some d => Return (inr d)
      end
  | [thing] => Return (inl thing)
  | _ => Raise AssertionError
  end.

Definition exactly_one (it : list U) : result U :=
  match it with
  | [thing] => Return thing
  | _ => Raise AssertionError
  end.

End zero_or_one.

(** *** [chunks]

    The chunks that [chunks(n, iterable)] yields are lazy: each one is
    [itertools.chain([first], chunk)] with [chunk = islice(it, n)] over
    the iterator [it] that the generator and all its chunks share.  The
    model passes what is left in [it] explicitly. *)

Section chunks.
Context {T : Type}.

(** [sys.maxsize], the largest [Py_ssize_t] of the platform. *)
Variable maxsize : Z.

(** A chunk handed out, [chain([first], chunk)]: [first] until it is
    taken, and the number of items that [chunk], the [islice] over the
    shared iterator, may still take from it ([first] was its first). *)
Record chain : Type := Chain {
  chain_first : option T;
  islice_left : nat;
}.

(** [itertools.islice(it, n)] checks its stop argument when it is built,
    in the first [next()] on the generator: it must be an integer from
    [0] to [sys.maxsize].  These are the messages of CPython, which
    converts the stop to a [Py_ssize_t] first (the first message, also
    for [-1], the value the conversion fails with) and then refuses a
    negative one (the second). *)
Definition islice_stop_error (n : Z) : exn :=
  if bool_decide (n = -1 ∨ maxsize < n ∨ n < - maxsize - 1)%Z
  then ValueError "Stop argument for islice() must be None or an integer: 0 <= x <= sys.maxsize."
  else ValueError "Indices for islice() must be None or an integer: 0 <= x <= sys.maxsize.".

(** One [next()] on the generator [chunks(n, iterable)], with [it] what
    the shared iterator still holds: the chunk yielded ([None] when the
    generator returns) and what the iterator holds then.  An [islice]
    with stop [0] ends without asking its iterator for anything. *)
Definition chunks_next (n : Z) (it : list T) : result (option chain * list T) :=
  if bool_decide (n < 0 ∨ maxsize < n)%Z then Raise (islice_stop_error n)
  else
    match Z.to_nat n, it with
    | S k, first :: it' => Return (Some (Chain (Some first) k), it')
    | _, _ => Return (None, it)
    end.

(** One [next()] on a chunk handed out: the item, if any, the chunk
    and the shared iterator afterwards.  An [islice] that has ended stays
    ended. *)
Definition chain_next (c : chain) (it : list T) : option T * chain * list T :=
  match chain_first c with
  | Some first => (Some first, Chain None (islice_left c), it)
  | None =>
      match islice_left c, it with
      | S k, x :: it' => (Some x, Chain None k, it')
      | _, _ => (None, Chain None 0, it)
      end
  end.

(** [list(c)] for a chunk [c]: [next()] until it ends, at most [fuel]
    times.  The items, whether the chunk has ended, and the shared
    iterator afterwards. *)
Fixpoint list_chain (fuel : nat) (c : chain) (it : list T) : list T * bool * list T :=
  match fuel with
  | O => ([], false, it)
  | S fuel' =>
      match chain_next c it with
      | (Some x, c', it') =>
          let '(xs, ended, it'') := list_chain fuel' c' it' in (x :: xs, ended, it'')
      | (None, _, it') => ([], true, it')
      end
  end.

(** [[list(c) for c in chunks(n, iterable)]]: every chunk is read to its
    end before the next one is asked for.  At most [fuel] chunks are
    asked for, and a chunk is asked for one item more than it can hold;
    the flag tells whether the generator, and every chunk, has ended. *)
Fixpoint chunks_read_in_turn (n : Z) (fuel : nat) (it : list T)
  : result (list (list T) * bool) :=
  match fuel with
  | O => Return ([], false)
  | S fuel' =>
      r ← chunks_next n it ;
      match r with
      | (None, _) => Return ([], true)
      | (Some c, it') =>
          let '(xs, ended, it'') := list_chain (S (S (Z.to_nat n))) c it' in
          '(xss, returned) ← chunks_read_in_turn n fuel' it'' ;
          Return (xs :: xss, ended && returned)
      end
  end.

(** [list(chunks(n, iterable))]: all the chunks are asked for, none is
    read.  The chunks, whether the generator has returned, and the shared
    iterator afterwards. *)
Fixpoint list_chunks (n : Z) (fuel : nat) (it : list T)
  : result (list chain * bool * list T) :=
  match fuel with
  | O => Return ([], false, it)
  | S fuel' =>
      r ← chunks_next n it ;
      match r with
      | (None, it') => Return ([], true, it')
      | (Some c, it') =>
          '(cs, returned, it'') ← list_chunks n fuel' it' ;
          Return (c :: cs, returned, it'')
      end
  end.

(** [[list(c) for c in cs]] for chunks [cs] handed out before. *)
Fixpoint list_chains (fuel : nat) (cs : list chain) (it : list T)
  : list (list T) * bool * list T :=
  match cs with
  | [] => ([], true, it)
  | c :: cs' =>
      let '(xs, ended, it') := list_chain fuel c it in
      let '(xss, ended', it'') := list_chains fuel cs' it' in
      (xs :: xss, ended && ended', it'')
  end.

(** [[list(c) for c in list(chunks(n, iterable))]]: the chunks are read
    after the generator has returned. *)
Definition chunks_read_afterwards (n : Z) (fuel : nat) (it : list T)
  : result (list (list T) * bool) :=
  '(cs, returned, it') ← list_chunks n fuel it ;
  let '(xss, ended, _) := list_chains (S (S (Z.to_nat n))) cs it' in
  Return (xss, returned && ended).

End chunks.

(** *** [count_consumed] *)

Section count_consumed.
Context {T : Type}.

(** The generator [wrapper()] and the variable [consumed] it shares with
    [get_count]: what [it] still holds, the count, and whether the
    generator is suspended at its [yield]. *)
Record counted : Type := Counted {
  counted_it : list T;
  consumed : nat;
  at_yield : bool;
}.

(** [count_consumed(it)]: the generator has not started, the count is zero. *)
Definition count_consumed (it : list T) : counted :=
  Counted it 0 false.

(** One [next()] on [wrapper()]: resumed after its [yield], the generator
    first runs [consumed += 1]; then the loop takes the next element of
    [it] and yields it, or ends ([None], for [StopIteration]). *)
Definition wrapper_next (s : counted) : option T * counted :=
  let consumed' := if at_yield s then S (consumed s) else consumed s in
  match counted_it s with
  | [] => (None, Counted [] consumed' false)
  | e :: it' => (Some e, Counted it' consumed' true)
  end.

Definition get_count (s : counted) : nat := consumed s.

(** [k] calls of [next()], the consumer going on after [StopIteration]:
    what they returned, in order, and the state afterwards. *)
Fixpoint wrapper_nexts (k : nat) (s : counted) : list (option T) * counted :=
  match k with
  | O => ([], s)
  | S k' =>
      let '(x, s') := wrapper_next s in
      let '(xs, s'') := wrapper_nexts k' s' in
      (x :: xs, s'')
  end.

End count_consumed.

(** *** [PrefixLogger] *)

(** [s.split(sep)] for a separator of one character. *)
Fixpoint str_split (sep : ascii) (s : string) : list string :=
  match s with
  | EmptyString => [EmptyString]
  | String c s' =>
      if Ascii.eqb c sep then EmptyString :: str_split sep s'
      else match str_split sep s' with
           | [] => [String c EmptyString]
           | w :: ws => String c w :: ws
           end
  end.

(** [sep.join(parts)] *)
Fixpoint str_join (sep : string) (parts : list string) : string :=
  match parts with
  | [] => EmptyString
  | [w] => w
  | w :: ws => w +:+ sep +:+ str_join sep ws
  end.

Module PrefixLogger.

Definition _escape (s : string) : string :=
  str_join "%%" (str_split "%" s).

(** [process], the message it returns ([kwargs] is passed through). *)
Definition process (prefixes : list string) (msg : string) : string :=
  str_join ": " (map _escape prefixes ++ [msg]).

(** The string with every percent sign written twice. *)
Fixpoint double_percent (s : string) : string :=
  match s with
  | EmptyString => EmptyString
  | String c s' =>
      if Ascii.eqb c "%" then String "%" (String "%" (double_percent s'))
      else String c (double_percent s')
  end.

End PrefixLogger.

End _utils.

(** ** reader/core/types.py *)

Module types.

(** "Data type representing a feed." *)
Record Feed : Type := {
  feed_url : string;
  feed_updated_ : option datetime;
  feed_title : option string;
  feed_link : option string;
  feed_author : option string;
  feed_user_title : option string;
}.

(** "Data type representing a piece of content." *)
Record Content : Type := {
  value : string;
  content_type : option string;
  language : option string;
}.

(** "Data type representing an external file." *)
Record Enclosure : Type := {
  href : string;
  enclosure_type : option string;
  length : option Z;
}.

(** "Data type representing an entry": [updated] is never [None]. *)
Record Entry : Type := {
  entry_id : string;
  entry_updated : datetime;
  entry_title : option string;
  entry_link : option string;
  entry_author : option string;
  entry_published : option datetime;
  entry_summary : option string;
  entry_content : list Content;
  entry_enclosures : list Enclosure;
  entry_read : bool;
  entry_important : bool;
  entry_feed : option Feed;
}.


(** "Update-relevant information about an exiting feed, from Storage." *)
Record FeedForUpdate : Type := {
  url : string;
  ffu_updated : option datetime;
  http_etag : option string;
  http_last_modified : option string;
  stale : bool;
  last_updated : option datetime;
}.


(** "Data to be passed to Storage when updating a feed."
    [first_updated_epoch]: "The time at the start of updating this batch
    of feeds [...]; None if the entry already exists." *)
Record EntryUpdateIntent : Type := {
  intent_url : string;
  entry : Entry;
  intent_last_updated : datetime;
  first_updated_epoch : option datetime;
  feed_order : nat;
}.

Record UpdatedEntry : Type := {
  updated_entry : Entry;
  new : bool;
}.

Record UpdateResult : Type := {
  entries : list UpdatedEntry;
}.

(** *** [HighlightedString]

    In this class a [str] is the list of its characters, which is what
    its slices are taken of. *)

Module HighlightedString.

Abbreviation str := (list ascii).

(** A [slice] object whose [start], [stop] and [step] are [int]s or [None]. *)
Record slice : Type := Slice {
  start : option Z;
  stop : option Z;
  step : option Z;
}.

(** [repr] of an [int] or [None], and of a [slice]. *)
Definition repr_index (i : option Z) : string :=
  match i with
  | None => "None"
  | Some z => pretty z
  end.

Definition repr_slice (h : slice) : string :=
  "slice(" +:+ repr_index (start h) +:+ ", " +:+ repr_index (stop h)
  +:+ ", " +:+ repr_index (step h) +:+ ")".

(** The frozen dataclass. *)
Record HighlightedString : Type := {
  value : str;
  highlights : list slice;
}.

(** The [reason] the first loop of [__post_init__] finds for a highlight;
    [''] when it finds none. *)
Definition reason (value_ : str) (highlight : slice) : string :=
  match start highlight, stop highlight with
  | Some start_, Some stop_ =>
      if bool_decide (is_Some (step highlight)) then "step must be None"
      else if bool_decide (start_ < 0 ∨ stop_ < 0)%Z
      then "start and stop must be equal to or greater than 0"
      else if bool_decide (start_ > Z.of_nat (Datatypes.length value_)
                           ∨ stop_ > Z.of_nat (Datatypes.length value_))%Z
      then "start and stop must be less than or equal to the string length"
      else if bool_decide (start_ > stop_)%Z
      then "start must be not be greater than stop"
      else ""
  | _, _ => "start and stop must not be None"
  end.

(** The body of the first loop. *)
Definition check_highlight (value_ : str) (highlight : slice) : result unit :=
  if str_truthy (reason value_ highlight)
  then Raise (ValueError ("invalid highlight: " +:+ reason value_ highlight
                          +:+ ": " +:+ repr_slice highlight))
  else Return tt.

(** The key [(s.start, s.stop)] and the order of such tuples.  The sort
    is reached with slices that passed the first loop, whose [start] and
    [stop] are [int]s. *)
Definition sort_key (s : slice) : Z * Z :=
  (default 0%Z (start s), default 0%Z (stop s)).

Definition key_le (k1 k2 : Z * Z) : bool :=
  bool_decide (k1.1 < k2.1 ∨ (k1.1 = k2.1 ∧ k1.2 ≤ k2.2))%Z.

(** [sorted(highlights, key=...)], a stable sort: a slice goes before
    those after it in the list whose key is not less than its own. *)
Fixpoint insert_sorted (s : slice) (l : list slice) : list slice :=
  match l with
  | [] => [s]
  | s' :: l' =>
      if key_le (sort_key s) (sort_key s') then s :: l
      else s' :: insert_sorted s l'
  end.

Fixpoint sorted (highlights_ : list slice) : list slice :=
  match highlights_ with
  | [] => []
  | s :: l => insert_sorted s (sorted l)
  end.

(** The second loop.  A [slice] is truthy, so [prev_highlight] is set at
    the first highlight, and stays what it is: no statement of the loop
    assigns it again. *)
Fixpoint check_overlap (prev_highlight : option slice) (highlights_ : list slice)
  : result unit :=
  match highlights_ with
  | [] => Return tt
  | highlight :: rest =>
      match prev_highlight with
      | None => check_overlap (Some highlight) rest
      | Some prev =>
          if bool_decide (default 0 (stop prev) > default 0 (start highlight))%Z
          then Raise (ValueError ("highlights must not overlap: " +:+ repr_slice prev
                                  +:+ ", " +:+ repr_slice highlight))
          else check_overlap prev_highlight rest
      end
  end.

(** [__post_init__], as the object it leaves. *)
Definition __post_init__ (self : HighlightedString) : result HighlightedString :=
  _ ← mapM (check_highlight (value self)) (highlights self) ;
  let highlights_ := sorted (highlights self) in
  _ ← check_overlap None highlights_ ;
  Return {| value := value self; highlights := highlights_ |}.

(** [HighlightedString(value, highlights)] *)
Definition new (value_ : str) (highlights_ : list slice) : result HighlightedString :=
  __post_init__ {| value := value_; highlights := highlights_ |}.

(** [__str__] *)
Definition __str__ (self : HighlightedString) : str := value self.

(** An index of a slice of a sequence of length [len], as Python reads
    it: counted from the end when negative, and clamped. *)
Definition slice_index (len : nat) (i : Z) : nat :=
  Z.to_nat (if bool_decide (i < 0)%Z then Z.max 0 (i + Z.of_nat len) else Z.min i (Z.of_nat len)).

(** [s[a:b]] *)
Definition getslice (s : str) (a b : option Z) : str :=
  let lo := from_option (slice_index (Datatypes.length s)) 0 a in
  let hi := from_option (slice_index (Datatypes.length s)) (Datatypes.length s) b in
  take (hi - lo) (drop lo s).

(** The loop of [split], from [start_] on; [value[highlight]] is
    [value[highlight.start:highlight.stop]], the step of a highlight
    being [None]. *)
Fixpoint split_from (value_ : str) (start_ : option Z) (highlights_ : list slice)
  : list str :=
  match highlights_ with
  | [] => [getslice value_ start_ None]
  | highlight :: rest =>
      getslice value_ start_ (start highlight)
      :: getslice value_ (start highlight) (stop highlight)
      :: split_from value_ (stop highlight) rest
  end.

Definition split (self : HighlightedString) : list str :=
  split_from (value self) (Some 0%Z) (highlights self).

(** What [inner()] yields for one part. *)
Definition inner (before after : str) (func : option (str → str))
    (index : nat) (part : str) : list str :=
  let part := from_option (λ f, f part) part func in
  if bool_decide (index `mod` 2 = 1) then [before; part; after] else [part].

(** [''.join(inner())] for the parts that [split] yields from [start_] on. *)
Definition apply_from (value_ : str) (start_ : option Z) (highlights_ : list slice)
    (before after : str) (func : option (str → str)) : str :=
  concat (concat (imap (inner before after func) (split_from value_ start_ highlights_))).

Definition apply (self : HighlightedString) (before after : str)
    (func : option (str → str)) : str :=
  apply_from (value self) (Some 0%Z) (highlights self) before after func.

(** The regular expression library, as [extract] uses it. *)
Class Re : Type := {
  (** [re.split(pattern, text)] for the pattern
      [f"({'|'.join(re.escape(s) for s in (before, after))})"] *)
  re_split : str → str → str → list str;
  (** the pattern being one group, the parts of the text between the
      matches and the matches themselves are all in the list, in order *)
  re_split_join : ∀ before after text, concat (re_split before after text) = text;
}.

(** The loop of [extract] over the parts still to come. *)
Fixpoint extract_loop (before after : str) (todo : list str)
    (parts : list str) (slices : list slice) (index : Z) (start_ : option Z)
  : result (list str * list slice) :=
  match todo with
  | [] =>
      match start_ with
      | Some _ => Raise (ValueError "highlight is never closed")
      | None => Return (parts, slices)
      end
  | part :: todo' =>
      if bool_decide (part = before) then
        match start_ with
        | Some _ => Raise (ValueError "highlight start marker in highlight")
        | None => extract_loop before after todo' parts slices index (Some index)
        end
      else if bool_decide (part = after) then
        match start_ with
        | None => Raise (ValueError "unmatched highlight end marker")
        | Some s =>
            extract_loop before after todo' parts
              (slices ++ [Slice (Some s) (Some index) None]) index None
        end
      else
        extract_loop before after todo' (parts ++ [part]) slices
          (index + Z.of_nat (Datatypes.length part))%Z start_
  end.

Definition extract `{Re} (text before after : str) : result HighlightedString :=
  '(parts, slices) ← extract_loop before after (re_split before after text)
                       [] [] 0%Z None ;
  new (concat parts) slices.

(** The vocabulary of the statements about highlights. *)

(** A highlight that the first loop of [__post_init__] lets through. *)
Definition valid_highlight (value_ : str) (highlight : slice) : Prop :=
  ∃ start_ stop_ : Z,
    highlight = Slice (Some start_) (Some stop_) None
    ∧ (0 ≤ start_ ≤ stop_)%Z ∧ (stop_ ≤ Z.of_nat (Datatypes.length value_))%Z.

(** The first highlight ends where the second starts, or before. *)
Definition no_overlap (s1 s2 : slice) : Prop :=
  (default 0 (stop s1) ≤ default 0 (start s2))%Z.

(** Highlights that follow one another from the position [pos] on: each
    one starts where the one before it has stopped, or after. *)
Fixpoint chained (pos : Z) (highlights_ : list slice) : Prop :=
  match highlights_ with
  | [] => True
  | highlight :: rest =>
      ∃ start_ stop_ : Z,
        highlight = Slice (Some start_) (Some stop_) None
        ∧ (pos ≤ start_ ≤ stop_)%Z ∧ chained stop_ rest
  end.

(** The order of the keys [(s.start, s.stop)]. *)
Definition sort_key_le (s1 s2 : slice) : Prop :=
  key_le (sort_key s1) (sort_key s2) = true.

End HighlightedString.

(** *** [feed_argument], [entry_argument] and [EntryFilterOptions]

    These functions look at what they are given at run time.  An argument
    is a value of [pyobj]: [None], a [bool], an [int], a [str], a [tuple],
    or an object with attributes (a [Feed], an [Entry], ...). *)

#[warnings="-register-all"]
Inductive pyobj : Type :=
| ObjNone
| ObjBool (b : bool)
| ObjInt (z : Z)
| ObjStr (s : string)
| ObjTuple (items : list pyobj)
| Obj (attrs : list (string * pyobj)).

(** [getattr(o, name)], when [o] has the attribute; the builtin values
    have none of the attributes the protocols name. *)
Definition getattr (o : pyobj) (name : string) : option pyobj :=
  match o with
  | Obj attrs => snd <$> find (λ kv, bool_decide (kv.1 = name)) attrs
  | _ => None
  end.

(** [isinstance(feed, FeedLike)] holds of what has the member of the
    protocol, [url]. *)
Definition feed_argument (feed : pyobj) : result pyobj :=
  match getattr feed "url" with
  | Some url => Return url
  | None =>
      match feed with
      | ObjStr _ => Return feed
      | _ => Raise (ValueError "feed")
      end
  end.

(** [isinstance(entry, EntryLike)] holds of what has the members of the
    protocol, [id] and [feed].  The tuple returned is given as the pair of
    its items. *)
Definition entry_argument (entry : pyobj) : result (pyobj * pyobj) :=
  match getattr entry "id", getattr entry "feed" with
  | Some id_, Some feed_ =>
      feed_url ← feed_argument feed_ ;
      Return (feed_url, id_)
  | _, _ =>
      match entry with
      | ObjTuple [ObjStr feed_url; ObjStr entry_id] =>
          Return (ObjStr feed_url, ObjStr entry_id)
      | _ => Raise (ValueError "entry")
      end
  end.

(** [x == y] for the values a flag is compared with: [0] and [1] are
    equal to [False] and [True]. *)
Definition as_int (o : pyobj) : option Z :=
  match o with
  | ObjBool b => Some (if b then 1 else 0)%Z
  | ObjInt z => Some z
  | _ => None
  end.

(** [flag in (None, False, True)] *)
Definition in_None_False_True (flag : pyobj) : bool :=
  match flag with
  | ObjNone => true
  | _ => bool_decide (as_int flag = Some 0%Z ∨ as_int flag = Some 1%Z)
  end.

Module EntryFilterOptions.

Record EntryFilterOptions : Type := {
  feed_url : pyobj;
  entry_id : pyobj;
  read : pyobj;
  important : pyobj;
  has_enclosures : pyobj;
}.

(** [from_args]; an argument left out is [None]. *)
Definition from_args (feed entry read_ important_ has_enclosures_ : pyobj)
  : result EntryFilterOptions :=
  feed_url_ ← match feed with
              | ObjNone => Return ObjNone
              | _ => feed_argument feed
              end ;
  '(feed_url_, entry_id_) ←
    match entry with
    | ObjNone => Return (feed_url_, ObjNone)
    | _ => entry_argument entry
    end ;
  if negb (in_None_False_True read_)
  then Raise (ValueError "read should be one of (None, False, True)")
  else if negb (in_None_False_True important_)
  then Raise (ValueError "important should be one of (None, False, True)")
  else if negb (in_None_False_True has_enclosures_)
  then Raise (ValueError "has_enclosures should be one of (None, False, True)")
  else Return {| feed_url := feed_url_; entry_id := entry_id_; read := read_;
                 important := important_; has_enclosures := has_enclosures_ |}.

End EntryFilterOptions.

End types.

(** ** tests/conftest.py *)

Module conftest.
Import types.

(** The two forms in which the tests pass a feed, and an entry: the
    object itself, or its url, and the pair of the url of its feed and
    its id.  An attribute that is missing is an [AttributeError]. *)
Definition feed_arg_as_str (feed : pyobj) : result pyobj :=
  from_option Return (Raise AttributeError) (getattr feed "url").

Definition feed_arg_as_feed (feed : pyobj) : result pyobj :=
  Return feed.

Definition entry_arg_as_tuple (entry : pyobj) : result pyobj :=
  feed_ ← from_option Return (Raise AttributeError) (getattr entry "feed") ;
  url_ ← from_option Return (Raise AttributeError) (getattr feed_ "url") ;
  id_ ← from_option Return (Raise AttributeError) (getattr entry "id") ;
  Return (ObjTuple [url_; id_]).

Definition entry_arg_as_entry (entry : pyobj) : result pyobj :=
  Return entry.

End conftest.

(** ** The Reconciler's entry loop, from the spec

    The module that builds the intents is not among the sources; its data
    types are ([types] above). *)

Module updater_model.
Import types.

(** Modelled from the spec: what Storage holds of an entry (section 3),
    as far as the dates of an update are concerned; Storage is not among
    the sources. *)
Record StoredEntry : Type := {
  stored_updated : datetime;
  stored_first_updated_epoch : datetime;
}.


(** Modelled from the spec: the status of an entry that is written,
    "one of {NEW, MODIFIED}" (section 4.2). *)
Inductive EntryUpdateStatus : Type := NEW | MODIFIED.

#[global] Instance EntryUpdateStatus_eq_dec : EqDecision EntryUpdateStatus.
Proof. solve_decision. Defined.








(** Modelled from the spec: what Storage does with an intent.  The epoch
    is "the timestamp of the update batch in which an entry was first
    observed, preserved across subsequent updates": an intent without an
    epoch leaves the stored one. *)
Definition apply_entry_update (stored : gmap string StoredEntry)
    (intent : EntryUpdateIntent) : gmap string StoredEntry :=
  let key := entry_id (entry intent) in
  match first_updated_epoch intent, stored !! key with
  | Some epoch, _ =>
      <[key := {| stored_updated := entry_updated (entry intent);
                  stored_first_updated_epoch := epoch |}]> stored
  | None, Some old =>
      <[key := {| stored_updated := entry_updated (entry intent);
                  stored_first_updated_epoch := stored_first_updated_epoch old |}]> stored
  | None, None => stored
  end.

(** Modelled from the spec: [apply_entry_updates] of section 6. *)
Definition apply_entry_updates (stored : gmap string StoredEntry)
    (intents : list EntryUpdateIntent) : gmap string StoredEntry :=
  foldl apply_entry_update stored intents.

(** Modelled from the spec: what the per-feed worker makes of the outcome
    of [parse] (section 7), the worker not being among the sources.
    [NotModified] is "not an error": it "short-circuits to a successful
    zero-change result without invoking the Normalizer or Reconciler's
    entry loop"; any other exception is the feed's error. *)
Definition update_feed_result {A} (parse_outcome : result A)
    (reconcile : A → UpdateResult) : result UpdateResult :=
  match parse_outcome with
  | Raise (NotModified _) => Return {| entries := [] |}
  | Raise e => Raise e
  | Return parsed => Return (reconcile parsed)
  end.

End updater_model.

(** ** The Hook Dispatcher, from the spec

    The update loop that calls the hooks is not among the sources; its
    test, [tests/test_reader_hooks.py], is. *)

Module hooks_model.
Import updater_model.

(** Modelled from the spec: the "five ordered hook kinds" of section 4.2,
    each list in registration order.  A hook is taken for what it does
    with its arguments: it returns, or it raises.  An entry hook gets the
    feed url, the entry id and the status. *)
Record Hooks : Type := {
  before_feeds_update_hooks : list (unit → result unit);
  before_feed_update_hooks : list (string → result unit);
  after_entry_update_hooks : list (string * string * EntryUpdateStatus → result unit);
  after_feed_update_hooks : list (string → result unit);
  after_feeds_update_hooks : list (unit → result unit);
}.

(** Modelled from the spec: no hook registered. *)
Definition no_hooks : Hooks :=
  {| before_feeds_update_hooks := []; before_feed_update_hooks := [];
     after_entry_update_hooks := []; after_feed_update_hooks := [];
     after_feeds_update_hooks := [] |}.

(** Modelled from the spec: the success value of a feed's update, with
    the numbers of entries written. *)
Record UpdatedFeed : Type := {
  updated_feed_url : string;
  new : nat;
  modified : nat;
}.

(** Modelled from the spec: the result for one feed (section 7), its url
    with the updated feed or the error. *)
Record UpdateResult : Type := {
  url : string;
  value : result UpdatedFeed;
}.

(** Modelled from the spec: a step of the per-feed sequence of section
    4.2: the call of the hook at a place of its list, or the update
    itself (retrieval, parsing, reconciliation and storage of the feed). *)
Inductive Step : Type :=
| BeforeFeed (place : nat) (url_ : string)
| Update (url_ : string)
| AfterEntry (place : nat) (url_ entry_id : string) (status : EntryUpdateStatus)
| AfterFeed (place : nat) (url_ : string).

(** Modelled from the spec: what the hook called in a step does.  The
    update is no hook: its failure is the feed's own error (section 7),
    around which the hooks still fire. *)
Definition step_outcome (hooks : Hooks) (step : Step) : result unit :=
  match step with
  | BeforeFeed place url_ =>
      from_option (λ hook, hook url_) (Return tt)
        (before_feed_update_hooks hooks !! place)
  | Update _ => Return tt
  | AfterEntry place url_ entry_id status =>
      from_option (λ hook, hook (url_, entry_id, status)) (Return tt)
        (after_entry_update_hooks hooks !! place)
  | AfterFeed place url_ =>
      from_option (λ hook, hook url_) (Return tt)
        (after_feed_update_hooks hooks !! place)
  end.

(** Modelled from the spec: "a sequence of registered callables invoked
    in registration order", as the calls of it. *)
Definition calls {A} (hooks : list A) (call : nat → Step) : list Step :=
  call <$> seq 0 (length hooks).

(** Modelled from the spec: the per-feed sequence of section 4.2,
    "before_feed, after_entry for each NEW/MODIFIED entry in feed_order,
    after_feed", around the update; [entries] are the entries the update
    has written, in feed order, with their status. *)
Definition feed_sequence (hooks : Hooks) (url_ : string)
    (entries : list (string * EntryUpdateStatus)) : list Step :=
  calls (before_feed_update_hooks hooks) (λ place, BeforeFeed place url_)
  ++ [Update url_]
  ++ concat ((λ '(entry_id, status),
                calls (after_entry_update_hooks hooks)
                      (λ place, AfterEntry place url_ entry_id status)) <$> entries)
  ++ calls (after_feed_update_hooks hooks) (λ place, AfterFeed place url_).

(** Modelled from the spec: an exception raised from a per-feed hook
    "aborts only that feed's remaining processing".  The steps are taken
    in order, up to the first whose hook raises: the steps taken, and
    that exception, if there is one. *)
Fixpoint run_steps (hooks : Hooks) (steps : list Step) : list Step * option exn :=
  match steps with
  | [] => ([], None)
  | step :: rest =>
      match step_outcome hooks step with
      | Raise e => ([step], Some e)
      | Return _ =>
          let '(taken, raised) := run_steps hooks rest in (step :: taken, raised)
      end
  end.

(** Modelled from the spec: the number of entries with a status. *)
Definition count_status (status : EntryUpdateStatus)
    (entries : list (string * EntryUpdateStatus)) : nat :=
  length (filter (λ e, e.2 = status) entries).

(** Modelled from the spec: the entries an update has written; none when
    it failed. *)
Definition entries_written (outcome : result (list (string * EntryUpdateStatus)))
  : list (string * EntryUpdateStatus) :=
  match outcome with
  | Return entries => entries
  | Raise _ => []
  end.

(** Modelled from the spec: the value of a feed's result when no hook
    raised: the updated feed, or the feed's own error. *)
Definition updated_feed (url_ : string)
    (outcome : result (list (string * EntryUpdateStatus))) : result UpdatedFeed :=
  entries ← outcome ;
  Return {| updated_feed_url := url_;
            new := count_status NEW entries;
            modified := count_status MODIFIED entries |}.

(** Modelled from the spec: the update of one feed with its hooks.  The
    per-feed sequence "runs regardless of whether the feed update
    ultimately errors"; the exception of a hook "is recorded as that
    feed's error (wrapped with the original exception as cause)", the
    [HookError] of section 7.  [update_feed] stands for retrieval,
    parsing, reconciliation and storage of the feed: it returns the
    entries written, with their status, or the feed's own error.  The
    steps taken for the feed, and its result. *)
Definition update_one (hooks : Hooks)
    (update_feed : string → result (list (string * EntryUpdateStatus)))
    (url_ : string) : list Step * UpdateResult :=
  let outcome := update_feed url_ in
  let '(taken, raised) :=
    run_steps hooks (feed_sequence hooks url_ (entries_written outcome)) in
  (taken,
   {| url := url_;
      value := match raised with
               | Some e => Raise (HookError e)
               | None => updated_feed url_ outcome
               end |}).

(** Modelled from the spec: the hooks of the batch, "invoked in
    registration order"; an exception ends the sequence. *)
Definition run_hooks {A} (hooks : list (A → result unit)) (a : A) : result unit :=
  _ ← mapM (λ hook, hook a) hooks ; Return tt.

(** Modelled from the spec: the batch sequence of section 4.2.
    [before_feeds] once before any feed, [after_feeds] once after all of
    them; an exception from either "is fatal to the entire update
    operation and propagates to the caller".  One result per feed
    (section 7), here in the order of the urls; the steps of each feed
    are kept apart, no order being promised across feeds. *)
Definition update_feeds (hooks : Hooks)
    (update_feed : string → result (list (string * EntryUpdateStatus)))
    (urls : list string) : result (list (list Step * UpdateResult)) :=
  _ ← run_hooks (before_feeds_update_hooks hooks) tt ;
  let results := update_one hooks update_feed <$> urls in
  _ ← run_hooks (after_feeds_update_hooks hooks) tt ;
  Return results.

(** The vocabulary of the statements about isolation. *)


(** *** The scenario of [test_update_hook_unexpected_exception]

    The test registers a hook that raises for feed [1] and updates three
    feeds.  It is marked [xfail(raises=RuntimeError, strict=True)], and
    its assertions want a [ParseError] for feed [1] where section 7 of
    the spec has a [HookError]. *)

(** The feeds of the test: [1], [2] and [3], the first with one entry. *)
Definition test_update_feed (url_ : string)
  : result (list (string * EntryUpdateStatus)) :=
  Return (if bool_decide (url_ = "1") then [("1, 1", NEW)] else []).

(** The [hook] of the test, on the feed url it finds in its argument:
    [if not feed_url or feed_url == '1': raise exc]. *)
Definition test_hook (feed_url : option string) : result unit :=
  if negb (opt_str_truthy feed_url) || bool_decide (feed_url = Some "1")
  then Raise (RuntimeError "error") else Return tt.

(** [getattr(reader, hook_name).append(hook)], for each [hook_name] of the
    test's parameters. *)
Definition register_test_hook (hook_name : string) : Hooks :=
  if bool_decide (hook_name = "after_entry_update_hooks") then
    {| before_feeds_update_hooks := []; before_feed_update_hooks := [];
       after_entry_update_hooks := [λ '(feed_url, _, _), test_hook (Some feed_url)];
       after_feed_update_hooks := []; after_feeds_update_hooks := [] |}
  else if bool_decide (hook_name = "before_feed_update_hooks") then
    {| before_feeds_update_hooks := [];
       before_feed_update_hooks := [λ feed_url, test_hook (Some feed_url)];
       after_entry_update_hooks := []; after_feed_update_hooks := [];
       after_feeds_update_hooks := [] |}
  else if bool_decide (hook_name = "after_feed_update_hooks") then
    {| before_feeds_update_hooks := []; before_feed_update_hooks := [];
       after_entry_update_hooks := [];
       after_feed_update_hooks := [λ feed_url, test_hook (Some feed_url)];
       after_feeds_update_hooks := [] |}
  else if bool_decide (hook_name = "before_feeds_update_hooks") then
    {| before_feeds_update_hooks := [λ _, test_hook None];
       before_feed_update_hooks := []; after_entry_update_hooks := [];
       after_feed_update_hooks := []; after_feeds_update_hooks := [] |}
  else if bool_decide (hook_name = "after_feeds_update_hooks") then
    {| before_feeds_update_hooks := []; before_feed_update_hooks := [];
       after_entry_update_hooks := []; after_feed_update_hooks := [];
       after_feeds_update_hooks := [λ _, test_hook None] |}
  else no_hooks.

(** The update of the test: [update_feeds_iter(reader)], with the hook
    registered under [hook_name]. *)
Definition test_body (hook_name : string)
  : result (list (list Step * UpdateResult)) :=
  update_feeds (register_test_hook hook_name) test_update_feed ["1"; "2"; "3"].

End hooks_model.

(** ** Concrete instances of the interfaces, for evaluation *)

Module concrete.

(** [s.strip()] for ASCII blanks. *)
Definition is_blank (c : ascii) : bool :=
  bool_decide (c ∈ [" "; "009"; "010"; "011"; "012"; "013"]%char).

Fixpoint lstrip (s : list ascii) : list ascii :=
  match s with
  | c :: s' => if is_blank c then lstrip s' else s
  | [] => []
  end.

Definition strip (s : list ascii) : list ascii :=
  rev (lstrip (rev (lstrip s))).

Definition digit_of (c : ascii) : option Z :=
  let n := nat_of_ascii c in
  if bool_decide (48 ≤ n ≤ 57) then Some (Z.of_nat (n - 48)) else None.

(** Decimal digits, with single underscores between digits. *)
Fixpoint digits (s : list ascii) (acc : Z) (after_digit : bool) : option Z :=
  match s with
  | [] => if after_digit then Some acc else None
  | c :: s' =>
      match digit_of c with
      | Some d => digits s' (10 * acc + d)%Z true
      | None =>
          if Ascii.eqb c "_" && after_digit
          then match s' with
               | c' :: _ => if bool_decide (is_Some (digit_of c')) then digits s' acc false else None
               | [] => None
               end
          else None
      end
  end.

(** The builtin [int] on a string of ASCII decimal digits. *)
Definition int_of_str (s : string) : result Z :=
  let invalid := Raise (ValueError "invalid literal for int() with base 10") in
  match strip (String.list_ascii_of_string s) with
  | "-"%char :: body => from_option (λ z, Return (- z)%Z) invalid (digits body 0 false)
  | "+"%char :: body => from_option Return invalid (digits body 0 false)
  | body => from_option Return invalid (digits body 0 false)
  end.

(** The builtin [int] on the values of [pyval]. *)
Definition py_int (v : pyval) : result Z :=
  match v with
  | PyNone => Raise TypeError
  | PyBool b => Return (if b then 1 else 0)%Z
  | PyInt z => Return z
  | PyStr s => int_of_str s
  end.

(** A runtime whose time tuples are given by the timestamp they denote. *)
#[export] Instance runtime : PyRuntime :=
  {| timetuple := Z; timegm := λ t, t; int_ := py_int |}.

(** A file system with one readable file, in which every path name
    counts as reserved. *)
#[local] Instance file_system : FileSystem :=
  {| file := string;
     open_rb := λ path,
       if bool_decide (path = "/etc/passwd") then Return "root:x:0:0"
       else Raise (OSError "No such file or directory");
     is_reserved := λ _, true |}.

(** A file system with no reserved names, the feeds below [/data/feeds]. *)
#[local] Instance posix_file_system : FileSystem :=
  {| file := string;
     open_rb := λ path,
       if bool_decide (path = "/data/feeds/a.xml") then Return "<rss/>"
       else Raise (OSError "No such file or directory");
     is_reserved := λ _, false |}.

(** An RSS item with a [pubDate] only. *)
Definition rss_entry : parser.FeedParserDict :=
  {| parser.id := Some "urn:item:1";
     parser.updated_parsed := None;
     parser.published_parsed := Some (Some 1262304000%Z);
     parser.title := Some "One"; parser.link := None; parser.author := None;
     parser.summary := None; parser.content := None;
     parser.enclosures := None |}.

(** An item without any date. *)
Definition undated_entry : parser.FeedParserDict :=
  {| parser.id := Some "urn:item:2";
     parser.updated_parsed := None;
     parser.published_parsed := None;
     parser.title := Some "Two"; parser.link := None; parser.author := None;
     parser.summary := None; parser.content := None;
     parser.enclosures := None |}.



(** A feedparser that reports 304 for every url, in a document that is
    malformed and whose one entry has no date. *)
#[local] Instance feedparser_304 : parser.FeedparserLib :=
  {| parser.feedparser_parse := λ _ _ _,
       {| parser.status := Some 304%Z; parser.bozo := true;
          parser.bozo_exception := None; parser.version := None;
          parser.feed := undated_entry; parser.entries := [undated_entry];
          parser.etag := None; parser.modified := None;
          parser.headers := ∅; parser.result_href := None;
          parser.newurl := None |};
     parser._feedparser_parse_snippet := λ d _, d;
     parser.ACCEPT_HEADER := "application/atom+xml,application/rss+xml" |}.

(** An HTTP library whose server answers 304 to every request. *)
#[local] Instance http_304 : parser.HttpLib :=
  {| parser.urlparse := λ url,
       {| parser.scheme := "http"; parser.netloc := "example.com";
          parser.path := "/feed"; parser.params := ""; parser.query := "";
          parser.fragment := "" |};
     parser.requests_get := λ url _,
       Return {| parser.status_code := 304%Z; parser.response_headers := ∅;
                 parser.response_url := url; parser.response_content := "" |} |}.

(** The [count_to_ten] of the docstring of [join_paginated_iter]: the
    numbers after [last], up to ten, [size] of them at most (all of them
    when [size] is 0), each with itself as sort key. *)
Definition count_to_ten (size : Z) (last : option Z) (w : unit)
  : list (Z * Z) * unit :=
  let start := default 0%Z last in
  let rest := (λ i, (Z.of_nat i + start + 1)%Z) <$> seq 0 (Z.to_nat (10 - start)) in
  ((λ n, (n, n)) <$> (if bool_decide (size = 0%Z) then rest
                      else take (Z.to_nat size) rest), tt).

(** A task for the pool: the length of a url; the call for a url with a
    space in it raises. *)
Definition url_length (url : string) : result nat :=
  if bool_decide (" "%char ∈ String.list_ascii_of_string url)
  then Raise (ValueError "space in url")
  else Return (String.length url).

(** A run of the pool with two workers over three urls, up to the first
    result: the generator is started and submits the first two urls; the
    second one completes first; [wait] returns it and it is yielded. *)
Definition first_result_run : list _utils.label :=
  [_utils.Next; _utils.Run; _utils.Run; _utils.Run; _utils.Run;
   _utils.Completes 1; _utils.WaitReturns {[ 1 ]}; _utils.Pops 1].

(** The rest of the run: the consumer asks again, the third url is
    submitted, the first one completes and is yielded, then the third. *)
Definition rest_of_run : list _utils.label :=
  [_utils.Next; _utils.Run; _utils.Run; _utils.Run; _utils.Run;
   _utils.Completes 0; _utils.WaitReturns {[ 0 ]}; _utils.Pops 0;
   _utils.Next; _utils.Run; _utils.Run; _utils.Run; _utils.Run;
   _utils.Completes 2; _utils.WaitReturns {[ 2 ]}; _utils.Pops 2;
   _utils.Next; _utils.Run; _utils.Run].






Import types.HighlightedString.

(** The characters of a string literal. *)
Definition chars (s : string) : list ascii := String.list_ascii_of_string s.

(** [re.split] for the pattern of two markers, neither of them empty: the
    text is read from the left, and where a marker starts ([before] is
    tried first) the part read so far and the marker are put out. *)
Fixpoint split_markers (fuel : nat) (before after text part : list ascii)
  : list (list ascii) :=
  match fuel, text with
  | S fuel', c :: text' =>
      if bool_decide (before ≠ [] ∧ before `prefix_of` text)
      then part :: before
           :: split_markers fuel' before after (drop (length before) text) []
      else if bool_decide (after ≠ [] ∧ after `prefix_of` text)
      then part :: after
           :: split_markers fuel' before after (drop (length after) text) []
      else split_markers fuel' before after text' (part ++ [c])
  | _, _ => [part ++ text]
  end.

#[export] Instance re : Re.
Proof.
  refine {| re_split before after text :=
              split_markers (length text) before after text [] |}.
  intros before after text.
  change text with ([] ++ text) at 3.
  generalize (@nil ascii) as part. generalize (length text) as fuel.
  intros fuel. revert text. induction fuel as [|fuel IH]; intros text part; simpl.
  { by rewrite app_nil_r. }
  destruct text as [|c text']; simpl; [by rewrite app_nil_r|].
  case_bool_decide as Hbefore; [|case_bool_decide as Hafter]; simpl; rewrite IH; simpl.
  - f_equal. destruct Hbefore as [_ [k ->]]. by rewrite drop_app_length.
  - f_equal. destruct Hafter as [_ [k ->]]. by rewrite drop_app_length.
  - by rewrite <-app_assoc.
Defined.

Definition hl (start_ stop_ : Z) : slice := Slice (Some start_) (Some stop_) None.

(** [sys.maxsize] of a 64-bit CPython. *)
Definition sys_maxsize : Z := 2 ^ 63 - 1.

(** The iterable of the docstring of [chunks]. *)
Definition abcde : list string := ["A"; "B"; "C"; "D"; "E"].

(** The things [count_to_ten] counts through, each with itself as its
    sort key. *)
Definition one_to_ten : list (Z * Z) :=
  (λ n, (n, n)) <$> [1; 2; 3; 4; 5; 6; 7; 8; 9; 10]%Z.

(** A [Feed] and an [Entry] of it, as far as [feed_argument] and
    [entry_argument] look at them. *)
Definition feed_object : types.pyobj :=
  types.Obj [("url", types.ObjStr "http://example.com/feed")].

Definition entry_object : types.pyobj :=
  types.Obj [("id", types.ObjStr "urn:item:1"); ("feed", feed_object)].

(** A feedparser that finds an RSS document with one item in whatever it
    is given. *)
#[local] Instance feedparser_rss : parser.FeedparserLib :=
  {| parser.feedparser_parse := λ _ http_etag http_last_modified,
       {| parser.status := None; parser.bozo := false;
          parser.bozo_exception := None; parser.version := Some "rss20";
          parser.feed := rss_entry; parser.entries := [rss_entry];
          parser.etag := None; parser.modified := None;
          parser.headers := ∅; parser.result_href := None;
          parser.newurl := None |};
     parser._feedparser_parse_snippet := λ d _,
       {| parser.status := parser.status d; parser.bozo := false;
          parser.bozo_exception := None; parser.version := Some "rss20";
          parser.feed := rss_entry; parser.entries := [rss_entry];
          parser.etag := None; parser.modified := None;
          parser.headers := parser.headers d;
          parser.result_href := parser.result_href d;
          parser.newurl := parser.newurl d |};
     parser.ACCEPT_HEADER := "application/atom+xml,application/rss+xml" |}.

(** An HTTP library whose server answers 200 with a new [ETag] and no
    [Last-Modified]. *)
#[local] Instance http_200 : parser.HttpLib :=
  {| parser.urlparse := λ url,
       {| parser.scheme := "http"; parser.netloc := "example.com";
          parser.path := "/feed"; parser.params := ""; parser.query := "";
          parser.fragment := "" |};
     parser.requests_get := λ url _,
       Return {| parser.status_code := 200%Z;
                 parser.response_headers := {[ "ETag" := "v2" ]};
                 parser.response_url := url;
                 parser.response_content := "<rss/>" |} |}.

(** A [urlparse] that finds a [file:] url without a host. *)
#[local] Instance http_file : parser.HttpLib :=
  {| parser.urlparse := λ url,
       {| parser.scheme := "file"; parser.netloc := "";
          parser.path := "/data/feeds/a.xml"; parser.params := "";
          parser.query := ""; parser.fragment := "" |};
     parser.requests_get := λ url _, Raise (OSError "no network") |}.

End concrete.

(* ===================================================================== *)
(** * Part II: the theorems *)
(* ===================================================================== *)

(** ** Results *)

Lemma bind_Return {A B} (a : A) (k : A → result B) : (Return a ≫= k) = k a.
Proof. reflexivity. Qed.

Lemma bind_Raise {A B} (e : exn) (k : A → result B) : (Raise e ≫= k) = Raise e.
Proof. reflexivity. Qed.

Lemma bind_Return_inv {A B} (m : result A) (k : A → result B) (b : B) :
  (m ≫= k) = Return b → ∃ a, m = Return a ∧ k a = Return b.
Proof. destruct m as [a|e]; [eauto | discriminate]. Qed.





(** ** reader/parser.py *)

Module parser_facts.
Import parser.

Section WithRuntime.
Context `{runtime : PyRuntime}.

Lemma lookup_keep_keys (keys : list string) (data : gmap string pyval) (k : string) :
  keep_keys keys data !! k = if decide (k ∈ keys) then data !! k else None.
Proof.
  unfold keep_keys. destruct (data !! k) as [v|] eqn:Hk.
  - case_decide.
    + by apply map_lookup_filter_Some.
    + apply map_lookup_filter_None. right. intros v' ?. by simplify_eq/=.
  - case_decide; apply map_lookup_filter_None; by left.
Qed.


(** What [_get_updated_published] returns when [updated] is missing. *)
Lemma get_updated_published_promotes (thing : FeedParserDict) (t : timetuple) :
  published_parsed thing = Some (Some t) →
  no_date (updated_parsed thing) →
  _get_updated_published thing true = (Some (timegm t), None).
Proof.
  intros Hp [Hu|Hu]; unfold _get_updated_published; by rewrite Hp, Hu.
Qed.

(** Outside the RSS family nothing is promoted. *)
Lemma get_updated_published_not_rss (thing : FeedParserDict) :
  _get_updated_published thing false
  = (updated_parsed thing ≫= _datetime_from_timetuple,
     published_parsed thing ≫= _datetime_from_timetuple).
Proof.
  unfold _get_updated_published. rewrite andb_false_r.
  by destruct (updated_parsed thing), (published_parsed thing).
Qed.

(** [_make_entry] hands over the dates [_get_updated_published] found. *)
Lemma make_entry_dates (entry : FeedParserDict) (is_rss : bool) (x : Entry) :
  _make_entry entry is_rss = Return x →
  (entry_updated x, entry_published x) = _get_updated_published entry is_rss
  ∧ is_Some (entry_updated x).
Proof.
  unfold _make_entry. intros Hx.
  destruct (id entry) as [i|]; [|discriminate].
  destruct (assert_ (str_truthy i)); [|discriminate]. simpl in Hx.
  destruct (_get_updated_published entry is_rss) as [[u|] p]; [|discriminate].
  destruct (mapM make_content _); [|discriminate]. simpl in Hx.
  destruct (mapM make_enclosure _); [|discriminate]. simpl in Hx.
  simplify_eq/=. eauto.
Qed.

(** Without an [updated] date the assertion fails. *)
Lemma make_entry_without_updated (entry : FeedParserDict) (is_rss : bool) (i : string) :
  id entry = Some i → str_truthy i = true →
  (_get_updated_published entry is_rss).1 = None →
  _make_entry entry is_rss = Raise AssertionError.
Proof.
  unfold _make_entry. intros -> -> Hu. simpl.
  by destruct (_get_updated_published entry is_rss) as [[u|] p].
Qed.

(** When the identifier, the dates, the contents and the enclosures are in
    order, the entry is built. *)
Lemma make_entry_returns (entry : FeedParserDict) (is_rss : bool) (i : string)
    (u : datetime) (p : option datetime) (cs : list Content) (es : list Enclosure) :
  id entry = Some i → str_truthy i = true →
  _get_updated_published entry is_rss = (Some u, p) →
  mapM make_content (default [] (content entry)) = Return cs →
  mapM make_enclosure (default [] (enclosures entry)) = Return es →
  _make_entry entry is_rss
  = Return {| entry_id := i; entry_updated := Some u; entry_title := title entry;
              entry_link := link entry; entry_author := author entry;
              entry_published := p; entry_summary := summary entry;
              entry_content := or_None cs; entry_enclosures := or_None es;
              entry_read := false; entry_last := None |}.
Proof. unfold _make_entry. by intros -> -> -> -> ->. Qed.

(** C1 (as amended).  For an entry of an RSS-family document with a
    published date and no updated date, the entry [_make_entry] returns
    has [updated] equal to the original published date and [published]
    equal to [None].  An entry that lacks an updated date after this
    promotion is never returned (the assertion of [_make_entry] fails for
    it; no start time is substituted); so every entry returned by
    [_make_entry] has a non-null [updated]. *)
Theorem make_entry_updated (entry : FeedParserDict) (is_rss : bool) (x : Entry) :
  _make_entry entry is_rss = Return x →
  (is_rss = true →
   ∀ t, published_parsed entry = Some (Some t) → no_date (updated_parsed entry) →
        entry_updated x = Some (timegm t) ∧ entry_published x = None)
  ∧ (_get_updated_published entry is_rss).1 ≠ None
  ∧ is_Some (entry_updated x).
Proof.
  intros Hx. destruct (make_entry_dates _ _ _ Hx) as [Hd Hs].
  split_and!; [|by rewrite <-Hd; destruct Hs as [? ->]|done].
  intros -> t Hp Hu. rewrite (get_updated_published_promotes _ t Hp Hu) in Hd.
  by simplify_eq.
Qed.








(** *** The document as a whole *)

(** The generator makes the entries in order, up to the first one that
    cannot be made. *)
Lemma entries_generator_all (es : list FeedParserDict) (is_rss : bool) (xs : list Entry) :
  mapM (λ e, _make_entry e is_rss) es = Return xs →
  entries_generator es is_rss = Return <$> xs.
Proof.
  revert xs. induction es as [|e es IH]; intros xs Hxs; simpl in *.
  - by simplify_eq.
  - destruct (_make_entry e is_rss) as [x|]; [|discriminate].
    rewrite bind_Return in Hxs.
    destruct (mapM _ es) as [xs'|]; [|discriminate].
    rewrite bind_Return in Hxs. simplify_eq. by rewrite (IH xs').
Qed.

Lemma entries_generator_stops (good : list FeedParserDict) (bad : FeedParserDict)
    (rest : list FeedParserDict) (is_rss : bool) (xs : list Entry) (err : exn) :
  mapM (λ e, _make_entry e is_rss) good = Return xs →
  _make_entry bad is_rss = Raise err →
  entries_generator (good ++ bad :: rest) is_rss = (Return <$> xs) ++ [Raise err].
Proof.
  revert xs. induction good as [|e good IH]; intros xs Hxs Hbad; simpl in *.
  - simplify_eq. by rewrite Hbad.
  - destruct (_make_entry e is_rss) as [x|]; [|discriminate].
    rewrite bind_Return in Hxs.
    destruct (mapM _ good) as [xs'|]; [|discriminate].
    rewrite bind_Return in Hxs. simplify_eq. by rewrite (IH xs').
Qed.

(** X1.  A document that feedparser flags as malformed is refused with a
    [ParseError] that carries feedparser's exception as its cause, unless
    that exception is a character encoding override: the document is then
    read like one without the flag.  What is returned has the url asked
    for, no user title, and the entries as a generator: an entry that
    cannot be made does not make [_process_feed] fail.  The generator
    makes the entries of the document in order; when all of them can be
    made it yields one entry for each; at the first that cannot, it
    raises the exception of [_make_entry] and is over, whatever comes
    after that entry in the document. *)
Theorem process_feed_bozo (url : string) (d : FeedParserResult) :
  (bozo d = true → bozo_exception d ≠ Some CharacterEncodingOverride →
   _process_feed url d = Raise (ParseError url "" (bozo_exception d)))
  ∧ (∀ d', version d' = version d → feed d' = feed d → entries d' = entries d →
           bozo d' = false →
           bozo d = false ∨ bozo_exception d = Some CharacterEncodingOverride →
           _process_feed url d = _process_feed url d')
  ∧ (∀ feed_ entries_,
       _process_feed url d = Return (feed_, entries_) →
       feed_url feed_ = url ∧ feed_user_title feed_ = None
       ∧ ∃ v, version d = Some v
              ∧ (∀ xs, mapM (λ e, _make_entry e (startswith "rss" v)) (entries d)
                       = Return xs →
                       entries_ = Return <$> xs)
              ∧ (∀ good bad rest xs err,
                   entries d = good ++ bad :: rest →
                   mapM (λ e, _make_entry e (startswith "rss" v)) good = Return xs →
                   _make_entry bad (startswith "rss" v) = Raise err →
                   entries_ = (Return <$> xs) ++ [Raise err])).
Proof.
  unfold _process_feed. split_and!.
  - intros -> Hex. destruct (bozo_exception d) as [[]|]; done.
  - intros d' -> -> -> -> [->| ->].
    + done.
    + by destruct (bozo d).
  - intros feed_ entries_ Hd.
    apply bind_Return_inv in Hd as ([] & _ & Hd).
    destruct (version d) as [v|]; [|done].
    destruct (_get_updated_published (feed d) (startswith "rss" v)) as [updated ?].
    simplify_eq/=. split_and!; [done..|]. exists v. split_and!; [done| |].
    + intros xs Hxs. by apply entries_generator_all.
    + intros good bad rest xs err -> Hxs Hbad. by apply entries_generator_stops.
Qed.

(** X23.  Unlike an entry, a feed needs no date.  A document that is not
    flagged and has a version is always read; the [updated] of its feed
    is what [_get_updated_published] finds for it: the published date of
    an RSS feed that has no updated date, and [None] for a feed without
    any date, which is returned all the same.  A document without a
    version is an [AttributeError]. *)
Theorem process_feed_dates (url : string) (d : FeedParserResult) :
  bozo d = false →
  (version d = None → _process_feed url d = Raise AttributeError)
  ∧ (∀ v, version d = Some v →
       ∃ feed_ entries_,
         _process_feed url d = Return (feed_, entries_)
         ∧ feed_updated feed_
           = (_get_updated_published (feed d) (startswith "rss" v)).1
         ∧ (startswith "rss" v = true →
            ∀ t, published_parsed (feed d) = Some (Some t) →
                 no_date (updated_parsed (feed d)) →
                 feed_updated feed_ = Some (timegm t))
         ∧ (no_date (updated_parsed (feed d)) →
            no_date (published_parsed (feed d)) →
            feed_updated feed_ = None)).
Proof.
  intros Hbozo. unfold _process_feed. rewrite Hbozo, bind_Return. split.
  - by intros ->.
  - intros v ->.
    destruct (_get_updated_published (feed d) (startswith "rss" v))
      as [updated published] eqn:Hdates.
    eexists _, _. split; [done|]. simpl. split_and!; [done| |].
    + intros Hrss t Hp Hu. rewrite Hrss in Hdates.
      rewrite (get_updated_published_promotes _ t Hp Hu) in Hdates. by simplify_eq.
    + intros [Hu|Hu] [Hp|Hp]; unfold _get_updated_published in Hdates;
        rewrite Hu, Hp in Hdates; simpl in Hdates; by simplify_eq.
Qed.

(** X2.  Of a content item, [_make_entry] reads the keys [value], [type] and
    [language] and no other; [value] is the one it cannot do without: an
    entry with a content item that lacks it is not made, the call of
    [Content] raising [TypeError]. *)
Theorem make_content_reads_three_keys (data : gmap string pyval) :
  (∀ k v, k ∉ ["value"; "type"; "language"] →
          make_content (<[k := v]> data) = make_content data)
  ∧ (∀ v, data !! "value" = Some v →
          make_content data
          = Return {| value := v;
                      content_type := default PyNone (data !! "type");
                      language := default PyNone (data !! "language") |})
  ∧ (data !! "value" = None →
     make_content data = Raise TypeError
     ∧ ∀ entry is_rss i u p contents,
         id entry = Some i → str_truthy i = true →
         _get_updated_published entry is_rss = (Some u, p) →
         content entry = Some contents → data ∈ contents →
         _make_entry entry is_rss = Raise TypeError).
Proof.
  assert (∀ data', make_content data'
            = match data' !! "value" with
              | Some v => Return {| value := v;
                                    content_type := default PyNone (data' !! "type");
                                    language := default PyNone (data' !! "language") |}
              | None => Raise TypeError
              end) as Hmake.
  { intros data'. unfold make_content, Content_new.
    rewrite !lookup_keep_keys. repeat case_decide; set_solver. }
  split_and!.
  - intros k v Hk. rewrite !Hmake.
    rewrite !lookup_insert_ne; [done|set_solver..].
  - intros v Hv. by rewrite Hmake, Hv.
  - intros Hv. split; [by rewrite Hmake, Hv|].
    intros entry is_rss i u p contents Hi Hid Hdates Hcontents Hdata.
    unfold _make_entry. rewrite Hi, Hid, Hdates, Hcontents. simpl.
    assert (mapM make_content contents = Raise TypeError) as ->; [|done].
    clear Hcontents.
    induction Hdata as [data contents|data data' contents _ IH]; simpl.
    + by rewrite Hmake, Hv, bind_Raise.
    + rewrite (Hmake data'). destruct (data' !! "value"); [|by rewrite bind_Raise].
      by rewrite bind_Return, IH, bind_Raise.
Qed.

Section WithLibraries.
Context `{feedparser : FeedparserLib} `{http : HttpLib}.

(** Outside http and https, [parse_requests] hands over to
    [parse_feedparser] with the url rewritten. *)
Lemma parse_requests_not_http (url : string) (http_etag http_last_modified : option string) :
  scheme (urlparse url) = "file" →
  netloc (urlparse url) = "" → params (urlparse url) = "" →
  query (urlparse url) = "" → fragment (urlparse url) = "" →
  parse_requests url http_etag http_last_modified
  = parse_feedparser (path (urlparse url)) http_etag http_last_modified.
Proof. unfold parse_requests. by intros -> -> -> -> ->. Qed.

(** C8.  When the fetch reports HTTP status 304, [parse] raises
    [NotModified] and returns no document, whatever the response holds:
    [_process_feed] and [_make_entry] are not reached.  The worker of the
    spec turns this outcome into a successful result with no entries,
    without calling the reconciler. *)
Theorem parse_not_modified (url : string) (http_etag http_last_modified : option string) :
  (status (feedparser_parse url http_etag http_last_modified) = Some 304%Z →
   parse_feedparser url http_etag http_last_modified = Raise (NotModified url)
   ∧ ∀ reconcile,
       updater_model.update_feed_result
         (parse_feedparser url http_etag http_last_modified) reconcile
       = Return {| types.entries := [] |})
  ∧ (∀ response,
       scheme (urlparse url) ∈ ["http"; "https"] →
       requests_get url (request_headers http_etag http_last_modified) = Return response →
       status_code response = 304%Z →
       parse_requests url http_etag http_last_modified = Raise (NotModified url)
       ∧ ∀ reconcile,
           updater_model.update_feed_result
             (parse_requests url http_etag http_last_modified) reconcile
           = Return {| types.entries := [] |}).
Proof.
  split.
  - intros Hs.
    assert (parse_feedparser url http_etag http_last_modified = Raise (NotModified url))
      as ->; [|done].
    unfold parse_feedparser. by rewrite bool_decide_true.
  - intros response Hscheme Hget Hs.
    assert (parse_requests url http_etag http_last_modified = Raise (NotModified url))
      as ->; [|done].
    unfold parse_requests. rewrite bool_decide_true by done. simpl.
    rewrite Hget. by rewrite bool_decide_true.
Qed.

(** *** Retrieval *)

(** X3.  An http(s) retrieval that returns has made one request, with the
    [Accept] and [A-IM] headers and, for each validator the caller holds
    that is not empty, the conditional header for it; the answer was not
    a 304; the validators returned are the ones of the answer, and the
    caller's own where the answer has none. *)
Theorem parse_requests_conditional_get (url : string)
    (http_etag http_last_modified : option string)
    (feed_ : Feed) (entries_ : list (result Entry)) (etag' modified' : option string) :
  scheme (urlparse url) ∈ ["http"; "https"] →
  parse_requests url http_etag http_last_modified
  = Return (feed_, entries_, etag', modified') →
  ∃ response,
    requests_get url (request_headers http_etag http_last_modified) = Return response
    ∧ status_code response ≠ 304%Z
    ∧ request_headers http_etag http_last_modified !! "Accept" = Some ACCEPT_HEADER
    ∧ request_headers http_etag http_last_modified !! "A-IM" = Some "feed"
    ∧ request_headers http_etag http_last_modified !! "If-None-Match"
      = (if opt_str_truthy http_etag then http_etag else None)
    ∧ request_headers http_etag http_last_modified !! "If-Modified-Since"
      = (if opt_str_truthy http_last_modified then http_last_modified else None)
    ∧ etag' = from_option Some http_etag (response_headers response !! "ETag")
    ∧ modified' = from_option Some http_last_modified
                    (response_headers response !! "Last-Modified").
Proof.
  intros Hscheme Hparse. unfold parse_requests in Hparse.
  rewrite bool_decide_true in Hparse by done. simpl in Hparse.
  destruct (requests_get url _) as [response|] eqn:Hget; [|done].
  case_bool_decide as Hstatus; [done|].
  apply bind_Return_inv in Hparse as ([f es] & _ & Hparse). simplify_eq.
  exists response. split_and!; try done.
  all: unfold request_headers;
    destruct http_etag as [[|? ?]|], http_last_modified as [[|? ?]|]; by simpl.
Qed.

(** X4.  A url that is not an http(s) one is handed to [parse_feedparser], a
    [file:] url as its path and any other as it is without what follows
    the path; but only when nothing follows the path, and no host is
    named: otherwise an assertion fails. *)
Theorem parse_requests_local (url : string) (http_etag http_last_modified : option string) :
  scheme (urlparse url) ∉ ["http"; "https"] →
  (netloc (urlparse url) = "" ∧ params (urlparse url) = ""
   ∧ query (urlparse url) = "" ∧ fragment (urlparse url) = "" →
   parse_requests url http_etag http_last_modified
   = parse_feedparser
       (if bool_decide (scheme (urlparse url) = "file") then path (urlparse url)
        else if bool_decide (scheme (urlparse url) = "") then path (urlparse url)
        else scheme (urlparse url) +:+ ":" +:+ path (urlparse url))
       http_etag http_last_modified)
  ∧ (netloc (urlparse url) ≠ "" ∨ params (urlparse url) ≠ ""
     ∨ query (urlparse url) ≠ "" ∨ fragment (urlparse url) ≠ "" →
     parse_requests url http_etag http_last_modified = Raise AssertionError).
Proof.
  intros Hscheme. unfold parse_requests. rewrite bool_decide_false by done. simpl.
  assert (∀ s, str_truthy s = false ↔ s = "") as Hempty by (by intros []).
  split.
  - intros (-> & -> & -> & ->). simpl. f_equal.
    case_bool_decide as Hfile.
    + apply list_elem_of_singleton in Hfile. by rewrite bool_decide_true.
    + rewrite bool_decide_false by set_solver.
      case_bool_decide as Hnone; [by rewrite Hnone|].
      by destruct (scheme (urlparse url)).
  - intros Hmore.
    destruct (str_truthy (netloc (urlparse url))) eqn:Hn; [done|].
    destruct (str_truthy (params (urlparse url))) eqn:Hp; [done|].
    destruct (str_truthy (query (urlparse url))) eqn:Hq; [done|].
    destruct (str_truthy (fragment (urlparse url))) eqn:Hf; [done|].
    rewrite Hempty in Hn, Hp, Hq, Hf. tauto.
Qed.

End WithLibraries.

End WithRuntime.

(** *** The statements at concrete inputs *)

Import concrete.

Lemma make_entry_updated_witness :
  _make_entry rss_entry true
  = Return {| entry_id := "urn:item:1"; entry_updated := Some 1262304000%Z;
              entry_title := Some "One"; entry_link := None; entry_author := None;
              entry_published := None; entry_summary := None;
              entry_content := None; entry_enclosures := None;
              entry_read := false; entry_last := None |}
  ∧ (_get_updated_published rss_entry true).1 ≠ None.
Proof.
  split; [reflexivity|].
  exact (proj1 (proj2 (make_entry_updated rss_entry true _ eq_refl))).
Defined.

(** C1, as the claim has it, fails: an entry without any date gets no
    start time for its [updated]; [_make_entry] raises [AssertionError]
    and returns no entry. *)
Lemma make_entry_undated_raises :
  (_get_updated_published undated_entry true).1 = None
  ∧ _make_entry undated_entry true = Raise AssertionError
  ∧ ¬ ∃ x, _make_entry undated_entry true = Return x.
Proof. split_and!; [reflexivity..|]. intros [x Hx]. discriminate Hx. Qed.


Lemma parse_not_modified_witness :
  parse_feedparser (feedparser := feedparser_304) "http://example.com/feed" None None
  = Raise (NotModified "http://example.com/feed")
  ∧ parse_requests (feedparser := feedparser_304) (http := http_304)
      "http://example.com/feed" (Some "etag") None
    = Raise (NotModified "http://example.com/feed").
Proof.
  pose proof (parse_not_modified (feedparser := feedparser_304) (http := http_304)
                "http://example.com/feed") as Hthm.
  split.
  - exact (proj1 (proj1 (Hthm None None) eq_refl)).
  - refine (proj1 (proj2 (Hthm (Some "etag") None) _ _ eq_refl eq_refl)).
    simpl. constructor.
Defined.

Lemma parse_requests_conditional_get_witness :
  parse_requests (feedparser := feedparser_rss) (http := http_200)
    "http://example.com/feed" (Some "v1") (Some "")
  = Return ({| feed_url := "http://example.com/feed";
               feed_updated := Some 1262304000%Z; feed_title := Some "One";
               feed_link := None; feed_author := None; feed_user_title := None |},
            [_make_entry rss_entry true], Some "v2", Some "")
  ∧ request_headers (feedparser := feedparser_rss) (Some "v1") (Some "") !! "If-None-Match"
    = Some "v1"
  ∧ request_headers (feedparser := feedparser_rss) (Some "v1") (Some "")
    !! "If-Modified-Since" = None.
Proof.
  split; [by vm_compute|].
  destruct (parse_requests_conditional_get (feedparser := feedparser_rss)
              (http := http_200) "http://example.com/feed" (Some "v1") (Some "")
              _ _ _ _ ltac:(simpl; constructor) eq_refl)
    as (response & _ & _ & _ & _ & Hetag & Hmodified & _).
  by split.
Defined.

Lemma parse_requests_local_witness :
  parse_requests (feedparser := feedparser_rss) (http := http_file)
    "file:///data/feeds/a.xml" None None
  = parse_feedparser (feedparser := feedparser_rss) "/data/feeds/a.xml" None None.
Proof.
  refine (proj1 (parse_requests_local (feedparser := feedparser_rss) (http := http_file)
                   "file:///data/feeds/a.xml" None None _) _).
  - simpl. intros Hin. by repeat (inversion Hin as [|? ? ? Hin']; clear Hin; rename Hin' into Hin).
  - by simpl.
Defined.

Lemma process_feed_dates_witness :
  ∃ feed_ entries_,
    _process_feed "http://example.com/feed"
      (feedparser_parse (FeedparserLib := feedparser_rss) "http://example.com/feed" None None)
    = Return (feed_, entries_)
    ∧ feed_updated feed_ = Some 1262304000%Z.
Proof.
  destruct (proj2 (process_feed_dates "http://example.com/feed"
                     (feedparser_parse (FeedparserLib := feedparser_rss)
                        "http://example.com/feed" None None) eq_refl)
              "rss20" eq_refl)
    as (feed_ & entries_ & Hfeed & Hupdated & _).
  exists feed_, entries_. split; [exact Hfeed|]. rewrite Hupdated. reflexivity.
Defined.

(** A document whose second entry has no date: the generator yields the
    first entry, raises for the second, and is over; the third entry is
    never made. *)
Example entries_after_a_bad_one :
  entries_generator [rss_entry; undated_entry; rss_entry] true
  = [_make_entry rss_entry true; Raise AssertionError]
  ∧ ∃ x, _make_entry rss_entry true = Return x.
Proof. split; [reflexivity|]. eexists. reflexivity. Qed.

End parser_facts.

(** ** reader/_parser/file.py *)

Module file_facts.
Import paths file.

(** *** Path names *)

Lemma split_slash_nonempty (s : string) : split_slash s ≠ [].
Proof. destruct s as [|c s]; simpl; [done|]. by repeat case_match. Qed.

(** A component holds no slash: split again, it is itself. *)
Lemma split_slash_components (s w : string) :
  w ∈ split_slash s → split_slash w = [w].
Proof.
  revert w. induction s as [|c s IH]; intros w; simpl.
  - by intros ->%list_elem_of_singleton.
  - destruct (Ascii.eqb c "/") eqn:Hc.
    + intros [->|Hw]%elem_of_cons; [done|by apply IH].
    + pose proof (split_slash_nonempty s).
      destruct (split_slash s) as [|w' ws]; [done|].
      intros [->|Hw]%elem_of_cons; [|apply IH; by right].
      simpl. rewrite Hc. by rewrite (IH w') by left.
Qed.

Lemma split_slash_app (a b : string) :
  split_slash (a +:+ "/" +:+ b) = split_slash a ++ split_slash b.
Proof.
  induction a as [|c a IH]; simpl; [done|].
  rewrite IH. destruct (Ascii.eqb c "/"); [done|].
  pose proof (split_slash_nonempty a). by destruct (split_slash a).
Qed.

Lemma walk_app (ps qs here : list string) :
  walk (ps ++ qs) here = walk qs (walk ps here).
Proof.
  revert here. induction ps as [|w ps IH]; intros here; simpl; [done|].
  by repeat case_bool_decide.
Qed.

(** A component that leads down. *)
Definition is_name (w : string) : Prop := w ≠ "" ∧ w ≠ "." ∧ w ≠ "..".

Lemma walk_names (ps here : list string) :
  Forall is_name ps → walk ps here = rev ps ++ here.
Proof.
  intros Hps. revert here. induction Hps as [|w ps (? & ? & ?) _ IH]; intros here; [done|].
  simpl. rewrite !bool_decide_false by naive_solver.
  by rewrite IH, <-app_assoc.
Qed.

Section WithSystem.
Context `{fs : FileSystem} `{utils : UrlUtils}.

(** With a root, the path is the one [resolve_root] returns, and it is
    checked against the reserved names. *)
Lemma normalize_url_rooted (self : FileRetriever) (url : string) :
  str_truthy (feed_root self) = true →
  _normalize_url self url
  = (path ← extract_path url ;
     resolved ← resolve_root (feed_root self) path ;
     if is_reserved resolved then Raise (ValueError "path must not be reserved")
     else Return resolved).
Proof. unfold _normalize_url. by intros ->. Qed.

(** Nothing is opened unless the url was normalised. *)
Lemma call_opens_normalized (self : FileRetriever) (url p : string) :
  p ∈ (__call__ self url).1 → _normalize_url self url = Return p.
Proof.
  unfold __call__. destruct (_normalize_url self url) as [q|e]; simpl.
  - by intros ->%list_elem_of_singleton.
  - destruct e; simpl; by intros ?%not_elem_of_nil.
Qed.

(** A [ValueError] of the normalisation is reported as a [ParseError]
    with its message and no cause, before [open] is called. *)
Lemma call_rejects (self : FileRetriever) (url msg : string) :
  _normalize_url self url = Raise (ValueError msg) →
  __call__ self url = ([], Raise (ParseError url msg None)).
Proof. unfold __call__. by intros ->. Qed.

(** C4.  With a root directory configured, and a [resolve_root] that
    keeps what [file.py] relies on it for: a url whose path escapes the
    root, or resolves to a reserved name, is rejected by a [ParseError]
    before any file is opened; and a file is opened only at a path that
    stands for a place below the root, that is not reserved and that
    [resolve_root] returned for the root and a path that does not escape
    it: no other path is fallen back to. *)
Theorem retrieval_stays_in_root (self : FileRetriever) (url : string) :
  str_truthy (feed_root self) = true →
  resolve_root_contained →
  (∀ path, extract_path url = Return path →
           escapes_root (feed_root self) path ∨ names_reserved (feed_root self) path →
           ∃ msg, __call__ self url = ([], Raise (ParseError url msg None)))
  ∧ (∀ opened, opened ∈ (__call__ self url).1 →
               below (feed_root self) (location opened)
               ∧ is_reserved opened = false
               ∧ ∃ path, extract_path url = Return path
                         ∧ ¬ escapes_root (feed_root self) path
                         ∧ resolve_root (feed_root self) path = Return opened).
Proof.
  intros Hroot Hcontained. split.
  - intros path Hpath [Hescapes|(resolved & Hr & Hres)].
    + specialize (Hcontained (feed_root self) path).
      destruct (resolve_root (feed_root self) path) as [resolved|e] eqn:Hr.
      { by destruct Hcontained as [_ []]. }
      destruct (Hcontained Hescapes) as [msg ->].
      exists msg. apply call_rejects.
      rewrite normalize_url_rooted by done. by rewrite Hpath, bind_Return, Hr.
    + exists "path must not be reserved". apply call_rejects.
      rewrite normalize_url_rooted by done.
      by rewrite Hpath, bind_Return, Hr, bind_Return, Hres.
  - intros opened Hopened%call_opens_normalized.
    rewrite normalize_url_rooted in Hopened by done.
    destruct (extract_path url) as [path|] eqn:Hpath; [|discriminate].
    rewrite bind_Return in Hopened.
    specialize (Hcontained (feed_root self) path).
    destruct (resolve_root (feed_root self) path) as [resolved|] eqn:Hr; [|discriminate].
    rewrite bind_Return in Hopened.
    destruct (is_reserved resolved) eqn:Hres; [discriminate|].
    simplify_eq. destruct Hcontained. eauto 10.
Qed.

(** C10.  With the empty string as root, the path is the extracted one,
    unchanged: neither [resolve_root] nor the reserved-name check takes
    part, and whatever path [open] can read is opened. *)
Theorem empty_root_unchecked (self : FileRetriever) (url : string) :
  feed_root self = "" →
  _normalize_url self url = extract_path url
  ∧ (∀ path f, extract_path url = Return path → open_rb path = Return f →
               __call__ self url = ([path], Return {| resource := f |})).
Proof.
  intros Hroot.
  assert (_normalize_url self url = extract_path url) as Hn.
  { unfold _normalize_url. rewrite Hroot. simpl. by destruct (extract_path url). }
  split; [done|]. intros path f Hpath Hopen.
  unfold __call__. by rewrite Hn, Hpath, Hopen.
Qed.

(** The constructor's own check. *)
Lemma FileRetriever_new_empty_root :
  FileRetriever_new "" = (_ ← extract_path "known-good-feed-url"; Return {| feed_root := "" |}).
Proof.
  unfold FileRetriever_new, _normalize_url. simpl.
  by destruct (extract_path "known-good-feed-url").
Qed.

(** X5.  [validate_url] and [__call__] go by the same check: for a url that
    [validate_url] accepts, [__call__] opens one file and no other; for
    one it refuses, [__call__] opens nothing, and reports the refusal as
    a [ParseError] for the url with the same message. *)
Theorem validate_url_agrees_with_call (self : FileRetriever) (url : string) :
  (validate_url self url = Return tt ↔ ∃ p, (__call__ self url).1 = [p])
  ∧ (∀ p, (__call__ self url).1 = [p] → _normalize_url self url = Return p)
  ∧ (∀ msg, validate_url self url = Raise (ValueError msg) →
            __call__ self url = ([], Raise (ParseError url msg None))).
Proof.
  unfold validate_url, __call__.
  destruct (_normalize_url self url) as [p|e] eqn:Hn; simpl.
  - split_and!; [split; eauto|by intros ? [= ->]|done].
  - split_and!.
    + split; [done|]. intros [p Hp]. by destruct e.
    + intros p Hp. by destruct e.
    + by intros msg [= ->].
Qed.

End WithSystem.

(** *** The statements at concrete inputs, with the helpers of
    [_url_utils.py] as modelled from the spec *)

Import concrete url_utils_model.

(** The helper [resolve_root] as modelled: the parts of the path it
    returns are those the walk from the root goes down by. *)
Lemma normalize_parts_walk (parts acc ps base : list string) :
  normalize_parts parts acc = Some ps →
  walk parts (acc ++ base) = rev ps ++ base.
Proof.
  revert acc. induction parts as [|w parts IH]; intros acc Hps; simpl in *.
  - simplify_eq. by rewrite rev_involutive.
  - repeat case_bool_decide.
    + by apply IH.
    + destruct acc as [|a acc]; [done|]. by apply IH.
    + by apply (IH (w :: acc)).
Qed.

Lemma normalize_parts_names (parts acc ps : list string) :
  normalize_parts parts acc = Some ps →
  Forall (λ w, split_slash w = [w]) parts → Forall (λ w, split_slash w = [w]) acc →
  Forall is_name acc →
  Forall (λ w, split_slash w = [w]) ps ∧ Forall is_name ps.
Proof.
  revert acc. induction parts as [|w parts IH]; intros acc Hps Hparts Hacc Hnames;
    simpl in *.
  - simplify_eq. split; by apply Forall_rev.
  - apply Forall_cons in Hparts as [Hw Hparts]. repeat case_bool_decide.
    + by apply (IH acc).
    + destruct acc as [|a acc]; [done|].
      apply Forall_cons in Hacc as [_ Hacc]. apply Forall_cons in Hnames as [_ Hnames].
      by apply (IH acc).
    + apply (IH (w :: acc)); [done..| |]; constructor; try done.
      unfold is_name. naive_solver.
Qed.

Lemma split_slash_join_slash (root : string) (ps : list string) :
  Forall (λ w, split_slash w = [w]) ps →
  split_slash (join_slash (root :: ps)) = split_slash root ++ ps.
Proof.
  intros Hps. revert root. induction Hps as [|q qs Hq _ IH]; intros root.
  - by rewrite app_nil_r.
  - change (join_slash (root :: q :: qs)) with (root +:+ "/" +:+ join_slash (q :: qs)).
    by rewrite split_slash_app, IH, Hq.
Qed.

(** The helper as modelled keeps what [file.py] relies on it for. *)
Lemma model_resolve_root_contained :
  resolve_root_contained (utils := url_utils).
Proof.
  intros root path. unfold resolve_root, url_utils, model_resolve_root.
  destruct (parser.startswith "/" path) eqn:Habs; [eauto|].
  destruct (normalize_parts (split_slash path) []) as [ps|] eqn:Hps; [|eauto].
  destruct (normalize_parts_names _ _ _ Hps) as [Hfree Hnames]; [|done..|].
  { apply Forall_forall. intros w. apply split_slash_components. }
  split.
  - unfold below, location at 2.
    rewrite split_slash_join_slash, walk_app, walk_names, rev_app_distr by done.
    rewrite rev_involutive. by apply prefix_app_r.
  - unfold escapes_root, below, location_from. rewrite Habs.
    rewrite <-(app_nil_l (rev (location root))).
    rewrite (normalize_parts_walk _ _ _ _ Hps), rev_app_distr, !rev_involutive.
    intros Hnot. apply Hnot. by apply prefix_app_r.
Qed.

Lemma retrieval_stays_in_root_witness :
  escapes_root "/data/feeds" "/etc/passwd"
  ∧ ∃ msg,
      __call__ (fs := posix_file_system) (utils := url_utils)
        {| feed_root := "/data/feeds" |} "file:///etc/passwd"
      = ([], Raise (ParseError "file:///etc/passwd" msg None)).
Proof.
  assert (escapes_root "/data/feeds" "/etc/passwd") as Hescapes.
  { intros [k Hk]. vm_compute in Hk. discriminate Hk. }
  split; [exact Hescapes|].
  refine (proj1 (retrieval_stays_in_root (fs := posix_file_system) (utils := url_utils)
            {| feed_root := "/data/feeds" |} "file:///etc/passwd" eq_refl
            model_resolve_root_contained)
            "/etc/passwd" eq_refl _).
  left. exact Hescapes.
Defined.

(** Below the root is meant by components, not by characters:
    [/data/feeds2] is not below [/data/feeds]; and a path may go up as
    long as it ends below the root. *)
Example paths_escaping :
  escapes_root "/data/feeds" "/etc/passwd"
  ∧ escapes_root "/data/feeds" "../../etc/passwd"
  ∧ escapes_root "/data/feeds" "../feeds2/a.xml"
  ∧ ¬ escapes_root "/data/feeds" "sub/../a.xml"
  ∧ location_from "/data/feeds" "../feeds2/a.xml" = ["data"; "feeds2"; "a.xml"]
  ∧ location_from "/data/feeds" "sub/../a.xml" = ["data"; "feeds"; "a.xml"].
Proof.
  split_and!; try reflexivity;
    try (intros [k Hk]; vm_compute in Hk; discriminate Hk).
  intros Hnot. apply Hnot. by exists ["a.xml"].
Qed.

Example path_through_sibling_rejected :
  __call__ (fs := posix_file_system) (utils := url_utils)
    {| feed_root := "/data/feeds" |} "../feeds2/a.xml"
  = ([], Raise (ParseError "../feeds2/a.xml" "path cannot be outside root" None)).
Proof. reflexivity. Qed.

(** The two urls of the spec, under the root [/data/feeds]. *)
Example absolute_path_rejected :
  __call__ (fs := posix_file_system) (utils := url_utils)
    {| feed_root := "/data/feeds" |} "file:///etc/passwd"
  = ([], Raise (ParseError "file:///etc/passwd" "path must be relative" None)).
Proof. reflexivity. Qed.

Example parent_path_rejected :
  __call__ (fs := posix_file_system) (utils := url_utils)
    {| feed_root := "/data/feeds" |} "../../etc/passwd"
  = ([], Raise (ParseError "../../etc/passwd" "path cannot be outside root" None)).
Proof. reflexivity. Qed.

Example reserved_name_rejected :
  __call__ (fs := file_system) (utils := url_utils)
    {| feed_root := "/data/feeds" |} "nul"
  = ([], Raise (ParseError "nul" "path must not be reserved" None)).
Proof. reflexivity. Qed.

Example path_below_root_opened :
  __call__ (fs := posix_file_system) (utils := url_utils)
    {| feed_root := "/data/feeds" |} "a.xml"
  = (["/data/feeds/a.xml"], Return (@Build_RetrieveResult posix_file_system "<rss/>")).
Proof. reflexivity. Qed.

Lemma empty_root_unchecked_witness :
  __call__ (fs := file_system) (utils := url_utils) {| feed_root := "" |} "/etc/passwd"
  = (["/etc/passwd"], Return (@Build_RetrieveResult file_system "root:x:0:0")).
Proof.
  exact (proj2 (empty_root_unchecked (fs := file_system) (utils := url_utils)
                  {| feed_root := "" |} "/etc/passwd" eq_refl)
               "/etc/passwd" "root:x:0:0" eq_refl eq_refl).
Defined.



End file_facts.

(** ** reader/_utils.py: [join_paginated_iter] *)

Module pagination_facts.
Import _utils.

Section Pagination.
Context {T U W : Type}.
Variable get_things : Z → option T → W → list (U * T) * W.

Lemma last_None_nil {A} (l : list A) : list.last l = None → l = [].
Proof. by intros ?%last_None. Qed.

(** The loop of the code is the loop of the contract: without a limit... *)
Lemma paginated_loop_unlimited (chunk_size : Z) (fuel : nat)
    (remaining asked : Z) (last : option T) (w : W) :
  (0 < chunk_size)%Z →
  paginated_loop get_things chunk_size 0 fuel remaining last w
  = paginate_spec get_things chunk_size 0 fuel asked last w.
Proof.
  intros Hchunk. revert remaining asked last w.
  induction fuel as [|fuel IH]; intros remaining asked last w; [done|].
  simpl. destruct (get_things chunk_size last w) as [things w'].
  rewrite orb_false_r.
  destruct (list.last things) as [[item last']|] eqn:Hlast.
  - simpl. case_bool_decide; [done|].
    by rewrite (IH remaining (asked + chunk_size)%Z).
  - apply last_None_nil in Hlast as ->. simpl.
    by rewrite bool_decide_true by lia.
Qed.

(** ... and with one, [remaining] being what is left of it. *)
Lemma paginated_loop_limited (chunk_size limit : Z) (fuel : nat)
    (remaining : Z) (last : option T) (w : W) :
  (0 < chunk_size)%Z → (0 < remaining ≤ limit)%Z →
  paginated_loop get_things chunk_size limit fuel remaining last w
  = paginate_spec get_things chunk_size limit fuel (limit - remaining) last w.
Proof.
  intros Hchunk. revert remaining last w.
  induction fuel as [|fuel IH]; intros remaining last w Hrem.
  { simpl. rewrite (bool_decide_false (remaining = _)) by lia.
    by rewrite andb_false_r. }
  simpl.
  rewrite (bool_decide_false (remaining = _)) by lia. rewrite andb_false_r.
  rewrite (bool_decide_true (limit ≠ _)), (bool_decide_false (limit = _)) by lia.
  replace (limit - (limit - remaining))%Z with remaining by lia.
  rewrite (Z.min_comm chunk_size remaining).
  set (to_get := (remaining `min` chunk_size)%Z).
  assert (0 < to_get ≤ remaining)%Z as Hto_get by (unfold to_get; lia).
  replace (0 `max` (remaining - to_get))%Z with (remaining - to_get)%Z by lia.
  destruct (get_things to_get last w) as [things w'].
  destruct (list.last things) as [[item last']|] eqn:Hlast.
  - simpl. case_bool_decide as Hfewer; [done|]. simpl.
    case_bool_decide as Hreached.
    + destruct Hreached as [_ Hreached].
      replace (remaining - to_get)%Z with 0%Z by lia.
      destruct fuel; simpl; rewrite (bool_decide_true (limit ≠ _)) by lia;
        simpl; by rewrite app_nil_r.
    + rewrite IH by lia.
      by replace (limit - (remaining - to_get))%Z
        with (limit - remaining + to_get)%Z by lia.
  - apply last_None_nil in Hlast as ->. simpl.
    by rewrite bool_decide_true by lia.
Qed.

(** C5.  With a positive [chunk_size], [join_paginated_iter] is the
    routine of the contract: it calls the fetch function with the sort key
    of the last item yielded as the new cursor, asks for [chunk_size]
    items, or for what remains of the limit when that is less, yields what
    each call returns, and stops exactly when a call returns fewer items
    than asked for or the limit is reached.  With [chunk_size = 0] it
    makes one call, not chunked, and yields everything it returns. *)
Theorem join_paginated_iter_contract (chunk_size : Z) (last : option T)
    (limit : Z) (w : W) (fuel : nat) :
  (0 ≤ chunk_size)%Z → (0 ≤ limit)%Z →
  join_paginated_iter get_things chunk_size last limit w fuel
  = if bool_decide (chunk_size = 0%Z)
    then let things := (get_things limit last w).1 in
         (Fetch limit last things :: yield_from things, true)
    else paginate_spec get_things chunk_size limit fuel 0 last w.
Proof.
  intros Hchunk Hlimit. unfold join_paginated_iter. case_bool_decide.
  - by destruct (get_things limit last w).
  - destruct (decide (limit = 0%Z)) as [->|].
    + by apply paginated_loop_unlimited; lia.
    + rewrite paginated_loop_limited by lia. by rewrite Z.sub_diag.
Qed.

Lemma requested_fetch (size : Z) (last : option T) (things : list (U * T))
    (events : list (@event T U)) :
  requested (Fetch size last things :: events) = size :: requested events.
Proof. reflexivity. Qed.

Lemma requested_yield_from (things : list (U * T)) :
  requested (yield_from things) = [].
Proof. unfold requested, yield_from. by induction things. Qed.

Lemma requested_app (events events' : list (@event T U)) :
  requested (events ++ events') = requested events ++ requested events'.
Proof. apply omap_app. Qed.

(** Every call asks for at least one item and at most [chunk_size]; under
    a limit, the sizes asked for never add up to more than what was left
    of it. *)
Lemma paginate_spec_requested (chunk_size limit : Z) (fuel : nat) (asked : Z)
    (cursor : option T) (w : W) :
  (0 < chunk_size)%Z → (limit = 0 ∨ asked < limit)%Z →
  let sizes := requested (paginate_spec get_things chunk_size limit fuel asked cursor w).1 in
  Forall (λ size, 0 < size ≤ chunk_size)%Z sizes
  ∧ (limit ≠ 0%Z → (foldr Z.add 0 sizes ≤ limit - asked)%Z).
Proof.
  intros Hchunk. revert asked cursor w.
  induction fuel as [|fuel IH]; intros asked cursor w Hasked; simpl.
  { split; [constructor|lia]. }
  set (size := if bool_decide (limit = 0%Z) then chunk_size
               else (chunk_size `min` (limit - asked))%Z).
  assert (0 < size ≤ chunk_size)%Z as Hsize
    by (unfold size; case_bool_decide; lia).
  assert (limit ≠ 0%Z → size ≤ limit - asked)%Z as Hleft
    by (unfold size; case_bool_decide; lia).
  destruct (get_things size cursor w) as [chunk w'].
  destruct (bool_decide _ || bool_decide _) eqn:Hstop.
  - cbn [fst]. rewrite requested_fetch, requested_yield_from.
    split; [constructor; [lia|constructor]|]. intros ?.
    specialize (Hleft ltac:(done)). simpl. lia.
  - apply orb_false_iff in Hstop as [_ Hreached%bool_decide_eq_false].
    specialize (IH (asked + size)%Z (snd <$> list.last chunk) w').
    destruct (paginate_spec _ _ _ fuel _ _ _) as [events' returned'].
    cbn [fst] in *. rewrite requested_fetch, requested_app, requested_yield_from.
    destruct IH as [IH1 IH2].
    { destruct (decide (limit = 0%Z)); [by left|right].
      specialize (Hleft ltac:(done)).
      destruct (decide (asked + size = limit)%Z); [|lia].
      exfalso. by apply Hreached. }
    split; [constructor; [lia|done]|]. intros Hl. specialize (IH2 Hl). simpl. lia.
Qed.

(** Under a limit the generator returns: [limit] calls are enough. *)
Lemma paginate_spec_returns (chunk_size limit : Z) (fuel : nat) (asked : Z)
    (cursor : option T) (w : W) :
  (0 < chunk_size)%Z → (0 ≤ asked < limit)%Z →
  (limit - asked ≤ Z.of_nat fuel)%Z →
  (paginate_spec get_things chunk_size limit fuel asked cursor w).2 = true.
Proof.
  intros Hchunk. revert asked cursor w.
  induction fuel as [|fuel IH]; intros asked cursor w Hasked Hfuel; [lia|].
  simpl. rewrite (bool_decide_false (limit = _)) by lia.
  set (size := (chunk_size `min` (limit - asked))%Z).
  assert (0 < size ≤ limit - asked)%Z as Hsize by (unfold size; lia).
  destruct (get_things size cursor w) as [chunk w'].
  destruct (bool_decide _ || bool_decide _) eqn:Hstop; [done|].
  apply orb_false_iff in Hstop as [_ Hreached%bool_decide_eq_false].
  specialize (IH (asked + size)%Z (snd <$> list.last chunk) w').
  destruct (paginate_spec _ _ _ fuel _ _ _) as [events' returned']. simpl.
  apply IH; [|lia].
  destruct (decide (asked + size = limit)%Z); [|lia].
  exfalso. apply Hreached. split; [lia|done].
Qed.

(** Under a positive limit [join_paginated_iter] returns after [limit]
    calls at most, every call asking for at least one item and at most
    [chunk_size], and all calls together for no more than [limit]. *)
Lemma join_paginated_iter_limited (chunk_size : Z) (last : option T)
    (limit : Z) (w : W) (fuel : nat) :
  (0 < chunk_size)%Z → (0 < limit ≤ Z.of_nat fuel)%Z →
  let run := join_paginated_iter get_things chunk_size last limit w fuel in
  run.2 = true
  ∧ Forall (λ size, 0 < size ≤ chunk_size)%Z (requested run.1)
  ∧ (foldr Z.add 0 (requested run.1) ≤ limit)%Z.
Proof.
  intros Hchunk Hlimit. unfold join_paginated_iter.
  rewrite bool_decide_false by lia.
  rewrite paginated_loop_limited, Z.sub_diag by lia. simpl.
  pose proof (paginate_spec_requested chunk_size limit fuel 0 last w Hchunk)
    as [Hsizes Hsum]; [lia|].
  split_and!; [apply paginate_spec_returns; lia|done|].
  specialize (Hsum ltac:(lia)). lia.
Qed.

End Pagination.

(** *** Paging through a fixed sequence *)

Section get_things_of.
Context {T U W : Type} `{EqDecision T}.
Implicit Types (things rest : list (U * T)) (w : W).

Lemma yielded_fetch (size : Z) (last : option T) (chunk : list (U * T))
    (events : list (@event T U)) :
  yielded (Fetch size last chunk :: yield_from chunk ++ events)
  = chunk.*1 ++ yielded events.
Proof.
  unfold yielded. simpl. rewrite omap_app. f_equal.
  unfold yield_from. induction chunk as [|thing chunk IH]; [done|].
  simpl. by f_equal.
Qed.

Lemma things_after_app (k : T) (u : U) (l1 l2 : list (U * T)) :
  k ∉ l1.*2 → things_after k (l1 ++ (u, k) :: l2) = l2.
Proof.
  induction l1 as [|thing l1 IH]; simpl; intros Hk.
  - by rewrite decide_True.
  - apply not_elem_of_cons in Hk as [Hne Hk]. rewrite decide_False by done. auto.
Qed.

Lemma things_after_suffix (k : T) things : things_after k things `suffix_of` things.
Proof.
  induction things as [|thing things IH]; simpl; [done|].
  case_decide; [by apply suffix_cons_r|by apply suffix_cons_r].
Qed.

(** After a chunk of the things after a cursor, the things after the key
    of its last thing are the things after the chunk. *)
Lemma things_after_chunk things rest (n : nat) (thing : U * T) :
  NoDup things.*2 → rest `suffix_of` things →
  list.last (take n rest) = Some thing →
  things_after thing.2 things = drop n rest.
Proof.
  intros Hnodup [pre ->] Hlast.
  apply last_Some in Hlast as [chunk Hchunk]. destruct thing as [u k]. simpl.
  assert (rest = (chunk ++ [(u, k)]) ++ drop n rest) as Hrest
    by (by rewrite <-Hchunk, take_drop).
  rewrite Hrest at 1. rewrite <-app_assoc. simpl. rewrite app_assoc.
  apply things_after_app.
  rewrite Hrest, <-app_assoc, app_assoc, fmap_app in Hnodup. simpl in Hnodup.
  apply NoDup_app in Hnodup as (_ & Hnot & _). intros Hk.
  apply (Hnot _ Hk). simpl. left.
Qed.

Lemma paginate_spec_get_things_of things (chunk_size limit : Z) (fuel : nat)
    (asked : Z) (cursor : option T) w :
  NoDup things.*2 → (0 < chunk_size)%Z → (limit = 0 ∨ 0 ≤ asked < limit)%Z →
  let rest := from_option (λ k, things_after k things) things cursor in
  length rest < fuel →
  ∃ events,
    paginate_spec (get_things_of things) chunk_size limit fuel asked cursor w
    = (events, true)
    ∧ yielded events
      = (if bool_decide (limit = 0%Z) then rest
         else take (Z.to_nat (limit - asked)) rest).*1.
Proof.
  intros Hnodup Hchunk. revert asked cursor.
  induction fuel as [|fuel IH]; intros asked cursor Hasked rest Hfuel; [lia|].
  assert (rest `suffix_of` things) as Hsuffix.
  { unfold rest. destruct cursor; [apply things_after_suffix|done]. }
  cbn [paginate_spec].
  set (size := if bool_decide (limit = 0%Z) then chunk_size
               else (chunk_size `min` (limit - asked))%Z).
  assert (0 < size ≤ chunk_size)%Z as Hsize by (unfold size; case_bool_decide; lia).
  unfold get_things_of at 1. fold rest. rewrite (bool_decide_false (size = _)) by lia.
  cbn zeta beta iota.
  set (chunk := take (Z.to_nat size) rest).
  destruct (bool_decide (Z.of_nat (length chunk) < size)%Z
            || bool_decide (limit ≠ 0%Z ∧ (asked + size)%Z = limit)) eqn:Hstop.
  - eexists. split; [done|].
    rewrite <-(app_nil_r (yield_from chunk)), yielded_fetch. simpl. rewrite app_nil_r.
    f_equal. apply orb_true_iff in Hstop as [Hfewer%bool_decide_eq_true|Hreached%bool_decide_eq_true].
    + unfold chunk in *. rewrite length_take in Hfewer.
      rewrite take_ge by lia. case_bool_decide as Hlimit; [done|].
      rewrite take_ge; [done|]. unfold size in *. lia.
    + destruct Hreached as [Hlimit Hreached]. rewrite bool_decide_false by done.
      unfold chunk. do 2 f_equal. lia.
  - apply orb_false_iff in Hstop as [Hfewer%bool_decide_eq_false Hreached%bool_decide_eq_false].
    assert (Z.to_nat size ≤ length rest) as Hlen.
    { unfold chunk in Hfewer. rewrite length_take in Hfewer. lia. }
    destruct (list.last chunk) as [thing|] eqn:Hlast.
    2: { apply last_None in Hlast. unfold chunk in *.
         apply (f_equal length) in Hlast. rewrite length_take in Hlast. simpl in *. lia. }
    pose proof (things_after_chunk _ _ _ _ Hnodup Hsuffix Hlast) as Hafter.
    specialize (IH (asked + size)%Z (Some thing.2)).
    cbn [from_option] in IH. rewrite Hafter in IH. cbn [fmap option_fmap option_map].
    destruct IH as (events' & -> & Hyielded).
    { destruct Hasked as [->|Hasked]; [by left|right].
      unfold size in *. destruct (decide (limit = 0%Z)); [lia|].
      rewrite (bool_decide_false (limit = _)) in * by done.
      destruct (decide (asked + chunk_size `min` (limit - asked) = limit)%Z); [|lia].
      exfalso. apply Hreached. done. }
    { rewrite length_drop. lia. }
    eexists. split; [done|]. cbn [app].
    rewrite yielded_fetch, Hyielded, <-fmap_app. f_equal.
    case_bool_decide as Hlimit.
    + unfold chunk. by rewrite take_drop.
    + unfold chunk.
      replace (Z.to_nat (limit - asked))
        with (Z.to_nat size + Z.to_nat (limit - (asked + size)))%nat.
      2: { unfold size in *. lia. }
      by rewrite take_take_drop.
Qed.

(** X6.  Cutting the query into chunks does not change what is yielded, when
    the things queried do not change and no two of them have the same
    sort key: [join_paginated_iter] returns, and has yielded the things
    after [last], up to the limit, in their order, which is what it
    yields when it does not chunk. *)
Theorem join_paginated_iter_chunks_unseen things (chunk_size : Z) (last : option T)
    (limit : Z) w (fuel : nat) :
  NoDup things.*2 → (0 < chunk_size)%Z → (0 ≤ limit)%Z → length things < fuel →
  (join_paginated_iter (get_things_of things) chunk_size last limit w fuel).2 = true
  ∧ yielded (join_paginated_iter (get_things_of things) chunk_size last limit w fuel).1
    = (if bool_decide (limit = 0%Z)
       then from_option (λ k, things_after k things) things last
       else take (Z.to_nat limit)
              (from_option (λ k, things_after k things) things last)).*1
  ∧ yielded (join_paginated_iter (get_things_of things) chunk_size last limit w fuel).1
    = yielded (join_paginated_iter (get_things_of things) 0 last limit w 0).1.
Proof.
  intros Hnodup Hchunk Hlimit Hfuel.
  set (rest := from_option (λ k, things_after k things) things last).
  assert (length rest ≤ length things) as Hrest.
  { apply suffix_length. unfold rest. destruct last; [apply things_after_suffix|done]. }
  assert (yielded (join_paginated_iter (get_things_of things) 0 last limit w 0).1
          = (if bool_decide (limit = 0%Z) then rest else take (Z.to_nat limit) rest).*1)
    as Hunchunked.
  { unfold join_paginated_iter. rewrite bool_decide_true by done.
    unfold get_things_of. fold rest. cbn [fst].
    rewrite <-(app_nil_r (yield_from _)), yielded_fetch. simpl. by rewrite app_nil_r. }
  rewrite Hunchunked.
  unfold join_paginated_iter. rewrite bool_decide_false by lia.
  destruct (decide (limit = 0%Z)) as [->|Hne].
  - rewrite (paginated_loop_unlimited _ chunk_size fuel 0 0) by done.
    destruct (paginate_spec_get_things_of things chunk_size 0 fuel 0 last w)
      as (events & -> & Hyielded); [done|done|by left|fold rest; lia|].
    cbn [fst snd]. by rewrite Hyielded.
  - rewrite paginated_loop_limited, Z.sub_diag by lia.
    destruct (paginate_spec_get_things_of things chunk_size limit fuel 0 last w)
      as (events & -> & Hyielded); [done|done|right; lia|fold rest; lia|].
    cbn [fst snd]. rewrite Hyielded. by rewrite Z.sub_0_r.
Qed.

End get_things_of.

(** *** A [get_things] that returns no more than it is asked for *)

Section within_limit.
Context {T U W : Type}.
Variable get_things : Z → option T → W → list (U * T) * W.

Lemma yielded_fetch_length (size : Z) (last : option T) (chunk : list (U * T))
    (events : list (@event T U)) :
  length (yielded (Fetch size last chunk :: yield_from chunk ++ events))
  = length chunk + length (yielded events).
Proof.
  unfold yielded. simpl. rewrite omap_app, length_app. f_equal.
  unfold yield_from. induction chunk as [|thing chunk IH]; [done|].
  simpl. by f_equal.
Qed.

Lemma paginate_spec_yielded (chunk_size limit : Z) (fuel : nat) (asked : Z)
    (cursor : option T) (w : W) :
  (∀ size last w, (0 < size)%Z →
                  (Z.of_nat (length (get_things size last w).1) ≤ size)%Z) →
  (0 < chunk_size)%Z → (limit = 0 ∨ asked < limit)%Z →
  (Z.of_nat (length (yielded
               (paginate_spec get_things chunk_size limit fuel asked cursor w).1))
   ≤ foldr Z.add 0
       (requested (paginate_spec get_things chunk_size limit fuel asked cursor w).1))%Z.
Proof.
  intros Hhonest Hchunk. revert asked cursor w.
  induction fuel as [|fuel IH]; intros asked cursor w Hasked; simpl; [done|].
  set (size := if bool_decide (limit = 0%Z) then chunk_size
               else (chunk_size `min` (limit - asked))%Z).
  assert (0 < size)%Z as Hsize by (unfold size; case_bool_decide; lia).
  specialize (Hhonest size cursor w Hsize).
  destruct (get_things size cursor w) as [chunk w']. simpl in Hhonest.
  destruct (bool_decide _ || bool_decide _) eqn:Hstop.
  - cbn [fst]. rewrite <-(app_nil_r (yield_from chunk)), yielded_fetch_length.
    rewrite app_nil_r, requested_fetch, requested_yield_from. simpl. lia.
  - apply orb_false_iff in Hstop as [_ Hreached%bool_decide_eq_false].
    specialize (IH (asked + size)%Z (snd <$> list.last chunk) w').
    destruct (paginate_spec _ _ _ fuel _ _ _) as [events' returned'].
    cbn [fst app] in *. rewrite yielded_fetch_length.
    rewrite requested_fetch, requested_app, requested_yield_from. simpl.
    assert (limit = 0 ∨ asked + size < limit)%Z as Hnext; [|specialize (IH Hnext); lia].
    destruct (decide (limit = 0%Z)); [by left|right].
    unfold size in *. rewrite bool_decide_false in * by done.
    destruct (decide (asked + chunk_size `min` (limit - asked) = limit)%Z); [|lia].
    exfalso. by apply Hreached.
Qed.

(** X7.  Under a limit, [join_paginated_iter] returns, after [limit] calls at
    most, and has yielded no more than [limit] things, when no call of
    [get_things] returns more things than it was asked for; every call
    asks for one thing at least and for [chunk_size] at most. *)
Theorem join_paginated_iter_within_limit (chunk_size : Z) (last : option T)
    (limit : Z) (w : W) (fuel : nat) :
  (∀ size last w, (0 < size)%Z →
                  (Z.of_nat (length (get_things size last w).1) ≤ size)%Z) →
  (0 < chunk_size)%Z → (0 < limit ≤ Z.of_nat fuel)%Z →
  (join_paginated_iter get_things chunk_size last limit w fuel).2 = true
  ∧ (Z.of_nat (length (yielded
        (join_paginated_iter get_things chunk_size last limit w fuel).1)) ≤ limit)%Z
  ∧ Forall (λ size, 0 < size ≤ chunk_size)%Z
      (requested (join_paginated_iter get_things chunk_size last limit w fuel).1).
Proof.
  intros Hhonest Hchunk Hlimit.
  destruct (join_paginated_iter_limited get_things chunk_size last limit w fuel)
    as (Hreturned & Hsizes & Hsum); [done..|].
  split_and!; [done| |done]. etrans; [|exact Hsum].
  unfold join_paginated_iter. rewrite bool_decide_false by lia.
  rewrite paginated_loop_limited, Z.sub_diag by lia.
  apply paginate_spec_yielded; [done..|lia].
Qed.

End within_limit.

(** *** The docstring's examples *)

Import concrete.

Lemma join_paginated_iter_contract_witness :
  join_paginated_iter count_to_ten 4 (Some 4%Z) 5 tt 2
  = ([Fetch 4 (Some 4%Z) [(5, 5); (6, 6); (7, 7); (8, 8)]%Z;
      Yield 5%Z; Yield 6%Z; Yield 7%Z; Yield 8%Z;
      Fetch 1 (Some 8%Z) [(9, 9)]%Z; Yield 9%Z], true).
Proof.
  rewrite (join_paginated_iter_contract count_to_ten 4 (Some 4%Z) 5 tt 2)
    by lia.
  reflexivity.
Defined.

Example join_paginated_iter_three_calls :
  requested (join_paginated_iter count_to_ten 4 None 0 tt 3).1 = [4; 4; 4]%Z
  ∧ yielded (join_paginated_iter count_to_ten 4 None 0 tt 3).1
    = [1; 2; 3; 4; 5; 6; 7; 8; 9; 10]%Z
  ∧ (join_paginated_iter count_to_ten 4 None 0 tt 3).2 = true.
Proof. by vm_compute. Qed.

Example join_paginated_iter_unchunked :
  requested (join_paginated_iter count_to_ten 0 (Some 4%Z) 5 tt 0).1 = [5%Z]
  ∧ yielded (join_paginated_iter count_to_ten 0 (Some 4%Z) 5 tt 0).1
    = [5; 6; 7; 8; 9]%Z.
Proof. by vm_compute. Qed.

Lemma join_paginated_iter_chunks_unseen_witness :
  yielded (join_paginated_iter (get_things_of (W := unit) one_to_ten) 4 (Some 4%Z) 5 tt 11).1
  = [5; 6; 7; 8; 9]%Z
  ∧ yielded (join_paginated_iter (get_things_of (W := unit) one_to_ten) 4 (Some 4%Z) 5 tt 11).1
    = yielded (join_paginated_iter (get_things_of (W := unit) one_to_ten) 0 (Some 4%Z) 5 tt 0).1.
Proof.
  split; [by vm_compute|].
  refine (proj2 (proj2 (join_paginated_iter_chunks_unseen (W := unit) one_to_ten
                          4 (Some 4%Z) 5 tt 11 _ _ _ _))); [|lia|lia|simpl; lia].
  apply (bool_decide_unpack _). by vm_compute.
Defined.

Lemma count_to_ten_size (size : Z) (last : option Z) (w : unit) :
  (0 < size)%Z → (Z.of_nat (length (count_to_ten size last w).1) ≤ size)%Z.
Proof.
  intros Hsize. unfold count_to_ten. simpl.
  rewrite bool_decide_false by lia. rewrite length_fmap, length_take. lia.
Qed.

Lemma join_paginated_iter_within_limit_witness :
  yielded (join_paginated_iter count_to_ten 4 None 6 tt 6).1 = [1; 2; 3; 4; 5; 6]%Z
  ∧ (join_paginated_iter count_to_ten 4 None 6 tt 6).2 = true
  ∧ requested (join_paginated_iter count_to_ten 4 None 6 tt 6).1 = [4; 2]%Z.
Proof.
  split; [by vm_compute|]. split; [|by vm_compute].
  exact (proj1 (join_paginated_iter_within_limit count_to_ten 4 None 6 tt 6
                  count_to_ten_size ltac:(lia) ltac:(lia))).
Defined.

End pagination_facts.

(** ** reader/_utils.py: [make_pool_map] *)

Module pool_facts.
Import _utils.

Section make_pool_map.
Context {T U : Type} (fn : T → result U).
Implicit Types (s : @state T) (l : label) (inputs : list T).

(** The invariant holds at the start and is kept by every step. *)
Lemma initial_inv (workers : Z) inputs :
  (0 ≤ workers)%Z → pool_inv workers fn inputs (initial inputs).
Proof.
  intros Hw. split; simpl; try done; [constructor|].
  by intros _ f ?%elem_of_nil.
Qed.

(** The cases of a step. *)
Ltac step_cases H :=
  unfold imap_unordered_step in H;
  repeat (simplify_eq/=; 
          match type of H with
          | context [match ?x with _ => _ end] => destruct x eqn:?
          end); simplify_eq/=.

Lemma size_non_empty_L (X : gset nat) : X ≠ ∅ → size X ≠ 0.
Proof. intros HX Hs. by apply HX, leibniz_equiv, size_empty_inv. Qed.

Ltac bool_hyps :=
  repeat match goal with
    | H : bool_decide _ = true |- _ => apply bool_decide_eq_true in H
    | H : bool_decide _ = false |- _ => apply bool_decide_eq_false in H
    | H : _ && _ = true |- _ => apply andb_true_iff in H as [? ?]
    | H : _ || _ = false |- _ => apply orb_false_iff in H as [? ?]
    | H : _ && _ = false |- _ => apply andb_false_iff in H
    | H : _ || _ = true |- _ => apply orb_true_iff in H
    | H : negb _ = true |- _ => apply negb_true_iff in H
    | H : negb _ = false |- _ => apply negb_false_iff in H
    end.

Lemma goto_inv (workers : Z) inputs (loc : location) s :
  pool_inv workers fn inputs s →
  match loc with
  | Created => pending s = ∅ ∧ done s = ∅
  | Outer | Inner => done s = ∅
  | Waiting => done s = ∅ ∧ pending s ≠ ∅
  | Popping | Yielded => True
  | Finished => done s = ∅ ∧ pending s = ∅ ∧ iterable_ended s = true
  | Raised _ => False
  end →
  (∀ e, at_ s ≠ Raised e) →
  pool_inv workers fn inputs (goto loc s).
Proof.
  intros [] Hloc Hat. split; simpl; try done.
  - by destruct loc.
  - eauto.
Qed.

Lemma pop_inv (workers : Z) inputs (f : nat) (loc : location) s :
  pool_inv workers fn inputs s → (∀ e, at_ s ≠ Raised e) → f ∈ done s →
  (∃ arg, submitted s !! f = Some arg
          ∧ match loc with
            | Yielded => ∃ u, fn arg = Return u
            | Raised e => fn arg = Raise e
            | _ => False
            end) →
  pool_inv workers fn inputs (pop f loc s).
Proof.
  intros [Hin Hend Hfut Hdisj Hnodup Hout Hdone Hcomp Hbound Hloc Hval] Hat Hf
    (arg & Harg & Hfn).
  split; simpl; try done.
  - rewrite list_to_set_app_L, <-Hfut. simpl. rewrite union_empty_r_L.
    apply set_eq. intros g. destruct (decide (g = f)); set_solver.
  - set_solver.
  - apply NoDup_app. split_and!; [done| |apply NoDup_singleton].
    intros g Hg ->%list_elem_of_singleton. specialize (Hout _ Hg). set_solver.
  - intros g [Hg| ->%list_elem_of_singleton]%elem_of_app.
    + specialize (Hout _ Hg). set_solver.
    + set_solver.
  - rewrite list_to_set_app_L. set_solver.
  - etrans; [|exact Hbound]. apply inj_le, subseteq_size. set_solver.
  - destruct loc; try done. exists f, arg. split; [|done]. set_solver.
  - intros Hloc' g [Hg| ->%list_elem_of_singleton]%elem_of_app; [by apply Hval|].
    destruct loc; try done; [|by destruct (Hloc' e)].
    destruct Hfn as [u Hu]. eauto.
Qed.

Lemma step_inv (workers : Z) inputs l s s' :
  (1 ≤ workers)%Z →
  pool_inv workers fn inputs s → imap_unordered_step workers fn l s = Some s' →
  pool_inv workers fn inputs s'.
Proof.
  intros Hw [Hin Hend Hfut Hdisj Hnodup Hout Hdone Hcomp Hbound Hloc Hval] Hstep.
  pose proof (Build_pool_inv workers fn _ s Hin Hend Hfut Hdisj Hnodup Hout Hdone Hcomp Hbound Hloc Hval) as Hinv.
  step_cases Hstep; bool_hyps.
  - apply goto_inv; [done| |congruence]. naive_solver.
  - apply goto_inv; [done..|congruence].
  - apply goto_inv; [done..|congruence].
  - apply goto_inv; [done| |congruence]. split_and!; [done| |done].
    destruct (decide (pending s = ∅)); naive_solver.
  - (* the source is exhausted *)
    split; simpl; try done; [congruence| |].
    + by match goal with H : at_ s = _ |- _ => rewrite H end.
    + intros _. by apply Hval.
  - (* a task is submitted *)
    assert (length (submitted s) ∉ pending s ∪ done s ∪ list_to_set (popped s))
      as Hfresh by (rewrite Hfut; set_solver by lia).
    split; simpl.
    + by rewrite <-app_assoc.
    + congruence.
    + rewrite length_app, Nat.add_1_r, set_seq_S_end_union_L. simpl.
      rewrite <-Hfut. set_solver.
    + set_solver.
    + done.
    + intros f Hf. specialize (Hout f Hf). set_solver.
    + done.
    + rewrite length_app, Nat.add_1_r, set_seq_S_end_union_L. set_solver.
    + rewrite Hloc, union_empty_r_L, size_union, size_singleton by set_solver. lia.
    + by match goal with H : at_ s = _ |- _ => rewrite H end.
    + intros _ f Hf. destruct (Hval ltac:(done) f Hf) as (arg & u & Harg & Hu).
      exists arg, u. split; [|done]. by apply lookup_app_l_Some.
  - (* nothing to wait for *)
    apply goto_inv; [done| |congruence]. split_and!; [done..|].
    destruct (iterable_ended s); [done|].
    match goal with
    | H : _ ∨ _, He : pending s = ∅ |- _ =>
        destruct H as [H%bool_decide_eq_false|]; [|done];
        rewrite He, size_empty in H; lia
    end.
  - apply goto_inv; [done..|congruence].
  - apply goto_inv; [done..|congruence].
  - (* wait returns *)
    destruct Hloc as [Hd _].
    match goal with H : D ≠ ∅ ∧ _ |- _ => destruct H as [_ HD] end.
    assert (pending s ∖ D ∪ D = pending s ∪ done s) as Heq.
    { rewrite Hd, union_empty_r_L. apply set_eq. intros f.
      destruct (decide (f ∈ D)); set_solver. }
    split; simpl; try done.
    + by rewrite Heq.
    + set_solver.
    + intros f Hf. rewrite Heq. by apply Hout.
    + set_solver.
    + by rewrite Heq.
    + intros _. by apply Hval.
  - (* a result is yielded *)
    match goal with H : fn <$> _ = _ |- _ => apply fmap_Some in H as (arg & ? & ?) end.
    apply pop_inv; [done|congruence|done|]. eauto.
  - (* [result()] raises *)
    match goal with H : fn <$> _ = _ |- _ => apply fmap_Some in H as (arg & ? & ?) end.
    apply pop_inv; [done|congruence|done|]. eauto.
  - (* a task completes *)
    match goal with H : _ < _ ∧ _ |- _ => destruct H as [Hf Hnew] end.
    split; simpl; try done.
    + set_solver.
    + set_solver by lia.
Qed.

Lemma exec_inv (workers : Z) inputs ls s s' :
  (1 ≤ workers)%Z →
  pool_inv workers fn inputs s → exec workers fn ls s = Some s' →
  pool_inv workers fn inputs s'.
Proof.
  intros Hw. revert s. induction ls as [|l ls IH]; intros s Hinv Hexec; simplify_eq/=.
  - done.
  - destruct (imap_unordered_step workers fn l s) as [s1|] eqn:Hstep; [|done].
    eauto using step_inv.
Qed.

Lemma reachable_inv (workers : Z) inputs s :
  (1 ≤ workers)%Z → reachable workers fn inputs s → pool_inv workers fn inputs s.
Proof.
  intros Hw [ls Hls]. eapply exec_inv; [done| |done]. apply initial_inv. lia.
Qed.

Lemma exec_app (workers : Z) ls ls' s :
  exec workers fn (ls ++ ls') s = exec workers fn ls s ≫= exec workers fn ls'.
Proof.
  revert s. induction ls as [|l ls IH]; intros s; simpl; [done|].
  by destruct (imap_unordered_step workers fn l s).
Qed.

Lemma reachable_exec (workers : Z) inputs ls s s' :
  reachable workers fn inputs s → exec workers fn ls s = Some s' →
  reachable workers fn inputs s'.
Proof.
  intros [ls0 Hls0] Hls. exists (ls0 ++ ls). by rewrite exec_app, Hls0.
Qed.

(** Every step lowers [steps_left]. *)
Lemma step_steps_left (workers : Z) inputs l s s' :
  pool_inv workers fn inputs s → imap_unordered_step workers fn l s = Some s' →
  steps_left s' < steps_left s.
Proof.
  intros [Hin Hend Hfut Hdisj Hnodup Hout Hdone Hcomp Hbound Hloc Hval] Hstep.
  step_cases Hstep; bool_hyps; unfold steps_left;
    cbn [iterable iterable_ended pending done at_ submitted completed
         goto end_iterable submit wait_returns pop complete];
    try match goal with H : at_ s = _ |- _ => rewrite H end;
    cbn [location_rank]; try lia.
  - (* the source is exhausted *)
    match goal with H : iterable_ended s = false |- _ => rewrite H end. lia.
  - (* a task is submitted *)
    match goal with H : iterable s = _ :: _ |- _ => rewrite H end.
    cbn [length].
    assert (length (submitted s) ∉ pending s) as Hfresh.
    { intros Hf. assert (length (submitted s) ∈ set_seq (C:=gset nat) 0 (length (submitted s)))
        as ?%elem_of_set_seq by (rewrite <-Hfut; set_solver). lia. }
    rewrite size_union, size_singleton by set_solver.
    rewrite length_app. simpl. lia.
  - (* wait returns *)
    match goal with H : D ≠ ∅ ∧ _ |- _ => destruct H as [HD Hsub] end.
    rewrite size_difference by set_solver.
    assert (size D ≠ 0) by (by apply size_non_empty_L).
    assert (size D ≤ size (pending s)) by (apply subseteq_size; set_solver).
    lia.
  - (* a result is yielded *)
    rewrite size_difference, size_singleton by set_solver.
    assert (size (done s) ≠ 0) by (apply size_non_empty_L; set_solver).
    lia.
  - (* [result()] raises *)
    rewrite size_difference, size_singleton by set_solver.
    assert (size (done s) ≠ 0) by (apply size_non_empty_L; set_solver).
    lia.
  - (* a task completes *)
    match goal with H : _ < _ ∧ _ |- _ => destruct H as [Hf Hnew] end.
    rewrite size_union, size_singleton by set_solver.
    assert (size ({[f]} ∪ completed s) ≤ length (submitted s)).
    { rewrite <-(size_set_seq (C:=gset nat) 0 (length (submitted s))).
      apply subseteq_size. set_solver by lia. }
    rewrite size_union, size_singleton in * by set_solver. lia.
Qed.
(** A run is no longer than [steps_left] of the state it starts from. *)
Lemma exec_steps_left (workers : Z) inputs ls s s' :
  (1 ≤ workers)%Z →
  pool_inv workers fn inputs s → exec workers fn ls s = Some s' →
  length ls + steps_left s' ≤ steps_left s.
Proof.
  intros Hw. revert s. induction ls as [|l ls IH]; intros s Hinv Hexec; simplify_eq/=.
  - done.
  - destruct (imap_unordered_step workers fn l s) as [s1|] eqn:Hstep; [|done].
    pose proof (step_steps_left _ _ _ _ _ Hinv Hstep).
    pose proof (IH s1 (step_inv _ _ _ _ _ Hw Hinv Hstep) Hexec). lia.
Qed.

(** Unless the generator is over, somebody can move. *)
Lemma step_progress (workers : Z) inputs s :
  pool_inv workers fn inputs s → at_ s ≠ Finished → (∀ e, at_ s ≠ Raised e) →
  ∃ l s', imap_unordered_step workers fn l s = Some s'.
Proof.
  intros [Hin Hend Hfut Hdisj Hnodup Hout Hdone Hcomp Hbound Hloc Hval] Hat Hat'.
  destruct (at_ s) eqn:Hl; [| | | | | |done|by destruct (Hat' e)].
  - exists Next. unfold imap_unordered_step. rewrite Hl. eauto.
  - exists Run. unfold imap_unordered_step. rewrite Hl. case_match; eauto.
  - exists Run. unfold imap_unordered_step. rewrite Hl. repeat case_match; eauto.
  - destruct Hloc as [_ Hp].
    apply set_choose_L in Hp as [f Hf].
    destruct (decide (f ∈ completed s)) as [Hc|Hc].
    + exists (WaitReturns {[f]}). unfold imap_unordered_step. rewrite Hl.
      rewrite bool_decide_true by set_solver. eauto.
    + exists (Completes f). unfold imap_unordered_step.
      rewrite bool_decide_true; [eauto|]. split; [|done].
      assert (f ∈ set_seq (C:=gset nat) 0 (length (submitted s)))
        as ?%elem_of_set_seq by (rewrite <-Hfut; set_solver). lia.
  - destruct (decide (done s = ∅)) as [Hd|Hd].
    + exists Run. unfold imap_unordered_step. rewrite Hl, bool_decide_true by done. eauto.
    + apply set_choose_L in Hd as [f Hf].
      assert (is_Some (submitted s !! f)) as [arg Harg].
      { apply lookup_lt_is_Some.
        assert (f ∈ set_seq (C:=gset nat) 0 (length (submitted s)))
          as ?%elem_of_set_seq by (rewrite <-Hfut; set_solver). lia. }
      exists (Pops f). unfold imap_unordered_step.
      rewrite Hl, bool_decide_true, Harg by done. simpl. destruct (fn arg); eauto.
  - exists Next. unfold imap_unordered_step. rewrite Hl. eauto.
Qed.

(** The tasks in flight are among the pending futures. *)
Lemma in_flight_pending (workers : Z) inputs s :
  pool_inv workers fn inputs s → in_flight s ⊆ pending s.
Proof.
  intros [Hin Hend Hfut Hdisj Hnodup Hout Hdone Hcomp Hbound Hloc Hval].
  unfold in_flight. rewrite <-Hfut. set_solver.
Qed.

Lemma in_flight_bound (workers : Z) inputs s :
  pool_inv workers fn inputs s →
  (Z.of_nat (size (in_flight s)) ≤ Z.of_nat (size (pending s)) ≤ workers)%Z.
Proof.
  intros Hinv. pose proof (in_flight_pending _ _ _ Hinv) as Hsub.
  destruct Hinv as [Hin Hend Hfut Hdisj Hnodup Hout Hdone Hcomp Hbound Hloc Hval].
  apply subseteq_size in Hsub.
  assert (size (pending s) ≤ size (pending s ∪ done s))
    by (apply subseteq_size; set_solver).
  lia.
Qed.

(** A list without duplicates that holds the numbers below [n], and only
    them, is a permutation of them. *)
Lemma NoDup_seq_Permutation (l : list nat) (n : nat) :
  NoDup l → list_to_set (C:=gset nat) l = set_seq 0 n → l ≡ₚ seq 0 n.
Proof.
  intros Hl Hset. apply NoDup_Permutation; [done|apply NoDup_seq|].
  intros f. rewrite elem_of_seq.
  rewrite <-(elem_of_list_to_set (C:=gset nat)), Hset, elem_of_set_seq. lia.
Qed.

Lemma omap_lookup_seq {A B} (g : A → B) (done_ l : list A) :
  omap (λ i, g <$> (done_ ++ l) !! i) (seq (length done_) (length l)) = g <$> l.
Proof.
  revert done_. induction l as [|a l IH]; intros done_; [done|].
  simpl. rewrite list_lookup_middle by done. simpl. f_equal.
  specialize (IH (done_ ++ [a])).
  rewrite <-app_assoc, length_app, Nat.add_1_r in IH. done.
Qed.

(** Unless the generator was left by an exception, what it yielded is
    what the calls of the futures popped returned. *)
Lemma yielded_results_calls (workers : Z) inputs s :
  pool_inv workers fn inputs s → (∀ e, at_ s ≠ Raised e) →
  Return <$> yielded_results fn s = omap (λ f, fn <$> submitted s !! f) (popped s).
Proof.
  intros [_ _ _ _ _ _ _ _ _ _ Hval] Hat.
  specialize (Hval Hat). clear Hat. unfold yielded_results.
  induction (popped s) as [|f fs IH]; [done|].
  destruct (Hval f) as (arg & u & Harg & Hu); [left|].
  simpl. unfold result_of at 1. rewrite Harg. simpl. rewrite Hu. simpl.
  f_equal. apply IH. intros g Hg. apply Hval. by right.
Qed.

(** When the generator has returned, what it yielded is, up to the order,
    the results of the inputs, none of which raised. *)
Lemma finished_results (workers : Z) inputs s :
  pool_inv workers fn inputs s → at_ s = Finished →
  Return <$> yielded_results fn s ≡ₚ fn <$> inputs.
Proof.
  intros Hinv Hat.
  rewrite (yielded_results_calls workers inputs) by (done || congruence).
  destruct Hinv as [Hin Hend Hfut Hdisj Hnodup Hout Hdone Hcomp Hbound Hloc Hval].
  rewrite Hat in Hloc. destruct Hloc as (Hd & Hp & He).
  rewrite Hin, (Hend He), app_nil_r.
  rewrite (NoDup_seq_Permutation (popped s) (length (submitted s))).
  - apply reflexive_eq, (omap_lookup_seq fn []).
  - done.
  - by rewrite <-Hfut, Hd, Hp, !union_empty_l_L.
Qed.

(** The generator is left by an exception only if the call of some input
    raised it. *)
Lemma raised_by_input (workers : Z) inputs s (e : exn) :
  pool_inv workers fn inputs s → at_ s = Raised e →
  ∃ x, x ∈ inputs ∧ fn x = Raise e.
Proof.
  intros [Hin Hend Hfut Hdisj Hnodup Hout Hdone Hcomp Hbound Hloc Hval] Hat.
  rewrite Hat in Hloc. destruct Hloc as (f & arg & _ & Harg & Hfn).
  exists arg. split; [|done]. rewrite Hin. apply elem_of_app. left.
  by eapply list_elem_of_lookup_2.
Qed.

(** No step withdraws a future submitted, or undoes a completion. *)
Lemma step_monotone (workers : Z) l s s' :
  imap_unordered_step workers fn l s = Some s' →
  submitted s `prefix_of` submitted s' ∧ completed s ⊆ completed s'.
Proof.
  intros Hstep. step_cases Hstep; split; try done; try set_solver.
  by apply prefix_app_r.
Qed.

(** What a step of a worker thread changes: the set of completed
    futures, by one that was in flight. *)
Lemma step_completes (workers : Z) f s s' :
  imap_unordered_step workers fn (Completes f) s = Some s' →
  f ∈ in_flight s ∧ s' = complete f s.
Proof.
  unfold imap_unordered_step, in_flight. intros Hstep. case_bool_decide as Hf; simplify_eq.
  split; [|done]. destruct Hf. set_solver by lia.
Qed.

(** While the generator is suspended, only worker threads move. *)
Lemma step_suspended (workers : Z) l s s' :
  suspended s → l ≠ Next → imap_unordered_step workers fn l s = Some s' →
  ∃ f, l = Completes f.
Proof.
  intros [Hat|[Hat|[Hat|[e Hat]]]] Hl Hstep; unfold imap_unordered_step in Hstep;
    rewrite Hat in Hstep; destruct l; simplify_eq; eauto.
Qed.

Lemma exec_idle (workers : Z) ls s s' :
  suspended s → consumer_idle ls → exec workers fn ls s = Some s' →
  iterable s' = iterable s ∧ iterable_ended s' = iterable_ended s
  ∧ pending s' = pending s ∧ done s' = done s ∧ at_ s' = at_ s
  ∧ submitted s' = submitted s ∧ popped s' = popped s
  ∧ completed s ⊆ completed s'
  ∧ Forall (λ l, ∃ f, l = Completes f) ls.
Proof.
  unfold consumer_idle. revert s.
  induction ls as [|l ls IH]; intros s Hs Hidle Hexec; simplify_eq/=.
  - done.
  - destruct (imap_unordered_step workers fn l s) as [s1|] eqn:Hstep; [|done].
    apply not_elem_of_cons in Hidle as [Hl Hidle].
    destruct (step_suspended _ _ _ _ Hs (not_eq_sym Hl) Hstep) as [f ->].
    apply step_completes in Hstep as [_ ->].
    destruct (IH (complete f s)) as (-> & -> & -> & -> & -> & -> & -> & Hc & Hls);
      [done..|].
    split_and!; try done; [|constructor; eauto]. simpl in Hc. set_solver.
Qed.

(** The worker threads can finish all tasks in flight. *)
Lemma exec_complete_all (workers : Z) (fs : list nat) s :
  NoDup fs → (∀ f, f ∈ fs → f ∈ in_flight s) →
  ∃ s', exec workers fn (Completes <$> fs) s = Some s'
        ∧ completed s' = list_to_set fs ∪ completed s
        ∧ submitted s' = submitted s.
Proof.
  revert s. induction fs as [|f fs IH]; intros s Hnd Hfs.
  - exists s. split_and!; [done| |done]. set_solver.
  - apply NoDup_cons in Hnd as [Hf Hnd].
    assert (f ∈ in_flight s) as Hin by (apply Hfs; left).
    unfold in_flight in Hin.
    simpl. rewrite bool_decide_true by (set_unfold; naive_solver lia).
    destruct (IH (complete f s)) as (s' & Hexec & Hc & Hsub); [done| |].
    { intros g Hg. specialize (Hfs g ltac:(by right)).
      unfold in_flight in *. simpl. set_solver. }
    exists s'. split_and!; [done| |done]. rewrite Hc. simpl. set_solver.
Qed.

(** A label submits a task only from the refill loop, with a free slot. *)
Lemma submits_inner (workers : Z) l s :
  submits workers fn l s →
  l = Run ∧ at_ s = Inner ∧ (Z.of_nat (size (pending s)) < workers)%Z
  ∧ iterable_ended s = false.
Proof.
  intros (s' & Hstep & Hlen). step_cases Hstep; bool_hyps; simpl in Hlen;
    try lia. done.
Qed.

(** C6 (as amended).  In every state the pool reaches, with
    [workers >= 1]: at most [workers] tasks are in flight, all of them
    among the pending futures; a task is submitted only while fewer than
    [workers] futures are pending; a result is yielded only for a task
    that has completed, one completed pending task is enough for [wait]
    to return, and what [wait] reported is popped before the generator
    does anything else; no future is popped twice, and when the generator
    has returned the results yielded are, in some order, the results of
    all the inputs; the generator has returned only if the source is
    exhausted and no task is pending or in flight, and at its loop test
    it returns exactly in that case.  It is left by an exception only if
    the call for one of the inputs raised it, and then takes no step any
    more: only the tasks in flight go on.  Every run is finite, and only
    a generator that is over has no step left.  So when no call raises,
    the generator is never left by an exception, and a run that can go
    no further has returned, with one result for every input. *)
Theorem imap_unordered_bounded (workers : Z) inputs s :
  (1 ≤ workers)%Z → reachable workers fn inputs s →
  (in_flight s ⊆ pending s
   ∧ (Z.of_nat (size (in_flight s)) ≤ Z.of_nat (size (pending s)) ≤ workers)%Z)
  ∧ (∀ l, submits workers fn l s →
          at_ s = Inner ∧ (Z.of_nat (size (pending s)) < workers)%Z)
  ∧ (list_to_set (popped s) ⊆ completed s
     ∧ (∀ f, at_ s = Waiting → f ∈ pending s → f ∈ completed s →
             is_Some (imap_unordered_step workers fn (WaitReturns {[f]}) s))
     ∧ (∀ l s', at_ s = Popping → done s ≠ ∅ → imap_unordered_step workers fn l s = Some s' →
                (∃ f, l = Completes f)
                ∨ (∃ f, l = Pops f ∧ f ∈ done s
                        ∧ popped s' = popped s ++ [f])))
  ∧ (NoDup (popped s)
     ∧ (at_ s = Finished → Return <$> yielded_results fn s ≡ₚ fn <$> inputs))
  ∧ ((at_ s = Finished →
      iterable s = [] ∧ iterable_ended s = true
      ∧ pending s = ∅ ∧ done s = ∅ ∧ in_flight s = ∅)
     ∧ (at_ s = Outer →
        imap_unordered_step workers fn Run s
        = Some (goto (if bool_decide (pending s = ∅ ∧ iterable_ended s = true)
                      then Finished else Inner) s))
     ∧ (∀ e, at_ s = Raised e →
             (∃ x, x ∈ inputs ∧ fn x = Raise e)
             ∧ ∀ l s', imap_unordered_step workers fn l s = Some s' →
                       ∃ f, l = Completes f)
     ∧ (∀ ls s', exec workers fn ls s = Some s' → length ls ≤ steps_left s)
     ∧ (at_ s ≠ Finished → (∀ e, at_ s ≠ Raised e) →
        ∃ l s', imap_unordered_step workers fn l s = Some s')
     ∧ ((∀ x, x ∈ inputs → ∃ u, fn x = Return u) →
        (∀ e, at_ s ≠ Raised e)
        ∧ ((¬ ∃ l s', imap_unordered_step workers fn l s = Some s') →
           at_ s = Finished
           ∧ Return <$> yielded_results fn s ≡ₚ fn <$> inputs))).
Proof.
  intros Hw Hreach. pose proof (reachable_inv _ _ _ Hw Hreach) as Hinv.
  pose proof (in_flight_pending _ _ _ Hinv) as Hflight.
  assert ((∀ x, x ∈ inputs → ∃ u, fn x = Return u) → ∀ e, at_ s ≠ Raised e)
    as Hnever.
  { intros Hno e Hat.
    destruct (raised_by_input workers _ _ e Hinv Hat) as (x & Hx & Hraise).
    destruct (Hno x Hx) as [u Hu]. congruence. }
  split_and!.
  - done.
  - by apply (in_flight_bound _ _ _ Hinv).
  - by apply (in_flight_bound _ _ _ Hinv).
  - intros l Hl. by destruct (submits_inner _ _ _ Hl) as (_ & ? & ? & _).
  - destruct Hinv. set_solver.
  - intros f Hat Hp Hc. unfold imap_unordered_step. rewrite Hat.
    rewrite bool_decide_true by set_solver. eauto.
  - intros l s' Hat Hd Hstep. unfold imap_unordered_step in Hstep. rewrite Hat in Hstep.
    destruct l; simplify_eq; try case_bool_decide; repeat case_match;
      simplify_eq; eauto 10.
  - by destruct Hinv.
  - by apply (finished_results workers).
  - intros Hat. destruct Hinv as [? Hend ? ? ? ? ? ? ? Hloc].
    rewrite Hat in Hloc. destruct Hloc as (Hd & Hp & He).
    split_and!; try done; [by apply Hend|]. set_solver.
  - intros Hat. unfold imap_unordered_step. rewrite Hat.
    destruct (iterable_ended s); simpl.
    + rewrite orb_false_r. repeat case_bool_decide; naive_solver.
    + rewrite orb_true_r. rewrite bool_decide_false; naive_solver.
  - intros e Hat. split; [exact (raised_by_input workers inputs s e Hinv Hat)|].
    intros l s' Hstep. unfold imap_unordered_step in Hstep. rewrite Hat in Hstep.
    destruct l; simplify_eq; eauto.
  - intros ls s' Hexec.
    pose proof (exec_steps_left _ _ _ _ _ Hw Hinv Hexec). lia.
  - by apply (step_progress _ inputs).
  - intros Hno. split; [by apply Hnever|]. intros Hstuck.
    assert (at_ s = Finished) as Hat.
    { destruct (at_ s) eqn:Hat; try done; exfalso; try (by eapply Hnever);
        apply Hstuck, (step_progress _ inputs); try done;
        rewrite Hat; done. }
    split; [done|]. by apply (finished_results workers).
Qed.

(** C7.  Once the consumer stops calling [next()], the generator being
    suspended (or over): whatever happens afterwards is the completion of a task by
    a worker thread; nothing is taken from the source and no task is
    submitted; of the tasks submitted none is withdrawn and none that has
    completed is undone (no step ever does that); every task in flight
    can take its completing step, whatever the generator and the other
    tasks do, and the worker threads can run every task submitted to
    completion. *)
Theorem early_stop_no_new_work (workers : Z) s s' (ls : list label) :
  suspended s → consumer_idle ls → exec workers fn ls s = Some s' →
  Forall (λ l, ∃ f, l = Completes f) ls
  ∧ (iterable s' = iterable s ∧ iterable_ended s' = iterable_ended s
     ∧ submitted s' = submitted s ∧ pending s' = pending s)
  ∧ (completed s ⊆ completed s'
     ∧ ∀ l (t t' : @state T), imap_unordered_step workers fn l t = Some t' →
                 submitted t `prefix_of` submitted t' ∧ completed t ⊆ completed t')
  ∧ (∀ f, f ∈ in_flight s' →
          imap_unordered_step workers fn (Completes f) s' = Some (complete f s'))
  ∧ (∃ ls' s'', consumer_idle ls' ∧ exec workers fn ls' s' = Some s''
                ∧ submitted s'' = submitted s ∧ in_flight s'' = ∅).
Proof.
  intros Hs Hidle Hexec.
  destruct (exec_idle _ _ _ _ Hs Hidle Hexec)
    as (Hi & He & Hp & Hd & Hat & Hsub & Hy & Hc & Hls).
  split_and!; try done.
  - apply step_monotone.
  - intros f Hf. unfold imap_unordered_step, in_flight in *.
    rewrite bool_decide_true; [done|]. set_unfold. naive_solver lia.
  - destruct (exec_complete_all workers (elements (in_flight s')) s')
      as (s'' & Hexec' & Hc' & Hsub'); [apply NoDup_elements|set_solver|].
    exists (Completes <$> elements (in_flight s')), s''.
    split_and!; [|done|congruence|].
    + unfold consumer_idle. by intros (f & ? & _)%list_elem_of_fmap.
    + unfold in_flight in *. rewrite Hc', Hsub'. set_solver.
Qed.

(** X21.  [imap_unordered] takes from the iterable as it goes: what it
    has submitted is the beginning of the iterable, what it has not taken
    yet is the rest, and the number of items taken is never more than
    [workers] above the number of futures popped for their results. *)
Theorem imap_unordered_lazy (workers : Z) inputs s :
  (1 ≤ workers)%Z → reachable workers fn inputs s →
  submitted s = take (length (submitted s)) inputs
  ∧ iterable s = drop (length (submitted s)) inputs
  ∧ (Z.of_nat (length (submitted s)) ≤ Z.of_nat (length (popped s)) + workers)%Z.
Proof.
  intros Hw Hreach.
  destruct (reachable_inv _ _ _ Hw Hreach)
    as [Hin Hend Hfut Hdisj Hnodup Hout Hdone Hcomp Hbound Hloc Hval].
  rewrite Hin, take_app_length, drop_app_length. split_and!; [done..|].
  rewrite <-(size_set_seq (C:=gset nat) 0 (length (submitted s))), <-Hfut.
  rewrite size_union by (set_unfold; intros f [Hf|Hf] Hp; apply (Hout f Hp); set_solver).
  rewrite size_list_to_set by done. lia.
Qed.

End make_pool_map.

(** *** A run with two workers over three urls *)

Import concrete.

Lemma imap_unordered_bounded_witness :
  ∃ s, exec 2 url_length first_result_run (initial ["a"; "bb"; "ccc"]) = Some s
       ∧ yielded_results url_length s = [2]
       ∧ (Z.of_nat (size (in_flight s)) ≤ Z.of_nat (size (pending s)) ≤ 2)%Z.
Proof.
  eexists. split; [vm_compute; reflexivity|]. split; [reflexivity|].
  match goal with
  | |- (Z.of_nat (size (in_flight ?s)) ≤ _ ≤ _)%Z =>
      apply (imap_unordered_bounded url_length 2 ["a"; "bb"; "ccc"] s)
  end; [lia|].
  exists first_result_run. vm_compute. reflexivity.
Defined.

(** The results come in the order of completion, not of submission: the
    second url, the first, the third. *)
Example imap_unordered_full_run :
  ∃ s, exec 2 url_length (first_result_run ++ rest_of_run)
         (initial ["a"; "bb"; "ccc"]) = Some s
       ∧ at_ s = Finished
       ∧ yielded_results url_length s = [2; 1; 3].
Proof. eexists. split; [vm_compute; reflexivity|]. by split. Qed.

(** C6, as the claim has it, fails.  When the call for the second url
    raises, [result()] raises it in the generator, which is over by that
    (only the task in flight still moves): no result was yielded for any
    of the three urls, the third url was never taken from the source,
    and the task of the first url is still in flight. *)
Lemma imap_unordered_raises :
  ∃ s, exec 2 url_length first_result_run (initial ["a"; "b b"; "ccc"]) = Some s
       ∧ at_ s = Raised (ValueError "space in url")
       ∧ (∀ l s', imap_unordered_step 2 url_length l s = Some s' →
                  ∃ f, l = Completes f)
       ∧ yielded_results url_length s = []
       ∧ ¬ (Return <$> yielded_results url_length s
            ≡ₚ url_length <$> ["a"; "b b"; "ccc"])
       ∧ iterable s = ["ccc"] ∧ in_flight s = {[0]}.
Proof.
  eexists. split; [vm_compute; reflexivity|]. split_and!; try by vm_compute.
  - intros l s' Hstep. destruct l; try discriminate Hstep. eauto.
  - intros Hperm%Permutation_length. discriminate Hperm.
Qed.

Lemma early_stop_no_new_work_witness :
  ∃ s s', exec 2 url_length first_result_run (initial ["a"; "bb"; "ccc"]) = Some s
          ∧ exec 2 url_length [Completes 0] s = Some s'
          ∧ iterable s' = ["ccc"] ∧ submitted s' = ["a"; "bb"]
          ∧ in_flight s = {[0]} ∧ in_flight s' = ∅.
Proof.
  eexists. eexists. split; [vm_compute; reflexivity|].
  split; [vm_compute; reflexivity|].
  match goal with
  | |- iterable ?s' = _ ∧ _ ∧ in_flight ?s = _ ∧ _ =>
      destruct (early_stop_no_new_work url_length 2 s s' [Completes 0])
        as (_ & (Hi & _ & Hsub & _) & _)
  end.
  - right. left. reflexivity.
  - unfold consumer_idle. by intros ?%list_elem_of_singleton.
  - vm_compute. reflexivity.
  - rewrite Hi, Hsub. by vm_compute.
Defined.

Lemma imap_unordered_lazy_witness :
  ∃ s, exec 2 url_length first_result_run (initial ["a"; "bb"; "ccc"]) = Some s
       ∧ submitted s = ["a"; "bb"] ∧ iterable s = ["ccc"] ∧ popped s = [1]
       ∧ (Z.of_nat (length (submitted s)) ≤ Z.of_nat (length (popped s)) + 2)%Z.
Proof.
  eexists. split; [vm_compute; reflexivity|]. split_and!; [reflexivity..|].
  match goal with
  | |- (Z.of_nat (length (submitted ?s)) ≤ _)%Z =>
      apply (imap_unordered_lazy url_length 2 ["a"; "bb"; "ccc"] s)
  end; [lia|].
  exists first_result_run. vm_compute. reflexivity.
Defined.

End pool_facts.
(** ** The Reconciler's entry loop (from the spec) *)

Module updater_facts.
Import types updater_model.

#[local] Open Scope Z_scope.



(** *** A feed with an entry seen before and a new one *)

Import concrete.





End updater_facts.

(** ** The Hook Dispatcher (from the spec) *)

Module hooks_facts.
Import updater_model hooks_model.

(** *** The steps taken *)






(** *** Registries that do the same for a feed *)







(** *** The scenario of [test_update_hook_unexpected_exception] *)



(** With the hook among the [before_feed] hooks, the feed it raises for
    is not updated at all; among the [after_feed] hooks, it is the last
    step.  In one of the two lists of the batch, its exception reaches
    the caller. *)
Example hook_exception_in_test :
  test_body "before_feed_update_hooks"
  = Return [ ([BeforeFeed 0 "1"],
              {| url := "1"; value := Raise (HookError (RuntimeError "error")) |});
             ([BeforeFeed 0 "2"; Update "2"],
              {| url := "2";
                 value := Return {| updated_feed_url := "2"; new := 0; modified := 0 |} |});
             ([BeforeFeed 0 "3"; Update "3"],
              {| url := "3";
                 value := Return {| updated_feed_url := "3"; new := 0; modified := 0 |} |}) ]
  ∧ test_body "after_feed_update_hooks"
    = Return [ ([Update "1"; AfterFeed 0 "1"],
                {| url := "1"; value := Raise (HookError (RuntimeError "error")) |});
               ([Update "2"; AfterFeed 0 "2"],
                {| url := "2";
                   value := Return {| updated_feed_url := "2"; new := 0; modified := 0 |} |});
               ([Update "3"; AfterFeed 0 "3"],
                {| url := "3";
                   value := Return {| updated_feed_url := "3"; new := 0; modified := 0 |} |}) ]
  ∧ test_body "before_feeds_update_hooks" = Raise (RuntimeError "error")
  ∧ test_body "after_feeds_update_hooks" = Raise (RuntimeError "error").
Proof. by split_and!. Qed.

End hooks_facts.

(** ** reader/_utils.py: the other helpers *)

Module utils_facts.
Import _utils.

(** *** [zero_or_one] and [exactly_one] *)

Section zero_or_one.
Context {T U : Type}.

(** X8.  [zero_or_one] and [exactly_one] agree on what they take for the one
    element: [zero_or_one] returns an element exactly when [exactly_one]
    does, and the same one; with two elements or more both fail their
    assertion, whatever the default. *)
Theorem zero_or_one_exactly_one (it : list U) (make_exc : unit → exn)
    (default : option T) :
  (∀ x, zero_or_one it make_exc default = Return (inl x) ↔ exactly_one it = Return x)
  ∧ (∀ x, exactly_one it = Return x ↔ it = [x])
  ∧ (2 ≤ length it →
     zero_or_one it make_exc default = Raise AssertionError
     ∧ exactly_one it = Raise AssertionError)
  ∧ (it = [] →
     exactly_one it = Raise AssertionError
     ∧ zero_or_one it make_exc default
       = from_option (λ d, Return (inr d)) (Raise (make_exc ())) default).
Proof.
  split_and!.
  - intros x. destruct it as [|y [|z it]], default; simpl; naive_solver.
  - intros x. destruct it as [|y [|z it]]; simpl; naive_solver.
  - intros Hlen. destruct it as [|y [|z it]]; simpl in *; done || lia.
  - intros ->. by destruct default.
Qed.

End zero_or_one.

(** *** [chunks] *)

Section chunks.
Context {T : Type} (maxsize : Z).
Implicit Types (it xs : list T) (c : @chain T).

(** Reading a chunk to its end gives its first item, if it still has it,
    and as many items of the shared iterator as its [islice] may take. *)
Lemma list_chain_reads (fuel : nat) c it :
  islice_left c + match chain_first c with Some _ => 2 | None => 1 end ≤ fuel →
  list_chain fuel c it
  = (from_option (λ x, [x]) [] (chain_first c) ++ take (islice_left c) it,
     true, drop (islice_left c) it).
Proof.
  revert c it. induction fuel as [|fuel IH]; intros [first left] it Hfuel;
    simpl in *; [destruct first; lia|].
  unfold chain_next. simpl. destruct first as [x|].
  - by rewrite IH by (simpl; lia).
  - destruct left as [|k], it as [|y it']; simpl; try done.
    by rewrite IH by (simpl; lia).
Qed.

Lemma chunks_next_in_range (n : Z) it :
  (0 ≤ n ≤ maxsize)%Z →
  chunks_next maxsize n it
  = Return (match Z.to_nat n, it with
            | S k, first :: it' => (Some (Chain (Some first) k), it')
            | _, _ => (None, it)
            end).
Proof.
  intros Hn. unfold chunks_next. rewrite bool_decide_false by lia.
  by destruct (Z.to_nat n), it.
Qed.

(** X9.  [chunks(n, iterable)] with [n] from 1 to [sys.maxsize], each
    chunk read to its end before the next is asked for, cuts the iterable
    into consecutive pieces: chunk [i] is the [n] items from position
    [i * n] on, or what is left of them, and is never empty; together the
    chunks are the iterable.  The generator returns, after no more chunks
    than the iterable has items. *)
Theorem chunks_read_in_turn_partitions (n : Z) (fuel : nat) it :
  (1 ≤ n ≤ maxsize)%Z → length it < fuel →
  ∃ xss, chunks_read_in_turn maxsize n fuel it = Return (xss, true)
         ∧ concat xss = it
         ∧ ∀ i xs, xss !! i = Some xs →
                   xs = take (Z.to_nat n) (drop (i * Z.to_nat n) it) ∧ xs ≠ [].
Proof.
  intros Hn. revert it. induction fuel as [|fuel IH]; intros it Hfuel; [lia|].
  cbn [chunks_read_in_turn]. rewrite chunks_next_in_range, bind_Return by lia.
  destruct (Z.to_nat n) as [|k] eqn:Hk; [lia|].
  destruct it as [|first it'].
  { exists []. by split_and!. }
  rewrite list_chain_reads by (simpl; lia). cbn [chain_first islice_left from_option].
  destruct (IH (drop k it')) as (xss & -> & Hcat & Hxss).
  { rewrite length_drop. simpl in Hfuel. lia. }
  rewrite bind_Return. eexists. split; [done|]. split.
  - simpl. rewrite Hcat. by rewrite take_drop.
  - intros [|i] xs Hi; simplify_eq/=; [done|].
    destruct (Hxss i xs Hi) as [-> Hne]. split; [|done].
    by rewrite drop_drop.
Qed.

(** Asking for all the chunks hands out one chunk for each item, holding
    it as its first, and leaves the shared iterator empty. *)
Lemma list_chunks_all (n : Z) (fuel : nat) it :
  (1 ≤ n ≤ maxsize)%Z → length it < fuel →
  list_chunks maxsize n fuel it
  = Return ((λ x, Chain (Some x) (Z.to_nat n - 1)) <$> it, true, []).
Proof.
  intros Hn. revert it. induction fuel as [|fuel IH]; intros it Hfuel; [lia|].
  cbn [list_chunks]. rewrite chunks_next_in_range, bind_Return by lia.
  destruct (Z.to_nat n) as [|k] eqn:Hk; [lia|].
  destruct it as [|first it']; [done|].
  rewrite IH by (simpl in Hfuel; lia). rewrite bind_Return. simpl.
  by rewrite Nat.sub_0_r.
Qed.

(** A chunk read when the shared iterator is empty has its first item only. *)
Lemma list_chains_firsts (fuel left : nat) it :
  2 ≤ fuel →
  list_chains fuel ((λ x, Chain (Some x) left) <$> it) []
  = ((λ x, [x]) <$> it, true, []).
Proof.
  intros Hfuel. induction it as [|x it IH]; [done|].
  cbn [fmap list_fmap list_chains].
  destruct fuel as [|[|fuel]]; [lia..|].
  assert (list_chain (S (S fuel)) (Chain (Some x) left) [] = ([x], true, [])) as ->.
  { simpl. unfold chain_next. simpl. by destruct left. }
  fold (@fmap list _ T (@chain T) (λ x, Chain (Some x) left) it). by rewrite IH.
Qed.

(** X10.  When all the chunks of [chunks(n, iterable)] are asked for before any
    of them is read, as in [list(chunks(n, iterable))], every chunk comes
    out with one item, whatever [n] from 1 to [sys.maxsize]: the items
    that a chunk would have taken from the iterator have become the first
    items of the chunks after it. *)
Theorem chunks_read_afterwards_singletons (n : Z) (fuel : nat) it :
  (1 ≤ n ≤ maxsize)%Z → length it < fuel →
  chunks_read_afterwards maxsize n fuel it = Return ((λ x, [x]) <$> it, true).
Proof.
  intros Hn Hfuel. unfold chunks_read_afterwards.
  rewrite list_chunks_all, bind_Return by done.
  by rewrite list_chains_firsts by lia.
Qed.

(** A stop that [islice] refuses, negative or above [sys.maxsize], makes
    the first [next()] fail; with [n = 0] the generator returns at once,
    without a chunk and without taking anything from the iterable. *)
Lemma chunks_next_out_of_range (n : Z) it :
  (0 ≤ maxsize)%Z →
  ((n < 0 ∨ maxsize < n)%Z →
   chunks_next maxsize n it = Raise (islice_stop_error maxsize n))
  ∧ chunks_next maxsize 0 it = Return (None, it).
Proof.
  intros Hmax. unfold chunks_next. split.
  - intros Hn. by rewrite bool_decide_true.
  - by rewrite bool_decide_false by lia.
Qed.

End chunks.

(** *** [count_consumed] *)

Section count_consumed.
Context {T : Type}.
Implicit Types (it : list T) (s : @counted T).

Lemma wrapper_nexts_from (k : nat) s :
  wrapper_nexts (S k) s
  = ((Some <$> take (S k) (counted_it s))
       ++ replicate (S k - length (counted_it s)) None,
     Counted (drop (S k) (counted_it s))
       (consumed s + (if at_yield s then 1 else 0) + Nat.min k (length (counted_it s)))
       (bool_decide (S k ≤ length (counted_it s)))).
Proof.
  revert s. induction k as [|k IH]; intros [it c b].
  - destruct it as [|e it], b; simpl; do 2 f_equal; lia.
  - change (wrapper_nexts (S (S k)) (Counted it c b))
      with (let '(x, s') := wrapper_next (Counted it c b) in
            let '(xs, s'') := wrapper_nexts (S k) s' in (x :: xs, s'')).
    unfold wrapper_next. cbn [counted_it consumed at_yield].
    destruct it as [|e it]; rewrite IH; cbn [counted_it consumed at_yield length].
    + rewrite Nat.min_0_r, !Nat.sub_0_r. simpl. do 2 f_equal. destruct b; lia.
    + rewrite (bool_decide_ext (S (S k) ≤ S (length it)) (S k ≤ length it)) by lia.
      replace (S (S k) - S (length it)) with (S k - length it) by lia.
      simpl. do 2 f_equal. destruct b; lia.
Qed.

(** X11.  The count of [count_consumed] is one behind while the consumer holds
    an item: after [k] calls of [next()] on the wrapper, which returned
    the first [k] items (and [StopIteration] from then on), [get_count()]
    is [k - 1], and it is the number of items only once a call has found
    the iterable exhausted. *)
Theorem count_consumed_lags (k : nat) it :
  (wrapper_nexts k (count_consumed it)).1
  = (Some <$> take k it) ++ replicate (k - length it) None
  ∧ get_count (wrapper_nexts k (count_consumed it)).2
    = Nat.min (Nat.pred k) (length it).
Proof.
  destruct k as [|k]; [done|].
  rewrite wrapper_nexts_from. simpl. split; [done|]. done.
Qed.

End count_consumed.

(** *** [PrefixLogger] *)

Module PrefixLogger_facts.
Import PrefixLogger.

Lemma str_join_cons (sep w : string) (ws : list string) :
  ws ≠ [] → str_join sep (w :: ws) = w +:+ sep +:+ str_join sep ws.
Proof. by destruct ws. Qed.

Lemma str_split_nonempty (sep : ascii) (s : string) : str_split sep s ≠ [].
Proof. destruct s as [|c s]; simpl; [done|]. by repeat case_match. Qed.

(** X12.  [_escape] writes every percent sign of a prefix twice and changes
    nothing else; [process] puts the escaped prefixes, each followed by a
    colon and a space, before the message, which it leaves as it is. *)
Theorem process_doubles_percent (prefixes : list string) (msg s : string) :
  _escape s = double_percent s
  ∧ process prefixes msg
    = foldr (λ p acc, double_percent p +:+ ": " +:+ acc) msg prefixes.
Proof.
  assert (∀ s, _escape s = double_percent s) as Hescape.
  { clear. unfold _escape. induction s as [|c s IH]; [done|].
    simpl. destruct (Ascii.eqb c "%") eqn:Hc.
    - rewrite str_join_cons by apply str_split_nonempty. simpl. by rewrite IH.
    - rewrite <-IH. pose proof (str_split_nonempty "%" s).
      destruct (str_split "%" s) as [|w [|w' ws]]; done. }
  split; [done|]. unfold process.
  induction prefixes as [|p prefixes IH]; [done|].
  cbn [map app foldr]. rewrite str_join_cons by (by destruct prefixes).
  by rewrite IH, Hescape.
Qed.

End PrefixLogger_facts.

(** *** The statements at concrete inputs *)

Import concrete.

Lemma chunks_read_in_turn_partitions_witness :
  ∃ xss, chunks_read_in_turn sys_maxsize 2 6 abcde = Return (xss, true)
         ∧ concat xss = abcde
         ∧ ∀ i xs, xss !! i = Some xs →
                   xs = take (Z.to_nat 2) (drop (i * Z.to_nat 2) abcde) ∧ xs ≠ [].
Proof.
  apply (chunks_read_in_turn_partitions sys_maxsize 2 6 abcde);
    [by vm_compute|simpl; lia].
Defined.

(** "grouper(2, 'ABCDE') --> AB CD E" *)
Example chunks_docstring :
  chunks_read_in_turn sys_maxsize 2 6 abcde
  = Return ([["A"; "B"]; ["C"; "D"]; ["E"]], true).
Proof. by vm_compute. Qed.

(** A stop above [sys.maxsize], like a negative one, is refused by
    [islice] in the first [next()]. *)
Example chunks_stop_refused :
  chunks_read_in_turn sys_maxsize (2 ^ 63) 6 abcde
  = Raise (ValueError "Stop argument for islice() must be None or an integer: 0 <= x <= sys.maxsize.")
  ∧ chunks_read_in_turn sys_maxsize (-1) 6 abcde
    = Raise (ValueError "Stop argument for islice() must be None or an integer: 0 <= x <= sys.maxsize.")
  ∧ chunks_read_in_turn sys_maxsize (-2) 6 abcde
    = Raise (ValueError "Indices for islice() must be None or an integer: 0 <= x <= sys.maxsize.").
Proof. split_and!; by vm_compute. Qed.

Lemma chunks_read_afterwards_singletons_witness :
  chunks_read_afterwards sys_maxsize 2 6 abcde
  = Return ([["A"]; ["B"]; ["C"]; ["D"]; ["E"]], true).
Proof.
  apply (chunks_read_afterwards_singletons sys_maxsize 2 6 abcde);
    [by vm_compute|simpl; lia].
Defined.

(** After three items the count is two; it is five when the sixth call
    has found nothing more. *)
Example count_consumed_abcde :
  get_count (wrapper_nexts 3 (count_consumed abcde)).2 = 2
  ∧ get_count (wrapper_nexts 5 (count_consumed abcde)).2 = 4
  ∧ get_count (wrapper_nexts 6 (count_consumed abcde)).2 = 5.
Proof. by vm_compute. Qed.

Example process_prefixes :
  PrefixLogger.process ["update"; "100% done"] "got %r"
  = "update: 100%% done: got %r".
Proof. by vm_compute. Qed.

End utils_facts.

(** ** reader/core/types.py *)

Module types_facts.

(** *** [HighlightedString] *)

Module HighlightedString_facts.
Import types.HighlightedString.

#[local] Open Scope Z_scope.

Lemma reason_valid (value_ : str) (highlight : slice) :
  str_truthy (reason value_ highlight) = false ↔ valid_highlight value_ highlight.
Proof.
  unfold reason, valid_highlight. destruct highlight as [[a|] [b|] c]; simpl.
  2-4: split; [done|]; by intros (? & ? & ? & _).
  repeat case_bool_decide; simpl; (split; [try done|]).
  all: try (intros (? & ? & ? & ? & ?); simplify_eq; (lia || by eauto)).
  intros _. exists a, b. destruct c; [by exfalso; eauto|]. split; [done|]. lia.
Qed.

Lemma check_highlight_valid (value_ : str) (highlight : slice) :
  check_highlight value_ highlight = Return tt ↔ valid_highlight value_ highlight.
Proof.
  rewrite <-reason_valid. unfold check_highlight.
  destruct (str_truthy (reason value_ highlight)); naive_solver.
Qed.

Lemma mapM_check_highlight (value_ : str) (highlights_ : list slice) (us : list unit) :
  mapM (check_highlight value_) highlights_ = Return us →
  Forall (valid_highlight value_) highlights_.
Proof.
  revert us. induction highlights_ as [|h hs IH]; intros us Hus; [constructor|].
  simpl in Hus. apply bind_Return_inv in Hus as ([] & Hh & Hus).
  apply bind_Return_inv in Hus as (us' & Hus' & _).
  constructor; [by apply check_highlight_valid|by eapply IH].
Qed.

Lemma mapM_check_highlight_valid (value_ : str) (highlights_ : list slice) :
  Forall (valid_highlight value_) highlights_ →
  ∃ us, mapM (check_highlight value_) highlights_ = Return us.
Proof.
  induction 1 as [|h hs Hh _ [us IH]]; [by eexists|].
  apply check_highlight_valid in Hh. simpl. rewrite Hh, bind_Return, IH. by eexists.
Qed.

(** The order of the keys is a total preorder. *)
#[local] Instance sort_key_le_trans : Transitive sort_key_le.
Proof.
  intros s1 s2 s3. unfold sort_key_le, key_le.
  rewrite !bool_decide_eq_true. lia.
Qed.

Lemma sort_key_le_total (s1 s2 : slice) : sort_key_le s1 s2 ∨ sort_key_le s2 s1.
Proof. unfold sort_key_le, key_le. rewrite !bool_decide_eq_true. lia. Qed.

Lemma insert_sorted_Permutation (s : slice) (l : list slice) :
  insert_sorted s l ≡ₚ s :: l.
Proof.
  induction l as [|s' l IH]; simpl; [done|].
  case_match; [done|]. by rewrite IH, Permutation_swap.
Qed.

Lemma sorted_Permutation (l : list slice) : sorted l ≡ₚ l.
Proof.
  induction l as [|s l IH]; simpl; [done|].
  by rewrite insert_sorted_Permutation, IH.
Qed.

Lemma insert_sorted_StronglySorted (s : slice) (l : list slice) :
  StronglySorted sort_key_le l → StronglySorted sort_key_le (insert_sorted s l).
Proof.
  induction 1 as [|s' l Hl IH Hs']; simpl; [by repeat constructor|].
  destruct (key_le (sort_key s) (sort_key s')) eqn:Hle.
  - constructor; [by constructor|]. constructor; [done|].
    eapply Forall_impl; [exact Hs'|]. intros s'' ?. by etrans.
  - constructor; [done|]. rewrite insert_sorted_Permutation.
    constructor; [|done].
    destruct (sort_key_le_total s s') as [Hss'|]; [|done].
    unfold sort_key_le in Hss'. congruence.
Qed.

Lemma sorted_StronglySorted (l : list slice) : StronglySorted sort_key_le (sorted l).
Proof.
  induction l as [|s l IH]; simpl; [constructor|].
  by apply insert_sorted_StronglySorted.
Qed.

(** Sorting leaves a sorted list as it is. *)
Lemma sorted_id (l : list slice) : StronglySorted sort_key_le l → sorted l = l.
Proof.
  induction 1 as [|s l Hl IH Hs]; simpl; [done|].
  rewrite IH. destruct Hs as [|s' l Hss' _]; simpl; [done|].
  unfold sort_key_le in Hss'. by rewrite Hss'.
Qed.

Lemma check_overlap_prev (prev : slice) (highlights_ : list slice) :
  check_overlap (Some prev) highlights_ = Return tt
  ↔ Forall (no_overlap prev) highlights_.
Proof.
  induction highlights_ as [|h hs IH]; simpl; [by split; [constructor|]|].
  rewrite Forall_cons. unfold no_overlap at 1. case_bool_decide.
  - split; [done|]. intros [? _]. lia.
  - rewrite IH. split; [|naive_solver]. intros ?. split; [lia|done].
Qed.

Lemma check_overlap_returns (prev : option slice) (highlights_ : list slice) (u : unit) :
  check_overlap prev highlights_ = Return u → check_overlap prev highlights_ = Return tt.
Proof. by destruct u. Qed.

Lemma new_Return_inv (value_ : str) (highlights_ : list slice)
    (self : HighlightedString) :
  new value_ highlights_ = Return self →
  self = {| value := value_; highlights := sorted highlights_ |}
  ∧ Forall (valid_highlight value_) highlights_
  ∧ check_overlap None (sorted highlights_) = Return tt.
Proof.
  unfold new, __post_init__. simpl. intros Hnew.
  apply bind_Return_inv in Hnew as (us & Hvalid%mapM_check_highlight & Hnew).
  apply bind_Return_inv in Hnew as (u & Hu%check_overlap_returns & Hnew).
  by simplify_eq/=.
Qed.

(** X13.  What [__post_init__] lets through: every highlight is a slice without
    a step, within the string; the highlights are stored in the order of
    [(start, stop)], and they are the ones given. *)
Theorem new_highlights_sorted (value_ : str) (highlights_ : list slice)
    (self : HighlightedString) :
  new value_ highlights_ = Return self →
  value self = value_
  ∧ highlights self ≡ₚ highlights_
  ∧ Forall (valid_highlight value_) (highlights self)
  ∧ StronglySorted sort_key_le (highlights self).
Proof.
  intros (-> & Hvalid & _)%new_Return_inv. simpl.
  split_and!; [done|apply sorted_Permutation| |apply sorted_StronglySorted].
  by rewrite sorted_Permutation.
Qed.

(** X24.  What the constructor has let through it lets through again, as
    it is: a [HighlightedString] built from the value and the highlights
    of one is equal to it. *)
Theorem new_again (value_ : str) (highlights_ : list slice)
    (self : HighlightedString) :
  new value_ highlights_ = Return self →
  new (value self) (highlights self) = Return self.
Proof.
  intros (-> & Hvalid & Hoverlap)%new_Return_inv. simpl.
  rewrite <-(sorted_Permutation highlights_) in Hvalid.
  apply mapM_check_highlight_valid in Hvalid as [us Hus].
  unfold new, __post_init__. simpl. rewrite Hus, bind_Return.
  rewrite (sorted_id (sorted highlights_)) by apply sorted_StronglySorted.
  by rewrite Hoverlap.
Qed.

(** X14.  The constructor reports the first highlight, in the order given,
    that its first loop finds fault with; the highlights are sorted, and
    looked at for overlap, only when that loop has found none. *)
Theorem new_reports_first_invalid (value_ : str) (before rest : list slice)
    (highlight : slice) :
  Forall (valid_highlight value_) before → ¬ valid_highlight value_ highlight →
  new value_ (before ++ highlight :: rest)
  = Raise (ValueError ("invalid highlight: " +:+ reason value_ highlight
                       +:+ ": " +:+ repr_slice highlight)).
Proof.
  intros Hbefore Hinvalid. unfold new, __post_init__. simpl.
  assert (mapM (check_highlight value_) (before ++ highlight :: rest)
          = Raise (ValueError ("invalid highlight: " +:+ reason value_ highlight
                               +:+ ": " +:+ repr_slice highlight))) as ->; [|done].
  induction Hbefore as [|h hs Hh _ IH]; simpl.
  - unfold check_highlight.
    destruct (str_truthy (reason value_ highlight)) eqn:Hreason; [done|].
    by apply reason_valid in Hreason.
  - apply check_highlight_valid in Hh. by rewrite Hh, bind_Return, IH.
Qed.

(** X15.  The overlap check of [__post_init__] holds every highlight against
    the first one in the order of [(start, stop)], and against no other:
    valid highlights are let through exactly when none of them starts
    before the first one has stopped. *)
Theorem new_checks_overlap_with_first (value_ : str) (highlights_ : list slice) :
  Forall (valid_highlight value_) highlights_ →
  (∀ first others, sorted highlights_ = first :: others →
                   Forall (no_overlap first) others)
  ↔ new value_ highlights_
    = Return {| value := value_; highlights := sorted highlights_ |}.
Proof.
  intros [us Hus]%mapM_check_highlight_valid.
  unfold new, __post_init__. simpl. rewrite Hus, bind_Return.
  destruct (sorted highlights_) as [|first others] eqn:Hsorted; simpl.
  { split; [done|]. by intros _ ?. }
  split.
  - intros Hfirst. specialize (Hfirst _ _ eq_refl).
    apply check_overlap_prev in Hfirst. by rewrite Hfirst.
  - intros Hnew f o ?. simplify_eq.
    apply bind_Return_inv in Hnew as (u & Hu%check_overlap_returns & _).
    by apply check_overlap_prev.
Qed.

(** Slices with indices that are not negative. *)
Lemma getslice_nonneg (s : str) (a b : Z) :
  0 ≤ a → 0 ≤ b →
  getslice s (Some a) (Some b)
  = take (Z.to_nat b - Z.to_nat a) (drop (Z.to_nat a) s).
Proof.
  intros Ha Hb. unfold getslice, slice_index. simpl.
  rewrite !bool_decide_false by lia.
  destruct (decide (Z.to_nat a ≤ length s)%nat) as [Hle|Hgt].
  - replace (Z.to_nat (a `min` Z.of_nat (length s))) with (Z.to_nat a) by lia.
    destruct (decide (Z.to_nat b ≤ length s)%nat).
    + by replace (Z.to_nat (b `min` Z.of_nat (length s))) with (Z.to_nat b) by lia.
    + replace (Z.to_nat (b `min` Z.of_nat (length s))) with (length s) by lia.
      rewrite !take_ge; [done|rewrite length_drop; lia..].
  - rewrite !drop_ge by lia. by rewrite !take_nil.
Qed.

Lemma getslice_to_end (s : str) (a : Z) :
  0 ≤ a → getslice s (Some a) None = drop (Z.to_nat a) s.
Proof.
  intros Ha. unfold getslice, slice_index. simpl.
  rewrite bool_decide_false by lia.
  destruct (decide (Z.to_nat a ≤ length s)%nat) as [Hle|Hgt].
  - replace (Z.to_nat (a `min` Z.of_nat (length s))) with (Z.to_nat a) by lia.
    apply take_ge. rewrite length_drop. lia.
  - rewrite !drop_ge by lia. by rewrite take_nil.
Qed.

Lemma chained_mono (pos pos' : Z) (highlights_ : list slice) :
  pos' ≤ pos → chained pos highlights_ → chained pos' highlights_.
Proof.
  intros Hpos. destruct highlights_ as [|h hs]; [done|].
  intros (a & b & -> & Hab & Hhs). exists a, b. split; [done|]. split; [lia|done].
Qed.

Lemma chained_Forall (pos : Z) (highlights_ : list slice) :
  chained pos highlights_ →
  Forall (λ h, ∃ a b, h = Slice (Some a) (Some b) None ∧ pos ≤ a ≤ b) highlights_.
Proof.
  revert pos. induction highlights_ as [|h hs IH]; intros pos; [constructor|].
  intros (a & b & -> & Hab & Hhs). constructor; [by eauto|].
  eapply Forall_impl; [by apply IH|]. intros h (a' & b' & -> & ?).
  exists a', b'. split; [done|]. lia.
Qed.

Lemma chained_StronglySorted (pos : Z) (highlights_ : list slice) :
  chained pos highlights_ → StronglySorted sort_key_le highlights_.
Proof.
  revert pos. induction highlights_ as [|h hs IH]; intros pos; [constructor|].
  intros (a & b & -> & Hab & Hhs). constructor; [by eapply IH|].
  eapply Forall_impl; [by apply chained_Forall|]. intros h (a' & b' & -> & ?).
  unfold sort_key_le, key_le. simpl. apply bool_decide_eq_true. lia.
Qed.

(** Valid highlights none of which overlaps the next one follow one another. *)
Lemma valid_Sorted_chained (value_ : str) (highlights_ : list slice) :
  Forall (valid_highlight value_) highlights_ → Sorted no_overlap highlights_ →
  chained 0 highlights_.
Proof.
  assert (∀ pos, Forall (valid_highlight value_) highlights_ →
                 Sorted no_overlap highlights_ →
                 (∀ h hs, highlights_ = h :: hs → pos ≤ default 0 (start h)) →
                 chained pos highlights_) as Hgen.
  { induction highlights_ as [|h hs IH]; intros pos Hvalid Hsorted Hpos; [done|].
    apply Forall_cons in Hvalid as [(a & b & -> & Hab & Hb) Hvalid].
    apply Sorted_inv in Hsorted as [Hsorted Hhd].
    specialize (Hpos _ _ eq_refl). simpl in Hpos.
    exists a, b. split; [done|]. split; [lia|].
    apply IH; [done..|]. intros h' hs' ->. by apply HdRel_inv in Hhd. }
  intros Hvalid Hsorted. apply Hgen; [done..|].
  intros h hs ->. apply Forall_cons in Hvalid as [(a & b & -> & ? & ?) _]. simpl. lia.
Qed.

Lemma split_from_concat (value_ : str) (pos : Z) (highlights_ : list slice) :
  0 ≤ pos → chained pos highlights_ →
  concat (split_from value_ (Some pos) highlights_) = drop (Z.to_nat pos) value_.
Proof.
  revert pos. induction highlights_ as [|h hs IH]; intros pos Hpos; simpl.
  - intros _. by rewrite getslice_to_end, app_nil_r.
  - intros (a & b & -> & Hab & Hhs). simpl.
    rewrite !getslice_nonneg, IH by (done || lia).
    replace (Z.to_nat b) with (Z.to_nat a + (Z.to_nat b - Z.to_nat a))%nat at 2 by lia.
    rewrite <-drop_drop, take_drop.
    replace (Z.to_nat a) with (Z.to_nat pos + (Z.to_nat a - Z.to_nat pos))%nat at 2 by lia.
    by rewrite <-drop_drop, take_drop.
Qed.

Lemma split_from_length (value_ : str) (pos : option Z) (highlights_ : list slice) :
  length (split_from value_ pos highlights_) = (2 * length highlights_ + 1)%nat.
Proof.
  revert pos. induction highlights_ as [|h hs IH]; intros pos; simpl; [done|].
  rewrite IH. lia.
Qed.

Lemma split_from_lookup (value_ : str) (pos : option Z) (highlights_ : list slice)
    (j : nat) (h : slice) :
  highlights_ !! j = Some h →
  split_from value_ pos highlights_ !! (2 * j + 1)%nat
  = Some (getslice value_ (start h) (stop h)).
Proof.
  revert pos j. induction highlights_ as [|h' hs IH]; intros pos [|j] Hj;
    simplify_eq/=; [done|].
  replace (j + S (j + 0) + 1)%nat with (S (2 * j + 1)) by lia. simpl.
  by apply IH.
Qed.

(** The parts of [apply], two at a time. *)
Lemma apply_from_cons (value_ : str) (pos : option Z) (h : slice)
    (highlights_ : list slice) (before after : str) (func : option (str → str)) :
  apply_from value_ pos (h :: highlights_) before after func
  = from_option (λ f, f (getslice value_ pos (start h)))
      (getslice value_ pos (start h)) func
    ++ before
    ++ from_option (λ f, f (getslice value_ (start h) (stop h)))
         (getslice value_ (start h) (stop h)) func
    ++ after
    ++ apply_from value_ (stop h) highlights_ before after func.
Proof.
  unfold apply_from. simpl. do 6 f_equal.
  apply imap_ext. intros i part _. unfold inner, compose.
  replace (S (S i) `mod` 2)%nat with (i `mod` 2)%nat; [done|].
  replace (S (S i)) with (i + 1 * 2)%nat by lia. by rewrite Nat.Div0.mod_add.
Qed.

Lemma apply_from_nil (value_ : str) (pos : option Z) (before after : str)
    (func : option (str → str)) :
  apply_from value_ pos [] before after func
  = from_option (λ f, f (getslice value_ pos None)) (getslice value_ pos None) func.
Proof. unfold apply_from. simpl. by rewrite !app_nil_r. Qed.

Lemma apply_from_empty_markers (value_ : str) (pos : option Z)
    (highlights_ : list slice) :
  apply_from value_ pos highlights_ [] [] None
  = concat (split_from value_ pos highlights_).
Proof.
  revert pos. induction highlights_ as [|h hs IH]; intros pos.
  - rewrite apply_from_nil. simpl. by rewrite app_nil_r.
  - rewrite apply_from_cons, IH. done.
Qed.

(** X16.  [split] cuts the string at the ends of its highlights, when none of
    them overlaps the next one: there are two parts for every highlight
    and one more, the part after the [j]-th even one is the [j]-th
    highlight, all the parts together are the string, and so is what
    [apply] gives with empty markers. *)
Theorem split_parts (value_ : str) (highlights_ : list slice)
    (self : HighlightedString) :
  new value_ highlights_ = Return self →
  Sorted no_overlap (highlights self) →
  concat (split self) = value_
  ∧ length (split self) = (2 * length highlights_ + 1)%nat
  ∧ (∀ j h, highlights self !! j = Some h →
            split self !! (2 * j + 1)%nat = Some (getslice value_ (start h) (stop h)))
  ∧ apply self [] [] None = value_.
Proof.
  intros (-> & Hvalid & _)%new_Return_inv Hsorted. simpl in Hsorted.
  rewrite <-(sorted_Permutation highlights_) in Hvalid.
  pose proof (valid_Sorted_chained _ _ Hvalid Hsorted) as Hchained.
  unfold apply, split. simpl. split_and!.
  - by rewrite split_from_concat.
  - by rewrite split_from_length, sorted_Permutation.
  - intros j h. apply split_from_lookup.
  - by rewrite apply_from_empty_markers, split_from_concat.
Qed.

(** Slices of a string that starts with [u ++ part], taken from the end
    of [u] and from the end of [part]. *)
Lemma getslice_skip (u part w : str) (index e : Z) :
  Z.of_nat (length u) = index → index + Z.of_nat (length part) ≤ e →
  getslice (u ++ part ++ w) (Some index) (Some e)
  = part ++ getslice (u ++ part ++ w) (Some (index + Z.of_nat (length part))) (Some e).
Proof.
  intros Hu He. rewrite !getslice_nonneg by lia.
  replace (Z.to_nat index) with (length u) by lia.
  replace (Z.to_nat (index + Z.of_nat (length part)))
    with (length (u ++ part)) by (rewrite length_app; lia).
  rewrite drop_app_length, (assoc_L (++) u part w), drop_app_length.
  rewrite take_app_ge by lia. f_equal. f_equal. rewrite length_app. lia.
Qed.

Lemma getslice_skip_to_end (u part w : str) (index : Z) :
  Z.of_nat (length u) = index →
  getslice (u ++ part ++ w) (Some index) None
  = part ++ getslice (u ++ part ++ w) (Some (index + Z.of_nat (length part))) None.
Proof.
  intros Hu. rewrite !getslice_to_end by lia.
  replace (Z.to_nat index) with (length u) by lia.
  replace (Z.to_nat (index + Z.of_nat (length part)))
    with (length (u ++ part)) by (rewrite length_app; lia).
  by rewrite drop_app_length, (assoc_L (++) u part w), drop_app_length.
Qed.

Lemma getslice_empty (s : str) (index : Z) :
  0 ≤ index → getslice s (Some index) (Some index) = [].
Proof. intros ?. rewrite getslice_nonneg by done. by rewrite Nat.sub_diag. Qed.

Lemma apply_from_skip (u part w : str) (index : Z) (highlights_ : list slice)
    (before after : str) :
  Z.of_nat (length u) = index →
  chained (index + Z.of_nat (length part)) highlights_ →
  apply_from (u ++ part ++ w) (Some index) highlights_ before after None
  = part ++ apply_from (u ++ part ++ w) (Some (index + Z.of_nat (length part)))
              highlights_ before after None.
Proof.
  intros Hu Hchained. destruct highlights_ as [|h hs].
  - rewrite !apply_from_nil. simpl. by apply getslice_skip_to_end.
  - destruct Hchained as (a & b & -> & Hab & _).
    rewrite !apply_from_cons. simpl.
    rewrite (getslice_skip u part w index a) by (done || lia).
    by rewrite <-!app_assoc.
Qed.

(** What the loop of [extract] returns, in terms of what is still to be
    read: the slices it adds follow one another, and marking them in the
    text it adds gives back the parts read, markers included. *)
Lemma extract_loop_apply (before after : str) (todo : list str) :
  ∀ (parts : list str) (slices : list slice) (index : Z) (start_ : option Z)
    (parts' : list str) (slices' : list slice),
    extract_loop before after todo parts slices index start_ = Return (parts', slices') →
    0 ≤ index →
    ∃ (w : str) (added : list slice),
      concat parts' = concat parts ++ w
      ∧ match start_ with
        | None =>
            slices' = slices ++ added
            ∧ chained index added
            ∧ ∀ u, Z.of_nat (length u) = index →
                   apply_from (u ++ w) (Some index) added before after None
                   = concat todo
        | Some s =>
            ∃ e, slices' = slices ++ Slice (Some s) (Some e) None :: added
                 ∧ index ≤ e
                 ∧ chained e added
                 ∧ ∀ u, Z.of_nat (length u) = index →
                        getslice (u ++ w) (Some index) (Some e) ++ after
                        ++ apply_from (u ++ w) (Some e) added before after None
                        = concat todo
        end.
Proof.
  induction todo as [|part todo IH]; intros parts slices index start_ parts' slices'
    Hloop Hindex; simpl in Hloop.
  { destruct start_; simplify_eq. exists [], []. rewrite !app_nil_r.
    split_and!; try done. intros u Hu. rewrite apply_from_nil. simpl.
    rewrite getslice_to_end by done.
    replace (Z.to_nat index) with (length u) by lia. by rewrite drop_app_length. }
  case_bool_decide as Hbefore; [|case_bool_decide as Hafter].
  - (* a start marker *)
    destruct start_; [done|]. subst part.
    destruct (IH _ _ _ _ _ _ Hloop Hindex) as (w & added & Hw & e & -> & He & Hadded & Happly).
    exists w, (Slice (Some index) (Some e) None :: added).
    split_and!; [done..| |].
    + exists index, e. split; [done|]. split; [lia|done].
    + intros u Hu. rewrite apply_from_cons. simpl.
      rewrite getslice_empty by done. simpl. by rewrite Happly.
  - (* an end marker *)
    destruct start_ as [s|]; [|done]. subst part.
    destruct (IH _ _ _ _ _ _ Hloop Hindex) as (w & added & Hw & -> & Hadded & Happly).
    exists w, added. split; [done|]. exists index.
    split_and!; [by rewrite <-app_assoc|done..|].
    intros u Hu. rewrite getslice_empty by done. simpl. by rewrite Happly.
  - (* text *)
    destruct (IH _ _ _ _ _ _ Hloop ltac:(lia)) as (w & added & Hw & Hrest).
    rewrite concat_app in Hw. simpl in Hw. rewrite app_nil_r, <-app_assoc in Hw.
    exists (part ++ w), added. split; [done|].
    destruct start_ as [s|].
    + destruct Hrest as (e & -> & He & Hadded & Happly).
      exists e. split_and!; [done|lia|done|].
      intros u Hu. rewrite (getslice_skip u part w index e) by (done || lia).
      specialize (Happly (u ++ part)). rewrite length_app in Happly.
      rewrite <-(assoc_L (++) u part w) in Happly.
      simpl. rewrite <-app_assoc. f_equal. apply Happly. lia.
    + destruct Hrest as (-> & Hadded & Happly).
      split_and!; [done|by eapply chained_mono; [|done]; lia|].
      intros u Hu. rewrite apply_from_skip by done.
      specialize (Happly (u ++ part)). rewrite length_app in Happly.
      rewrite <-(assoc_L (++) u part w) in Happly.
      simpl. f_equal. apply Happly. lia.
Qed.

(** The slices the loop adds lie within the text it adds, which is the
    parts read that are not markers. *)
Lemma extract_loop_value (before after : str) (todo : list str) :
  ∀ (parts : list str) (slices : list slice) (index : Z) (start_ : option Z)
    (parts' : list str) (slices' : list slice),
    extract_loop before after todo parts slices index start_ = Return (parts', slices') →
    index = Z.of_nat (length (concat parts)) →
    Forall (λ h, default 0 (stop h) ≤ index) slices →
    concat parts' = concat parts ++ concat (filter (λ part, part ≠ before ∧ part ≠ after) todo)
    ∧ Forall (λ h, default 0 (stop h) ≤ Z.of_nat (length (concat parts'))) slices'
    ∧ length slices' = (length slices + length (filter (λ part, part = after ∧ part ≠ before) todo))%nat.
Proof.
  induction todo as [|part todo IH]; intros parts slices index start_ parts' slices'
    Hloop Hindex Hslices; simpl in Hloop.
  { destruct start_; simplify_eq. rewrite filter_nil. simpl.
    rewrite app_nil_r, Nat.add_0_r. done. }
  case_bool_decide as Hbefore; [|case_bool_decide as Hafter].
  - destruct start_; [done|].
    rewrite !filter_cons_False by naive_solver. by eapply IH.
  - destruct start_ as [s|]; [|done].
    rewrite filter_cons_False by naive_solver.
    rewrite (filter_cons_True (λ part, part = after ∧ part ≠ before)) by done.
    destruct (IH _ _ _ _ _ _ Hloop Hindex) as (? & ? & Hlen).
    { apply Forall_app. split; [done|]. by repeat constructor. }
    split_and!; [done..|]. rewrite Hlen, length_app. simpl. lia.
  - rewrite filter_cons_True by done.
    rewrite (filter_cons_False (λ part, part = after ∧ part ≠ before)) by naive_solver.
    destruct (IH _ _ _ _ _ _ Hloop) as (Hparts & ? & ?).
    { rewrite concat_app, !length_app. simpl. rewrite app_nil_r. lia. }
    { eapply Forall_impl; [done|]. simpl. lia. }
    split_and!; [|done..].
    rewrite Hparts, concat_app. simpl. by rewrite app_nil_r, <-app_assoc.
Qed.

(** The errors of the loop are the three about markers. *)
Lemma extract_loop_raises (before after : str) (todo : list str) :
  ∀ (parts : list str) (slices : list slice) (index : Z) (start_ : option Z) (e : exn),
    extract_loop before after todo parts slices index start_ = Raise e →
    e ∈ [ValueError "highlight start marker in highlight";
         ValueError "unmatched highlight end marker";
         ValueError "highlight is never closed"].
Proof.
  induction todo as [|part todo IH]; intros parts slices index start_ e Hloop;
    simpl in Hloop.
  { destruct start_; simplify_eq. set_solver. }
  repeat case_bool_decide; destruct start_; simplify_eq; try (by eapply IH); set_solver.
Qed.

(** The constructor lets through highlights that follow one another
    within the string. *)
Lemma new_chained (value_ : str) (highlights_ : list slice) :
  chained 0 highlights_ →
  Forall (λ h, default 0 (stop h) ≤ Z.of_nat (length value_)) highlights_ →
  new value_ highlights_ = Return {| value := value_; highlights := highlights_ |}.
Proof.
  intros Hchained Hstops.
  assert (Forall (valid_highlight value_) highlights_) as Hvalid.
  { apply chained_Forall in Hchained. rewrite Forall_forall in *.
    intros h Hh. destruct (Hchained h Hh) as (a & b & -> & ?).
    specialize (Hstops _ Hh). simpl in Hstops. exists a, b. split; [done|]. lia. }
  apply mapM_check_highlight_valid in Hvalid as [us Hus].
  unfold new, __post_init__. simpl. rewrite Hus, bind_Return.
  rewrite sorted_id by (by eapply chained_StronglySorted).
  destruct highlights_ as [|first others]; [done|]. simpl.
  destruct Hchained as (a & b & -> & ? & Hothers).
  assert (check_overlap (Some (Slice (Some a) (Some b) None)) others = Return tt) as ->; [|done].
  apply check_overlap_prev. eapply Forall_impl; [by apply chained_Forall|].
  intros h (a' & b' & -> & ?). unfold no_overlap. simpl. lia.
Qed.

Lemma chained_Sorted (pos : Z) (highlights_ : list slice) :
  chained pos highlights_ → Sorted no_overlap highlights_.
Proof.
  revert pos. induction highlights_ as [|h hs IH]; intros pos; [constructor|].
  intros (a & b & -> & Hab & Hhs). constructor; [by eapply IH|].
  destruct hs as [|h' hs]; [constructor|].
  destruct Hhs as (a' & b' & -> & ? & _). constructor. unfold no_overlap. simpl. lia.
Qed.

Section extract.
Context `{Re}.

Lemma extract_Return_inv (text before after : str) (self : HighlightedString) :
  extract text before after = Return self →
  ∃ parts, extract_loop before after (re_split before after text) [] [] 0 None
           = Return (parts, highlights self)
           ∧ value self = concat parts
           ∧ chained 0 (highlights self)
           ∧ apply_from (value self) (Some 0) (highlights self) before after None = text.
Proof.
  unfold extract. intros Hextract.
  apply bind_Return_inv in Hextract as ([parts slices] & Hloop & Hnew).
  destruct (extract_loop_apply _ _ _ _ _ _ _ _ _ Hloop)
    as (w & added & Hw & -> & Hadded & Happly); [done|].
  apply new_Return_inv in Hnew as (-> & _ & _). simpl in *.
  rewrite sorted_id by (by eapply chained_StronglySorted).
  exists parts. split_and!; [done..|].
  rewrite Hw, <-(re_split_join before after text). by apply (Happly []).
Qed.

(** X17.  [apply] is the opposite of [extract]: when [extract] finds the
    highlights that [before] and [after] mark in a text, [apply] with the
    same markers gives the text back. *)
Theorem extract_apply_roundtrip (text before after : str) (self : HighlightedString) :
  extract text before after = Return self →
  apply self before after None = text.
Proof.
  intros (parts & _ & _ & _ & Happly)%extract_Return_inv. done.
Qed.

(** X18.  What [extract] makes of a text: its value is the text without the
    markers, it has one highlight for every end marker, no highlight
    overlaps the next one, and the parts [split] cuts the value into make
    up the value. *)
Theorem extract_value_without_markers (text before after : str)
    (self : HighlightedString) :
  extract text before after = Return self →
  value self
  = concat (filter (λ part, part ≠ before ∧ part ≠ after) (re_split before after text))
  ∧ length (highlights self)
    = length (filter (λ part, part = after ∧ part ≠ before) (re_split before after text))
  ∧ Sorted no_overlap (highlights self)
  ∧ concat (split self) = value self.
Proof.
  intros (parts & Hloop & Hvalue & Hchained & _)%extract_Return_inv.
  destruct (extract_loop_value _ _ _ _ _ _ _ _ _ Hloop) as (Hparts & _ & Hlen);
    [done|constructor|].
  split_and!; [by rewrite Hvalue|done|by eapply chained_Sorted|].
  unfold split. by rewrite split_from_concat.
Qed.

(** X19.  [extract] fails with one of its three errors about markers, and with
    nothing else: the constructor never refuses the highlights that the
    loop has found. *)
Theorem extract_raises_marker_errors (text before after : str) (e : exn) :
  extract text before after = Raise e →
  e ∈ [ValueError "highlight start marker in highlight";
       ValueError "unmatched highlight end marker";
       ValueError "highlight is never closed"].
Proof.
  unfold extract. intros Hextract.
  destruct (extract_loop before after (re_split before after text) [] [] 0 None)
    as [[parts slices]|e'] eqn:Hloop.
  - rewrite bind_Return in Hextract.
    destruct (extract_loop_apply _ _ _ _ _ _ _ _ _ Hloop)
      as (w & added & Hw & -> & Hadded & _); [done|].
    destruct (extract_loop_value _ _ _ _ _ _ _ _ _ Hloop) as (_ & Hstops & _);
      [done|constructor|].
    simpl in *. by rewrite new_chained in Hextract.
  - rewrite bind_Raise in Hextract. simplify_eq. by eapply extract_loop_raises.
Qed.

End extract.

(** *** The statements at concrete inputs, and the cases of the tests *)

Import concrete.

Lemma new_highlights_sorted_witness :
  new (chars "abcd") [hl 2 3; hl 1 2]
  = Return {| value := chars "abcd"; highlights := [hl 1 2; hl 2 3] |}
  ∧ StronglySorted sort_key_le [hl 1 2; hl 2 3].
Proof.
  split; [by vm_compute|].
  exact (proj2 (proj2 (proj2
    (new_highlights_sorted (chars "abcd") [hl 2 3; hl 1 2]
       {| value := chars "abcd"; highlights := [hl 1 2; hl 2 3] |} eq_refl)))).
Defined.

Lemma new_again_witness :
  new (chars "abcd") [hl 1 2; hl 2 3]
  = Return {| value := chars "abcd"; highlights := [hl 1 2; hl 2 3] |}.
Proof.
  exact (new_again (chars "abcd") [hl 2 3; hl 1 2]
           {| value := chars "abcd"; highlights := [hl 1 2; hl 2 3] |} eq_refl).
Defined.

Lemma new_reports_first_invalid_witness :
  new (chars "abcd") [hl 0 1; hl 4 5; Slice None None None]
  = Raise (ValueError "invalid highlight: start and stop must be less than or equal to the string length: slice(4, 5, None)").
Proof.
  apply (new_reports_first_invalid (chars "abcd") [hl 0 1] [Slice None None None] (hl 4 5)).
  - constructor; [|constructor]. exists 0, 1. split; [reflexivity|]. simpl. lia.
  - intros (a & b & Heq & Ha & Hb). injection Heq as <- <-. simpl in Hb. lia.
Defined.

(** Highlights that overlap one another, but not the first one, are let
    through. *)
Lemma new_checks_overlap_with_first_witness :
  new (chars "abcde") [hl 0 1; hl 2 5; hl 3 4]
  = Return {| value := chars "abcde"; highlights := [hl 0 1; hl 2 5; hl 3 4] |}.
Proof.
  apply (new_checks_overlap_with_first (chars "abcde") [hl 0 1; hl 2 5; hl 3 4]).
  - repeat (constructor; [eexists _, _; split; [reflexivity|simpl; lia]|]).
    constructor.
  - intros first others [= <- <-].
    repeat (constructor; [unfold no_overlap; simpl; lia|]). constructor.
Defined.

(** The parts of [split] then repeat a piece of the string. *)
Example split_overlapping :
  (self ← new (chars "abcde") [hl 0 1; hl 2 5; hl 3 4] ; Return (split self))
  = Return [chars ""; chars "a"; chars "b"; chars "cde"; chars ""; chars "d"; chars "e"].
Proof. by vm_compute. Qed.

Lemma split_parts_witness :
  concat (split {| value := chars "abcd"; highlights := [hl 1 2; hl 2 3] |})
  = chars "abcd"
  ∧ split {| value := chars "abcd"; highlights := [hl 1 2; hl 2 3] |}
    = [chars "a"; chars "b"; chars ""; chars "c"; chars "d"].
Proof.
  split; [|by vm_compute].
  refine (proj1 (split_parts (chars "abcd") [hl 2 3; hl 1 2]
                   {| value := chars "abcd"; highlights := [hl 1 2; hl 2 3] |}
                   eq_refl _)).
  repeat (constructor; [|constructor; unfold no_overlap; simpl; lia]). constructor.
Defined.

Lemma extract_apply_roundtrip_witness :
  extract (chars ">one< two") (chars ">") (chars "<")
  = Return {| value := chars "one two"; highlights := [hl 0 3] |}
  ∧ apply {| value := chars "one two"; highlights := [hl 0 3] |}
      (chars ">") (chars "<") None
    = chars ">one< two".
Proof.
  split; [by vm_compute|].
  exact (extract_apply_roundtrip (chars ">one< two") (chars ">") (chars "<")
           {| value := chars "one two"; highlights := [hl 0 3] |} eq_refl).
Defined.

Lemma extract_value_without_markers_witness :
  concat (split {| value := chars "one two three four";
                   highlights := [hl 4 7; hl 14 18] |})
  = chars "one two three four".
Proof.
  exact (proj2 (proj2 (proj2
    (extract_value_without_markers (chars "one >two< three >four<")
       (chars ">") (chars "<")
       {| value := chars "one two three four"; highlights := [hl 4 7; hl 14 18] |}
       eq_refl)))).
Defined.

Lemma extract_raises_marker_errors_witness :
  extract (chars ">one >two<<") (chars ">") (chars "<")
  = Raise (ValueError "highlight start marker in highlight")
  ∧ ValueError "highlight start marker in highlight"
    ∈ [ValueError "highlight start marker in highlight";
       ValueError "unmatched highlight end marker";
       ValueError "highlight is never closed"].
Proof.
  split; [by vm_compute|].
  exact (extract_raises_marker_errors (chars ">one >two<<") (chars ">") (chars "<")
           _ eq_refl).
Defined.

(** The cases of [tests/test_types.py]. *)
Example extract_tests :
  extract (chars "") (chars ">") (chars "<") = Return {| value := []; highlights := [] |}
  ∧ extract (chars "><><one") (chars ">") (chars "<")
    = Return {| value := chars "one"; highlights := [hl 0 0; hl 0 0] |}
  ∧ extract (chars "one >two< three >four<") (chars ">") (chars "<")
    = Return {| value := chars "one two three four"; highlights := [hl 4 7; hl 14 18] |}
  ∧ extract (chars ">one") (chars ">") (chars "<")
    = Raise (ValueError "highlight is never closed")
  ∧ extract (chars "<two") (chars ">") (chars "<")
    = Raise (ValueError "unmatched highlight end marker").
Proof. split_and!; by vm_compute. Qed.

Example new_tests :
  new (chars "abcd") [Slice (Some 0) None None]
  = Raise (ValueError "invalid highlight: start and stop must not be None: slice(0, None, None)")
  ∧ new (chars "abcd") [Slice (Some 0) (Some 1) (Some (-1))]
    = Raise (ValueError "invalid highlight: step must be None: slice(0, 1, -1)")
  ∧ new (chars "abcd") [hl (-1) 0]
    = Raise (ValueError "invalid highlight: start and stop must be equal to or greater than 0: slice(-1, 0, None)")
  ∧ new (chars "abcd") [hl 1 0]
    = Raise (ValueError "invalid highlight: start must be not be greater than stop: slice(1, 0, None)")
  ∧ new (chars "abcd") [hl 0 2; hl 1 3]
    = Raise (ValueError "highlights must not overlap: slice(0, 2, None), slice(1, 3, None)").
Proof. split_and!; by vm_compute. Qed.

Example apply_tests :
  apply {| value := chars "abcd"; highlights := [hl 1 3] |} (chars "x") (chars "y") None
  = chars "axbcyd"
  ∧ apply {| value := chars "abcd"; highlights := [hl 1 2; hl 2 3] |}
      (chars "x") (chars "y") None
    = chars "axbyxcyd"
  ∧ apply {| value := chars "abcd"; highlights := [hl 0 0; hl 0 0] |}
      (chars "x") (chars "y") None
    = chars "xyxyabcd".
Proof. split_and!; by vm_compute. Qed.

End HighlightedString_facts.

(** *** [EntryFilterOptions.from_args] *)

Module arguments_facts.
Import types types.EntryFilterOptions.

(** X20.  What [from_args] returns: the flags as they were given, each of them
    [None], a [bool], [0] or [1]; and, when an entry is given, the feed
    and the id of the entry, whatever feed was given besides.  But a feed
    that [feed_argument] refuses makes [from_args] fail, also when an
    entry is given whose feed would replace it. *)
Theorem from_args_entry_over_feed (feed entry read_ important_ has_enclosures_ : pyobj) :
  (∀ options,
     from_args feed entry read_ important_ has_enclosures_ = Return options →
     (read options = read_ ∧ important options = important_
      ∧ has_enclosures options = has_enclosures_
      ∧ Forall (λ flag, flag = ObjNone ∨ as_int flag = Some 0%Z ∨ as_int flag = Some 1%Z)
          [read_; important_; has_enclosures_])
     ∧ (entry ≠ ObjNone →
        entry_argument entry = Return (feed_url options, entry_id options))
     ∧ (entry = ObjNone →
        entry_id options = ObjNone
        ∧ (feed = ObjNone → feed_url options = ObjNone)
        ∧ (feed ≠ ObjNone → feed_argument feed = Return (feed_url options))))
  ∧ (∀ e, feed ≠ ObjNone → feed_argument feed = Raise e →
          from_args feed entry read_ important_ has_enclosures_ = Raise e
          ∧ e = ValueError "feed").
Proof.
  split.
  - unfold from_args. intros options Hargs.
    apply bind_Return_inv in Hargs as (feed_url_ & Hfeed & Hargs).
    apply bind_Return_inv in Hargs as ([feed_url' entry_id_] & Hentry & Hargs).
    assert (∀ flag, in_None_False_True flag = true →
                    flag = ObjNone ∨ as_int flag = Some 0%Z ∨ as_int flag = Some 1%Z)
      as Hflag.
    { intros flag. unfold in_None_False_True.
      destruct flag; try (intros ?%bool_decide_eq_true; tauto); by left. }
    destruct (in_None_False_True read_) eqn:Hr; [|done].
    destruct (in_None_False_True important_) eqn:Hi; [|done].
    destruct (in_None_False_True has_enclosures_) eqn:Hh; [|done].
    simplify_eq/=. split_and!; try done.
    + repeat (constructor; [by apply Hflag|]). constructor.
    + intros Hne. by destruct entry.
    + intros ->. simplify_eq. split_and!; [done| |].
      * intros ->. by simplify_eq.
      * intros Hne. by destruct feed.
  - intros e Hne Hfeed. unfold from_args.
    assert (match feed with ObjNone => Return ObjNone | _ => feed_argument feed end
            = Raise e) as -> by (by destruct feed).
    split; [done|]. unfold feed_argument in Hfeed.
    destruct (getattr feed "url"); [done|]. by destruct feed; simplify_eq.
Qed.

(** X22.  A feed and its url are the same argument, and so are an entry
    and the pair of the url of its feed and its id, when the url and the
    id are strings: [feed_argument] and [entry_argument] return the same
    for the two forms the tests pass them in. *)
Theorem argument_forms_agree :
  (∀ feed url_,
     getattr feed "url" = Some (ObjStr url_) →
     (conftest.feed_arg_as_str feed ≫= feed_argument) = Return (ObjStr url_)
     ∧ (conftest.feed_arg_as_feed feed ≫= feed_argument) = Return (ObjStr url_))
  ∧ (∀ entry feed url_ id_,
       getattr entry "feed" = Some feed → getattr feed "url" = Some (ObjStr url_) →
       getattr entry "id" = Some (ObjStr id_) →
       (conftest.entry_arg_as_tuple entry ≫= entry_argument)
       = Return (ObjStr url_, ObjStr id_)
       ∧ (conftest.entry_arg_as_entry entry ≫= entry_argument)
         = Return (ObjStr url_, ObjStr id_)).
Proof.
  split.
  - intros feed url_ Hurl. unfold conftest.feed_arg_as_str, conftest.feed_arg_as_feed.
    rewrite Hurl. simpl. unfold feed_argument. by rewrite Hurl.
  - intros entry feed url_ id_ Hfeed Hurl Hid.
    unfold conftest.entry_arg_as_tuple, conftest.entry_arg_as_entry.
    rewrite Hfeed, Hid. simpl. rewrite Hurl. simpl. split; [done|].
    unfold entry_argument, feed_argument. by rewrite Hid, Hfeed, Hurl.
Qed.

(** *** The statements at concrete inputs *)

Import concrete.

Lemma from_args_entry_over_feed_witness :
  from_args (ObjStr "http://example.com/other") entry_object ObjNone (ObjInt 1) ObjNone
  = Return {| feed_url := ObjStr "http://example.com/feed";
              entry_id := ObjStr "urn:item:1";
              read := ObjNone; important := ObjInt 1; has_enclosures := ObjNone |}
  ∧ entry_argument entry_object
    = Return (ObjStr "http://example.com/feed", ObjStr "urn:item:1")
  ∧ from_args (ObjInt 1) entry_object ObjNone ObjNone ObjNone = Raise (ValueError "feed").
Proof.
  split; [by vm_compute|]. split.
  - refine (proj1 (proj2 (proj1 (from_args_entry_over_feed
              (ObjStr "http://example.com/other") entry_object ObjNone (ObjInt 1) ObjNone)
              {| feed_url := ObjStr "http://example.com/feed";
                 entry_id := ObjStr "urn:item:1";
                 read := ObjNone; important := ObjInt 1; has_enclosures := ObjNone |}
              eq_refl)) _).
    discriminate.
  - refine (proj1 (proj2 (from_args_entry_over_feed
              (ObjInt 1) entry_object ObjNone ObjNone ObjNone)
              (ValueError "feed") _ eq_refl)).
    discriminate.
Defined.

(** The cases of [tests/test_types.py]. *)
Example argument_tests :
  feed_argument feed_object = Return (ObjStr "http://example.com/feed")
  ∧ feed_argument (ObjInt 1) = Raise (ValueError "feed")
  ∧ entry_argument (ObjTuple [ObjStr "a"; ObjStr "b"]) = Return (ObjStr "a", ObjStr "b")
  ∧ entry_argument (Obj [("id", ObjStr "urn:item:1"); ("feed", ObjNone)])
    = Raise (ValueError "feed")
  ∧ entry_argument (ObjStr "ab") = Raise (ValueError "entry")
  ∧ entry_argument (ObjTuple [ObjInt 1; ObjStr "b"]) = Raise (ValueError "entry")
  ∧ entry_argument (ObjTuple [ObjStr "a"; ObjStr "b"; ObjStr "c"])
    = Raise (ValueError "entry").
Proof. split_and!; by vm_compute. Qed.

Example argument_forms :
  (conftest.entry_arg_as_tuple entry_object ≫= entry_argument)
  = Return (ObjStr "http://example.com/feed", ObjStr "urn:item:1")
  ∧ (conftest.entry_arg_as_entry entry_object ≫= entry_argument)
    = Return (ObjStr "http://example.com/feed", ObjStr "urn:item:1").
Proof. split; by vm_compute. Qed.

End arguments_facts.

End types_facts.
